(** * MCBM: a mixture of conditional Boltzmann machines (cmt/src/mcbm.cpp)

    A shallow embedding of the numerical engine of [MCBM]: the parameter
    store, the flat vectorization used by L-BFGS ([parameters],
    [setParameters]), the forward computations ([sample],
    [logLikelihood]), the batched objective and analytic gradient
    ([computeGradient]) and the finite-difference verifier
    ([checkGradient]).

    Conventions of the embedding.
    - [double] is the field of real numbers: every statement below is a
      statement in exact arithmetic.
    - [int] counters and Eigen indices are unbounded naturals or integers.
    - An Eigen dense matrix is its shape plus its storage, column-major, as
      Eigen stores it by default; [Map] views a flat buffer the same way.
    - A C++ call either returns, throws an [Exception], or gives no result
      (a loop that never ends, a refused Eigen precondition).
    - Eigen's shape preconditions on products, blocks and coefficient-wise
      operations are not failures of the embedding: the operations are
      total on the storage, and the statements carry the shapes of the
      store and of the data as hypotheses. *)

From Stdlib Require Import String Reals Lra Lia ZArith Bool Arith PeanoNat List.
Import ListNotations.
Open Scope R_scope.

(* ================================================================== *)
(** ** Outcomes of a call *)
(* ================================================================== *)

Inductive outcome (A : Type) : Type :=
| Returns (a : A)
| Throws (msg : string)
| NoResult.

Arguments Returns {A} a.
Arguments Throws {A} msg.
Arguments NoResult {A}.

Definition bind {A B : Type} (c : outcome A) (k : A -> outcome B) : outcome B :=
  match c with
  | Returns a => k a
  | Throws msg => Throws msg
  | NoResult => NoResult
  end.

Notation "x <- c ;; k" := (bind c (fun x => k))
  (at level 61, c at next level, right associativity).

(* ================================================================== *)
(** ** Finite sums and maxima over an index range *)
(* ================================================================== *)

(** [rsum n f] is [f 0 + ... + f (n-1)]. *)
Fixpoint rsum (n : nat) (f : nat -> R) : R :=
  match n with
  | O => 0
  | S k => rsum k f + f k
  end.

(** [rmax n f] is the largest of [f 0 .. f (n-1)]. *)
Fixpoint rmax (n : nat) (f : nat -> R) : R :=
  match n with
  | O => 0
  | S k => match k with
           | O => f O
           | S _ => Rmax (rmax k f) (f k)
           end
  end.

(* ================================================================== *)
(** ** Flat buffers ([lbfgsfloatval_t*]) *)
(* ================================================================== *)

Abbreviation buffer := (list R) (only parsing).

(** [y[i] = v] *)
Definition store (y : buffer) (i : nat) (v : R) : buffer :=
  if (i <? length y)%nat then firstn i y ++ v :: skipn (S i) y else y.

(** Overwrite [length vs] cells of [g] starting at [off]. *)
Definition span_write (g : buffer) (off : nat) (vs : list R) : buffer :=
  firstn off g ++ vs ++ skipn (off + length vs) g.

(** [for (i = 0; i < offset; ++i) g[i] /= normConst;] *)
Definition div_prefix (offset : nat) (normConst : R) (g : buffer) : buffer :=
  map (fun v => v / normConst) (firstn offset g) ++ skipn offset g.

(* ================================================================== *)
(** ** Eigen dense matrices *)
(* ================================================================== *)

Record Matrix : Type := mkMat {
  rows : nat;
  cols : nat;
  data : list R          (* column-major storage, as [.data()] *)
}.

Definition size (M : Matrix) : nat := (rows M * cols M)%nat.

(** [M(i, j)] *)
Definition coeff (M : Matrix) (i j : nat) : R :=
  nth (i + j * rows M) (data M) 0.

(** A matrix of the given shape whose [(i, j)] entry is [f i j]. *)
Definition tabulate (r c : nat) (f : nat -> nat -> R) : Matrix :=
  mkMat r c (map (fun k => f (k mod r)%nat (k / r)%nat) (seq 0 (r * c))).

(** [Map<Matrix>(ptr + off, r, c)]: a view of [r * c] cells of a buffer. *)
Definition MapMat (buf : buffer) (off r c : nat) : Matrix :=
  mkMat r c (firstn (r * c) (skipn off buf)).

(** Writing a view back into the buffer it aliases. *)
Definition MapStore (g : buffer) (off : nat) (M : Matrix) : buffer :=
  span_write g off (data M).

Definition Zero (r c : nat) : Matrix := tabulate r c (fun _ _ => 0).

Definition transpose (M : Matrix) : Matrix :=
  tabulate (cols M) (rows M) (fun i j => coeff M j i).

(** Matrix product [A * B]. *)
Definition mmul (A B : Matrix) : Matrix :=
  tabulate (rows A) (cols B)
           (fun i j => rsum (cols A) (fun k => coeff A i k * coeff B k j)).

(** Coefficient-wise unary and binary operations ([.array()]). *)
Definition cwise (f : R -> R) (M : Matrix) : Matrix :=
  tabulate (rows M) (cols M) (fun i j => f (coeff M i j)).

Definition cwise2 (op : R -> R -> R) (A B : Matrix) : Matrix :=
  tabulate (rows A) (cols A) (fun i j => op (coeff A i j) (coeff B i j)).

Definition square : Matrix -> Matrix := cwise (fun v => v * v).
Definition mexp : Matrix -> Matrix := cwise exp.
Definition mabs : Matrix -> Matrix := cwise Rabs.
Definition madd : Matrix -> Matrix -> Matrix := cwise2 Rplus.
Definition msub : Matrix -> Matrix -> Matrix := cwise2 Rminus.
Definition cmul : Matrix -> Matrix -> Matrix := cwise2 Rmult.
Definition scale (M : Matrix) (s : R) : Matrix := cwise (fun v => v * s) M.
Definition shift (M : Matrix) (s : R) : Matrix := cwise (fun v => v + s) M.
Definition one_minus : Matrix -> Matrix := cwise (fun v => 1 - v).

(** [M.colwise() + v]: the column vector [v] added to every column. *)
Definition colwise_add (M v : Matrix) : Matrix :=
  tabulate (rows M) (cols M) (fun i j => coeff M i j + coeff v i 0).

(** [M.rowwise() -= v] and [M.rowwise() * v] for a row vector [v]. *)
Definition rowwise_sub (M v : Matrix) : Matrix :=
  tabulate (rows M) (cols M) (fun i j => coeff M i j - coeff v 0 j).

Definition rowwise_mul (M v : Matrix) : Matrix :=
  tabulate (rows M) (cols M) (fun i j => coeff M i j * coeff v 0 j).

(** [M.rowwise().sum()]: the column vector of row sums. *)
Definition rowwise_sum (M : Matrix) : Matrix :=
  tabulate (rows M) 1 (fun i _ => rsum (cols M) (fun j => coeff M i j)).

(** [M.sum()] and [M.mean()]. *)
Definition msum (M : Matrix) : R :=
  rsum (cols M) (fun j => rsum (rows M) (fun i => coeff M i j)).

Definition mean (M : Matrix) : R := msum M / INR (size M).

(** [M.middleCols(b, w)]: the [w] columns starting at column [b]. *)
Definition middleCols (M : Matrix) (b w : nat) : Matrix :=
  tabulate (rows M) w (fun i j => coeff M i (b + j)).

(** [ArrayXXd S(2, n); S << a, b;]: two row vectors stacked. *)
Definition stack2 (n : nat) (a b : Matrix) : Matrix :=
  tabulate 2 n (fun i j => match i with O => coeff a 0 j | S _ => coeff b 0 j end).

(** Modelled from the spec: [logSumExp] of utils.h, which is not among the
    sources.  For every column it is the log of the sum of the
    exponentials of the column's entries, computed by subtracting the
    column's maximum before exponentiating; the result is a row vector. *)
Definition logSumExp (M : Matrix) : Matrix :=
  tabulate 1 (cols M)
    (fun _ j =>
       let mx := rmax (rows M) (fun i => coeff M i j) in
       mx + ln (rsum (rows M) (fun i => exp (coeff M i j - mx)))).

(** Integer matrices ([MatrixXi]) and the two casts. *)
Record MatrixXi : Type := mkMatI {
  irows : nat;
  icols : nat;
  idata : list Z
}.

Definition cast_double (M : MatrixXi) : Matrix :=
  mkMat (irows M) (icols M) (map IZR (idata M)).

(** [(a < b).cast<int>()], coefficient by coefficient. *)
Definition lt_cast_int (A B : Matrix) : MatrixXi :=
  mkMatI (rows A) (cols A)
         (map (fun k => if Rlt_dec (coeff A (k mod rows A) (k / rows A))
                                   (coeff B (k mod rows A) (k / rows A))
                        then 1%Z else 0%Z)
              (seq 0 (rows A * cols A))).

Definition icoeff (M : MatrixXi) (i j : nat) : Z :=
  nth (i + j * irows M) (idata M) 0%Z.

(* ================================================================== *)
(** ** Training configuration ([MCBM::Parameters]) *)
(* ================================================================== *)

Record Parameters : Type := mkParameters {
  verbosity : Z;
  maxIter : Z;
  threshold : R;
  numGrad : Z;
  batchSize : Z;
  callback : option nat;        (* an opaque handle, or the null pointer *)
  cbIter : Z;
  trainPriors : bool;
  trainWeights : bool;
  trainFeatures : bool;
  trainPredictors : bool;
  trainInputBias : bool;
  trainOutputBias : bool;
  regularizeFeatures : R;
  regularizePredictors : R
}.

(** [MCBM::Parameters::Parameters()] *)
Definition defaultParameters : Parameters :=
  {| verbosity := 0;
     maxIter := 1000;
     threshold := 1 / 100000;
     numGrad := 20;
     batchSize := 2000;
     callback := None;
     cbIter := 25;
     trainPriors := true;
     trainWeights := true;
     trainFeatures := true;
     trainPredictors := true;
     trainInputBias := true;
     trainOutputBias := true;
     regularizeFeatures := 0;
     regularizePredictors := 0 |}.

(* ================================================================== *)
(** ** The parameter store ([class MCBM]) *)
(* ================================================================== *)

Record MCBM : Type := mkMCBM {
  mDimIn : nat;
  mNumComponents : nat;
  mNumFeatures : nat;
  mPriors : Matrix;        (* numComponents x 1 *)
  mWeights : Matrix;       (* numComponents x numFeatures *)
  mFeatures : Matrix;      (* dimIn x numFeatures *)
  mPredictors : Matrix;    (* numComponents x dimIn *)
  mInputBias : Matrix;     (* dimIn x numComponents *)
  mOutputBias : Matrix     (* numComponents x 1 *)
}.

(** The random draws a construction consumes: [ArrayXXd::Random] for the
    weights and two calls of [sampleNormal]. *)
Record InitDraws : Type := mkInitDraws {
  drawWeights : nat -> nat -> R;
  drawFeatures : nat -> nat -> R;
  drawPredictors : nat -> nat -> R
}.

(** [MCBM::MCBM(int dimIn, int numComponents, int numFeatures)].
    Eigen refuses a negative dimension, so a negative [dimIn] that passes
    the two checks yields no model. *)
Definition MCBM_new (dimIn numComponents numFeatures : Z) (rnd : InitDraws)
  : outcome MCBM :=
  let mNumFeatures_ := if (numFeatures <? 0)%Z then dimIn else numFeatures in
  if (numComponents <? 1)%Z then
    Throws "The number of components has to be positive."
  else if (mNumFeatures_ <? 1)%Z then
    Throws "The number of features has to be positive."
  else if (dimIn <? 0)%Z then NoResult
  else
    let d := Z.to_nat dimIn in
    let c := Z.to_nat numComponents in
    let f := Z.to_nat mNumFeatures_ in
    Returns
      {| mDimIn := d;
         mNumComponents := c;
         mNumFeatures := f;
         mPriors := Zero c 1;
         mWeights := shift (scale (mabs (tabulate c f (drawWeights rnd))) (/ 100)) (1 / 100);
         mFeatures := scale (tabulate d f (drawFeatures rnd)) (/ 100);
         mPredictors := scale (tabulate c d (drawPredictors rnd)) (/ 100);
         mInputBias := Zero d c;
         mOutputBias := Zero c 1 |}.

(** [dimOut()] is 1 for this model family. *)
Definition dimOut (m : MCBM) : nat := 1.

(* ================================================================== *)
(** ** Forward engine *)
(* ================================================================== *)

(** The part shared by [sample] and [logLikelihood]: the two marginal
    unnormalized log-probabilities, as row vectors. *)
Definition forward (m : MCBM) (input : Matrix) : Matrix * Matrix :=
  let featureEnergy := mmul (mWeights m) (square (mmul (transpose (mFeatures m)) input)) in
  let biasEnergy := mmul (transpose (mInputBias m)) input in
  let predictorEnergy := mmul (mPredictors m) input in
  let logProb0 := colwise_add (madd featureEnergy biasEnergy) (mPriors m) in
  let logProb1 := colwise_add (madd logProb0 predictorEnergy) (mOutputBias m) in
  let logProb0 := logSumExp logProb0 in
  let logProb1 := logSumExp logProb1 in
  (logProb0, logProb1).

(** [MCBM::sample]; [rnd n] is the [n]-th draw of
    [Array<double, 1, Dynamic>::Random(input.cols())]. *)
Definition sample (m : MCBM) (input_ : MatrixXi) (rnd : nat -> R) : MatrixXi :=
  let input := cast_double input_ in
  let '(logProb0, logProb1) := forward m input in
  let logProb01 := stack2 (cols input) logProb0 logProb1 in
  let logProb1 := msub logProb1 (logSumExp logProb01) in
  lt_cast_int (mabs (tabulate 1 (cols input) (fun _ n => rnd n))) (mexp logProb1).

(** The normalized log-probabilities of [logLikelihood] just before its
    [return]: [(logProb0, logProb1)] after [-= logNorm]. *)
Definition normalizedLogProbs (m : MCBM) (input : Matrix) : Matrix * Matrix :=
  let '(logProb0, logProb1) := forward m input in
  let logProb01 := stack2 (cols input) logProb0 logProb1 in
  let logNorm := logSumExp logProb01 in
  let logProb1 := msub logProb1 logNorm in
  let logProb0 := msub logProb0 logNorm in
  (logProb0, logProb1).

(** [MCBM::logLikelihood] *)
Definition logLikelihood (m : MCBM) (input_ output_ : MatrixXi) : Matrix :=
  let input := cast_double input_ in
  let output := cast_double output_ in
  let '(logProb0, logProb1) := normalizedLogProbs m input in
  madd (cmul output logProb1) (cmul (one_minus output) logProb0).

(** [MCBM::evaluate] *)
Definition evaluate (m : MCBM) (input output : MatrixXi) : R :=
  - mean (logLikelihood m input output) / ln 2 / INR (dimOut m).

(** [MCBM::train]: the body is [return false;]. *)
Definition train (m : MCBM) (input output : MatrixXi) (params : Parameters)
  : bool * MCBM :=
  (false, m).

(* ================================================================== *)
(** ** Vectorization layer *)
(* ================================================================== *)

(** Modelled from the spec: [numParameters] of mcbm.h, which is not among
    the sources: the sum of the sizes of all groups whose flag is set. *)
Definition numParameters (m : MCBM) (params : Parameters) : nat :=
  ((if trainPriors params then size (mPriors m) else 0) +
   (if trainWeights params then size (mWeights m) else 0) +
   (if trainFeatures params then size (mFeatures m) else 0) +
   (if trainPredictors params then size (mPredictors m) else 0) +
   (if trainInputBias params then size (mInputBias m) else 0) +
   (if trainOutputBias params then size (mOutputBias m) else 0))%nat.

Definition lbfgs_malloc (n : nat) : buffer := repeat 0 n.

(** [for (int i = 0; i < M.size(); ++i, ++k) x[k] = M.data()[i];] *)
Definition copy_group (M : Matrix) (xk : buffer * nat) : buffer * nat :=
  fold_left (fun (s : buffer * nat) (i : nat) =>
               (store (fst s) (snd s) (nth i (data M) 0), S (snd s)))
            (seq 0 (size M)) xk.

(** [MCBM::parameters] *)
Definition parameters (m : MCBM) (params : Parameters) : buffer :=
  let x := lbfgs_malloc (numParameters m params) in
  let xk := (x, O) in
  let xk := if trainPriors params then copy_group (mPriors m) xk else xk in
  let xk := if trainWeights params then copy_group (mWeights m) xk else xk in
  let xk := if trainFeatures params then copy_group (mFeatures m) xk else xk in
  let xk := if trainPredictors params then copy_group (mPredictors m) xk else xk in
  let xk := if trainInputBias params then copy_group (mInputBias m) xk else xk in
  let xk := if trainOutputBias params then copy_group (mOutputBias m) xk else xk in
  fst xk.

Definition set_mPriors (m : MCBM) (M : Matrix) : MCBM :=
  mkMCBM (mDimIn m) (mNumComponents m) (mNumFeatures m)
         M (mWeights m) (mFeatures m) (mPredictors m) (mInputBias m) (mOutputBias m).
Definition set_mWeights (m : MCBM) (M : Matrix) : MCBM :=
  mkMCBM (mDimIn m) (mNumComponents m) (mNumFeatures m)
         (mPriors m) M (mFeatures m) (mPredictors m) (mInputBias m) (mOutputBias m).
Definition set_mFeatures (m : MCBM) (M : Matrix) : MCBM :=
  mkMCBM (mDimIn m) (mNumComponents m) (mNumFeatures m)
         (mPriors m) (mWeights m) M (mPredictors m) (mInputBias m) (mOutputBias m).
Definition set_mPredictors (m : MCBM) (M : Matrix) : MCBM :=
  mkMCBM (mDimIn m) (mNumComponents m) (mNumFeatures m)
         (mPriors m) (mWeights m) (mFeatures m) M (mInputBias m) (mOutputBias m).
Definition set_mInputBias (m : MCBM) (M : Matrix) : MCBM :=
  mkMCBM (mDimIn m) (mNumComponents m) (mNumFeatures m)
         (mPriors m) (mWeights m) (mFeatures m) (mPredictors m) M (mOutputBias m).
Definition set_mOutputBias (m : MCBM) (M : Matrix) : MCBM :=
  mkMCBM (mDimIn m) (mNumComponents m) (mNumFeatures m)
         (mPriors m) (mWeights m) (mFeatures m) (mPredictors m) (mInputBias m) M.

(** [MCBM::setParameters]; the state is the model and [offset]. *)
Definition setParameters (m : MCBM) (x : buffer) (params : Parameters) : MCBM :=
  let s := (m, O) in
  let s :=
    if trainPriors params then
      let m := set_mPriors (fst s) (MapMat x 0 (mNumComponents (fst s)) 1) in
      (m, (snd s + size (mPriors m))%nat)
    else s in
  let s :=
    if trainWeights params then
      let m := set_mWeights (fst s)
                 (MapMat x (snd s) (mNumComponents (fst s)) (mNumFeatures (fst s))) in
      (m, (snd s + size (mWeights m))%nat)
    else s in
  let s :=
    if trainFeatures params then
      let m := set_mFeatures (fst s)
                 (MapMat x (snd s) (mDimIn (fst s)) (mNumFeatures (fst s))) in
      (m, (snd s + size (mFeatures m))%nat)
    else s in
  let s :=
    if trainPredictors params then
      let m := set_mPredictors (fst s)
                 (MapMat x (snd s) (mNumComponents (fst s)) (mDimIn (fst s))) in
      (m, (snd s + size (mPredictors m))%nat)
    else s in
  let s :=
    if trainInputBias params then
      let m := set_mInputBias (fst s)
                 (MapMat x (snd s) (mDimIn (fst s)) (mNumComponents (fst s))) in
      (m, (snd s + size (mInputBias m))%nat)
    else s in
  let s :=
    if trainOutputBias params then
      let m := set_mOutputBias (fst s) (MapMat x (snd s) (mNumComponents (fst s)) 1) in
      (m, (snd s + size (mOutputBias m))%nat)
    else s in
  fst s.

(* ================================================================== *)
(** ** Gradient engine *)
(* ================================================================== *)

(** The local [Map] views of [computeGradient]: each group reads from the
    flat vector when its flag is set and from the store otherwise; the
    gradient views start at the offsets recorded next to them. *)
Record Views : Type := mkViews {
  priors : Matrix;      priorsGrad : nat;
  weights : Matrix;     weightsGrad : nat;
  features : Matrix;    featuresGrad : nat;
  predictors : Matrix;  predictorsGrad : nat;
  inputBias : Matrix;   inputBiasGrad : nat;
  outputBias : Matrix;  outputBiasGrad : nat;
  offset : nat          (* the final value of [offset] *)
}.

(** Lines 283-315 of [computeGradient]. *)
Definition bindViews (m : MCBM) (x : buffer) (params : Parameters) : Views :=
  let y := x in
  let offset0 := O in
  let priors_ := if trainPriors params then MapMat y 0 (mNumComponents m) 1
                 else MapMat (data (mPriors m)) 0 (mNumComponents m) 1 in
  let offset1 := if trainPriors params then (offset0 + size priors_)%nat else offset0 in
  let weights_ := if trainWeights params
                  then MapMat y offset1 (mNumComponents m) (mNumFeatures m)
                  else MapMat (data (mWeights m)) 0 (mNumComponents m) (mNumFeatures m) in
  let offset2 := if trainWeights params then (offset1 + size weights_)%nat else offset1 in
  let features_ := if trainFeatures params
                   then MapMat y offset2 (mDimIn m) (mNumFeatures m)
                   else MapMat (data (mFeatures m)) 0 (mDimIn m) (mNumFeatures m) in
  let offset3 := if trainFeatures params then (offset2 + size features_)%nat else offset2 in
  let predictors_ := if trainPredictors params
                     then MapMat y offset3 (mNumComponents m) (mDimIn m)
                     else MapMat (data (mPredictors m)) 0 (mNumComponents m) (mDimIn m) in
  let offset4 := if trainPredictors params then (offset3 + size predictors_)%nat else offset3 in
  let inputBias_ := if trainInputBias params
                    then MapMat y offset4 (mDimIn m) (mNumComponents m)
                    else MapMat (data (mInputBias m)) 0 (mDimIn m) (mNumComponents m) in
  let offset5 := if trainInputBias params then (offset4 + size inputBias_)%nat else offset4 in
  let outputBias_ := if trainOutputBias params
                     then MapMat y offset5 (mNumComponents m) 1
                     else MapMat (data (mOutputBias m)) 0 (mNumComponents m) 1 in
  let offset6 := if trainOutputBias params then (offset5 + size outputBias_)%nat else offset5 in
  {| priors := priors_;          priorsGrad := offset0;
     weights := weights_;        weightsGrad := offset1;
     features := features_;      featuresGrad := offset2;
     predictors := predictors_;  predictorsGrad := offset3;
     inputBias := inputBias_;    inputBiasGrad := offset4;
     outputBias := outputBias_;  outputBiasGrad := offset5;
     offset := offset6 |}.

(** [G.setZero()] for the gradient view of shape [r x c] at [off]. *)
Definition setZero (g : buffer) (off r c : nat) : buffer :=
  MapStore g off (Zero r c).

(** [G += E] for the gradient view of shape [r x c] at [off]. *)
Definition addTo (g : buffer) (off r c : nat) (E : Matrix) : buffer :=
  MapStore g off (madd (MapMat g off r c) E).

(** Lines 317-331: [if (g) { ... setZero() ... }]. *)
Definition initGradients (m : MCBM) (V : Views) (params : Parameters)
           (g : option buffer) : option buffer :=
  match g with
  | None => None
  | Some g =>
    let g := if trainPriors params
             then setZero g (priorsGrad V) (mNumComponents m) 1 else g in
    let g := if trainWeights params
             then setZero g (weightsGrad V) (mNumComponents m) (mNumFeatures m) else g in
    let g := if trainFeatures params
             then setZero g (featuresGrad V) (mDimIn m) (mNumFeatures m) else g in
    let g := if trainPredictors params
             then setZero g (predictorsGrad V) (mNumComponents m) (mDimIn m) else g in
    let g := if trainInputBias params
             then setZero g (inputBiasGrad V) (mDimIn m) (mNumComponents m) else g in
    let g := if trainOutputBias params
             then setZero g (outputBiasGrad V) (mNumComponents m) 1 else g in
    Some g
  end.

(** The body of the batch loop (lines 338-399) for the slice of [w]
    columns starting at column [b]; the state is [(logLik, g)]. *)
Definition batchBody (m : MCBM) (V : Views) (params : Parameters)
           (inputCompl outputCompl : Matrix) (b w : nat)
           (st : R * option buffer) : R * option buffer :=
  let input := middleCols inputCompl b w in
  let output := middleCols outputCompl b w in
  let featureOutput := mmul (transpose (features V)) input in
  let featureOutputSq := square featureOutput in
  let weightsOutput := mmul (weights V) featureOutputSq in
  let predictorOutput := mmul (predictors V) input in
  let logPost0 :=
    colwise_add (madd weightsOutput (mmul (transpose (inputBias V)) input)) (priors V) in
  let logPost1 := colwise_add (madd logPost0 predictorOutput) (outputBias V) in
  let logProb0 := logSumExp logPost0 in
  let logProb1 := logSumExp logPost1 in
  let logPost0 := rowwise_sub logPost0 logProb0 in
  let logPost1 := rowwise_sub logPost1 logProb1 in
  let logProb01 := stack2 (cols input) logProb0 logProb1 in
  let logNorm := logSumExp logProb01 in
  let logProb1 := msub logProb1 logNorm in
  let logProb0 := msub logProb0 logNorm in
  let logLik :=
    fst st + msum (madd (cmul output logProb1) (cmul (one_minus output) logProb0)) in
  match snd st with
  | None => (logLik, None)
  | Some g =>
    let tmp := msub (cmul output (mexp logProb0))
                    (cmul (one_minus output) (mexp logProb1)) in
    let post0Tmp := rowwise_mul (mexp logPost0) tmp in
    let post1Tmp := rowwise_mul (mexp logPost1) tmp in
    let postDiffTmp := msub post1Tmp post0Tmp in
    let g :=
      if trainPriors params then
        addTo g (priorsGrad V) (mNumComponents m) 1 (rowwise_sum postDiffTmp)
      else g in
    let g :=
      if trainWeights params then
        addTo g (weightsGrad V) (mNumComponents m) (mNumFeatures m)
              (mmul postDiffTmp (transpose featureOutputSq))
      else g in
    let g :=
      if trainFeatures params then
        let tmp2 := scale (mmul (transpose (weights V)) postDiffTmp) 2 in
        let tmp3 := cmul featureOutput tmp2 in
        addTo g (featuresGrad V) (mDimIn m) (mNumFeatures m)
              (mmul input (transpose tmp3))
      else g in
    let g :=
      if trainPredictors params then
        addTo g (predictorsGrad V) (mNumComponents m) (mDimIn m)
              (mmul post1Tmp (transpose input))
      else g in
    let g :=
      if trainInputBias params then
        addTo g (inputBiasGrad V) (mDimIn m) (mNumComponents m)
              (mmul input (transpose postDiffTmp))
      else g in
    let g :=
      if trainOutputBias params then
        addTo g (outputBiasGrad V) (mNumComponents m) 1 (rowwise_sum post1Tmp)
      else g in
    (logLik, Some g)
  end.

(** [for (int b = 0; b < numData; b += batchSize) body(b, min(batchSize, numData - b))].
    [fuel] bounds the number of iterations; [computeGradient] supplies
    [numData], which is never exhausted when [batchSize] is positive. *)
Fixpoint batchLoop {St : Type} (body : nat -> nat -> St -> St)
         (numData batchSize_ : nat) (fuel b : nat) (st : St) : outcome St :=
  if (numData <=? b)%nat then Returns st
  else match fuel with
       | O => NoResult
       | S fuel' =>
         batchLoop body numData batchSize_ fuel' (b + batchSize_)%nat
                   (body b (Nat.min batchSize_ (numData - b)) st)
       end.

(** [normConst = inputCompl.cols() / log(2.)] *)
Definition normConst (inputCompl : Matrix) : R := INR (cols inputCompl) / ln 2.

(** [MCBM::computeGradient]; [g = None] is the null pointer.  A
    non-positive [batchSize] with a non-empty data set never completes
    (the loop counter does not advance, or a slice of negative width is
    requested): the outcome is [NoResult].  The final division is the
    division of the reals, which agrees with the code whenever the data
    set has at least one column; without columns the code divides zero by
    zero, which gives not-a-number and has no counterpart in the reals. *)
Definition computeGradient (m : MCBM) (inputCompl outputCompl : Matrix)
           (x : buffer) (g : option buffer) (params : Parameters)
  : outcome (R * option buffer) :=
  let logLik := 0 in
  let V := bindViews m x params in
  let g := initGradients m V params g in
  let numData := cols inputCompl in
  let batchSize_ := Z.to_nat (Z.min (batchSize params) (Z.of_nat numData)) in
  st <- batchLoop (batchBody m V params inputCompl outputCompl)
                  numData batchSize_ numData 0 (logLik, g) ;;
  let normConst_ := normConst inputCompl in
  let g := option_map (div_prefix (offset V) normConst_) (snd st) in
  Returns (fst st / normConst_, g).

(* ================================================================== *)
(** ** Optimization driver and gradient checker *)
(* ================================================================== *)

Record ParamsLBFGS : Type := mkParamsLBFGS {
  mcbm : MCBM;
  params_ : Parameters;
  input_ : Matrix;
  output_ : Matrix
}.

(** [evaluateLBFGS] *)
Definition evaluateLBFGS (instance : ParamsLBFGS) (x : buffer) (g : option buffer)
  : outcome (R * option buffer) :=
  computeGradient (mcbm instance) (input_ instance) (output_ instance)
                  x g (params_ instance).

(** The central-difference loop of [checkGradient] (lines 443-450) over
    the coordinates [idxs]; the state is the pair of arrays [(y, n)].  The
    quotient agrees with the code for a step [epsilon] other than zero; at
    zero the code divides zero by zero, which gives not-a-number. *)
Fixpoint fdLoop (instance : ParamsLBFGS) (x : buffer) (epsilon : R)
         (idxs : list nat) (st : buffer * buffer) : outcome (buffer * buffer) :=
  match idxs with
  | [] => Returns st
  | i :: rest =>
    let y := fst st in
    let n := snd st in
    let y := store y i (nth i x 0 + epsilon) in
    r1 <- evaluateLBFGS instance y None ;;
    let val1 := fst r1 in
    let y := store y i (nth i x 0 - epsilon) in
    r2 <- evaluateLBFGS instance y None ;;
    let val2 := fst r2 in
    let y := store y i (nth i x 0) in
    let n := store n i ((val1 - val2) / (2 * epsilon)) in
    fdLoop instance x epsilon rest (y, n)
  end.

(** [err += (g[i] - n[i]) * (g[i] - n[i])] for [i < numParams]. *)
Definition squaredError (numParams : nat) (g n : buffer) : R :=
  fold_left (fun err i => err + (nth i g 0 - nth i n 0) * (nth i g 0 - nth i n 0))
            (seq 0 numParams) 0.

(** [MCBM::checkGradient].  The arrays [y], [g] and [n] are declared
    without initializer; [y0], [g0] and [n0] are their indeterminate
    initial contents, of length [numParams] each. *)
Definition checkGradient (m : MCBM) (input output : Matrix) (epsilon : R)
           (params : Parameters) (y0 g0 n0 : buffer) : outcome R :=
  if negb (rows input =? mDimIn m)%nat || negb (rows output =? 1)%nat then
    Throws "Data has wrong dimensionality."
  else if negb (cols input =? cols output)%nat then
    Throws "The number of inputs and outputs should be the same."
  else
    let x := parameters m params in
    let numParams := numParameters m params in
    let y := fold_left (fun y i => store y i (nth i x 0)) (seq 0 numParams) y0 in
    let instance := mkParamsLBFGS m params input output in
    st <- fdLoop instance x epsilon (seq 0 numParams) (y, n0) ;;
    let n := snd st in
    r <- evaluateLBFGS instance x (Some g0) ;;
    let g := match snd r with Some g => g | None => g0 end in
    let err := squaredError numParams g n in
    Returns (sqrt err).

(* ================================================================== *)
(** ** Shapes *)
(* ================================================================== *)

(** [M] has [r] rows, [c] columns and storage for exactly [r * c] cells. *)
Definition shape (M : Matrix) (r c : nat) : Prop :=
  rows M = r /\ cols M = c /\ length (data M) = (r * c)%nat.

(** The shape invariant of the parameter store. *)
Definition wfMCBM (m : MCBM) : Prop :=
  shape (mPriors m) (mNumComponents m) 1 /\
  shape (mWeights m) (mNumComponents m) (mNumFeatures m) /\
  shape (mFeatures m) (mDimIn m) (mNumFeatures m) /\
  shape (mPredictors m) (mNumComponents m) (mDimIn m) /\
  shape (mInputBias m) (mDimIn m) (mNumComponents m) /\
  shape (mOutputBias m) (mNumComponents m) 1.

(** Two stores of identical shapes. *)
Definition sameDims (m1 m2 : MCBM) : Prop :=
  mDimIn m1 = mDimIn m2 /\
  mNumComponents m1 = mNumComponents m2 /\
  mNumFeatures m1 = mNumFeatures m2.

(** The value a call returned, for calls that return. *)
Definition returned (o : outcome (R * option buffer)) : R :=
  match o with
  | Returns r => fst r
  | _ => 0
  end.

(* ================================================================== *)
(** ** The model in the words of the specification *)
(* ================================================================== *)

(** The six groups as plain coefficient families. *)
Record Theta : Type := mkTheta {
  thPriors : nat -> R;
  thWeights : nat -> nat -> R;
  thFeatures : nat -> nat -> R;
  thPredictors : nat -> nat -> R;
  thInputBias : nat -> nat -> R;
  thOutputBias : nat -> R
}.

(** The coefficient families six matrices denote. *)
Definition theta_mats (P W Fe Pr IB OB : Matrix) : Theta :=
  {| thPriors := fun c => coeff P c 0;
     thWeights := fun c f => coeff W c f;
     thFeatures := fun d f => coeff Fe d f;
     thPredictors := fun c d => coeff Pr c d;
     thInputBias := fun d c => coeff IB d c;
     thOutputBias := fun c => coeff OB c 0 |}.

(** The coefficient families the views of [computeGradient] denote. *)
Definition theta_of (V : Views) : Theta :=
  theta_mats (priors V) (weights V) (features V)
             (predictors V) (inputBias V) (outputBias V).

(** The coefficient families of the store itself. *)
Definition theta_store (m : MCBM) : Theta :=
  theta_mats (mPriors m) (mWeights m) (mFeatures m)
             (mPredictors m) (mInputBias m) (mOutputBias m).

Module Spec.
Section Column.
(** Sizes, parameters, one input column [u] and its output bit [y]. *)
Variables (C D F : nat) (th : Theta) (u : nat -> R) (y : R).

(** Section 4.3, steps 1-4. *)
Definition featureOutput (f : nat) : R :=
  rsum D (fun d => thFeatures th d f * u d).
Definition featureEnergy (c : nat) : R :=
  rsum F (fun f => thWeights th c f * (featureOutput f * featureOutput f)).
Definition biasEnergy (c : nat) : R :=
  rsum D (fun d => thInputBias th d c * u d).
Definition predictorEnergy (c : nat) : R :=
  rsum D (fun d => thPredictors th c d * u d).
Definition logScore0 (c : nat) : R :=
  featureEnergy c + biasEnergy c + thPriors th c.
Definition logScore1 (c : nat) : R :=
  logScore0 c + predictorEnergy c + thOutputBias th c.

(** Steps 5-7: plain log-sum-exp, the normalizer, the log-likelihood. *)
Definition lse (n : nat) (s : nat -> R) : R :=
  ln (rsum n (fun i => exp (s i))).
Definition logProb0 : R := lse C logScore0.
Definition logProb1 : R := lse C logScore1.
Definition logNorm : R := ln (exp logProb0 + exp logProb1).
Definition condLogLik : R :=
  y * (logProb1 - logNorm) + (1 - y) * (logProb0 - logNorm).

(** Section 4.4, step 3. *)
Definition tmp : R :=
  y * exp (logProb0 - logNorm) - (1 - y) * exp (logProb1 - logNorm).
Definition post0Tmp (c : nat) : R := exp (logScore0 c - logProb0) * tmp.
Definition post1Tmp (c : nat) : R := exp (logScore1 c - logProb1) * tmp.
Definition postDiff (c : nat) : R := post1Tmp c - post0Tmp c.

(** The per-column gradient entries of step 3, group by group. *)
Definition gradPriors (c : nat) : R := postDiff c.
Definition gradWeights (c f : nat) : R :=
  postDiff c * (featureOutput f * featureOutput f).
Definition gradFeatures (d f : nat) : R :=
  u d * (featureOutput f * (rsum C (fun c => thWeights th c f * postDiff c) * 2)).
Definition gradPredictors (c d : nat) : R := post1Tmp c * u d.
Definition gradInputBias (d c : nat) : R := u d * postDiff c.
Definition gradOutputBias (c : nat) : R := post1Tmp c.
End Column.

Section Directional.
(** The derivative of the quantities above along a direction [dth] in
    parameter space, by the chain rule. *)
Variables (C D F : nat) (th dth : Theta) (u : nat -> R) (y : R).

Definition dfeatureOutput (f : nat) : R :=
  rsum D (fun d => thFeatures dth d f * u d).
Definition dlogScore0 (c : nat) : R :=
  rsum F (fun f =>
            thWeights dth c f * (featureOutput D th u f * featureOutput D th u f)
            + thWeights th c f * (2 * featureOutput D th u f * dfeatureOutput f))
  + rsum D (fun d => thInputBias dth d c * u d)
  + thPriors dth c.
Definition dlogScore1 (c : nat) : R :=
  dlogScore0 c + rsum D (fun d => thPredictors dth c d * u d) + thOutputBias dth c.
Definition dcondLogLik : R :=
  rsum C (fun c => post1Tmp C D F th u y c * dlogScore1 c)
  - rsum C (fun c => post0Tmp C D F th u y c * dlogScore0 c).
End Directional.

(** The sum over the [N] columns of a data set, divided by [N / ln 2]. *)
Definition objective (C D F : nat) (th : Theta) (input output : Matrix) : R :=
rsum (cols input)
     (fun n => condLogLik C D F th (fun d => coeff input d n) (coeff output 0 n))
/ (INR (cols input) / ln 2).
End Spec.

(** The flat index of cell [(i, j)] of a column-major [r]-row view at [off]. *)
Definition flat (off r i j : nat) : nat := (off + (i + j * r))%nat.

(** [k] falls in the view of shape [r x c] at [off]. *)
Definition inSpan (off r c k : nat) : bool :=
  (off <=? k)%nat && (k <? off + r * c)%nat.

(** The contribution of column [n] to cell [k] of the gradient buffer:
    each flagged group adds its entry of step 3 at its place in the flat
    layout, unflagged groups add nothing. *)
Definition gradColumn (m : MCBM) (V : Views) (params : Parameters)
           (input output : Matrix) (n k : nat) : R :=
  let C := mNumComponents m in
  let D := mDimIn m in
  let F := mNumFeatures m in
  let th := theta_of V in
  let u := fun d => coeff input d n in
  let y := coeff output 0 n in
  (if trainPriors params && inSpan (priorsGrad V) C 1 k
   then Spec.gradPriors C D F th u y (k - priorsGrad V) else 0) +
  (if trainWeights params && inSpan (weightsGrad V) C F k
   then Spec.gradWeights C D F th u y
          ((k - weightsGrad V) mod C) ((k - weightsGrad V) / C) else 0) +
  (if trainFeatures params && inSpan (featuresGrad V) D F k
   then Spec.gradFeatures C D F th u y
          ((k - featuresGrad V) mod D) ((k - featuresGrad V) / D) else 0) +
  (if trainPredictors params && inSpan (predictorsGrad V) C D k
   then Spec.gradPredictors C D F th u y
          ((k - predictorsGrad V) mod C) ((k - predictorsGrad V) / C) else 0) +
  (if trainInputBias params && inSpan (inputBiasGrad V) D C k
   then Spec.gradInputBias C D F th u y
          ((k - inputBiasGrad V) mod D) ((k - inputBiasGrad V) / D) else 0) +
  (if trainOutputBias params && inSpan (outputBiasGrad V) C 1 k
   then Spec.gradOutputBias C D F th u y (k - outputBiasGrad V) else 0).

(** The data of a group when its flag is set, nothing otherwise. *)
Definition flagged (b : bool) (M : Matrix) : list R :=
  if b then data M else [].

(** The flat layout of section 3: the flagged groups, in the fixed order. *)
Definition flatLayout (m : MCBM) (params : Parameters) : list R :=
  flagged (trainPriors params) (mPriors m) ++
  flagged (trainWeights params) (mWeights m) ++
  flagged (trainFeatures params) (mFeatures m) ++
  flagged (trainPredictors params) (mPredictors m) ++
  flagged (trainInputBias params) (mInputBias m) ++
  flagged (trainOutputBias params) (mOutputBias m).

(** The coordinate vector [x + h * e_i]. *)
Definition perturb (x : buffer) (i : nat) (h : R) : buffer :=
  store x i (nth i x 0 + h).

(** The indicator of cell [k] of the flat layout, as a coefficient of the
    view of shape [r x c] at [off] when the group is flagged. *)
Definition cellIndicator (flag : bool) (off r i j k : nat) : R :=
  if flag && (flat off r i j =? k)%nat then 1 else 0.

(** The direction in parameter space in which only cell [k] of the flat
    parameter vector moves, at unit speed. *)
Definition unitDirection (m : MCBM) (V : Views) (params : Parameters) (k : nat)
  : Theta :=
  let C := mNumComponents m in
  let D := mDimIn m in
  {| thPriors := fun c => cellIndicator (trainPriors params) (priorsGrad V) C c 0 k;
     thWeights := fun c f => cellIndicator (trainWeights params) (weightsGrad V) C c f k;
     thFeatures := fun d f => cellIndicator (trainFeatures params) (featuresGrad V) D d f k;
     thPredictors :=
       fun c d => cellIndicator (trainPredictors params) (predictorsGrad V) C c d k;
     thInputBias :=
       fun d c => cellIndicator (trainInputBias params) (inputBiasGrad V) D d c k;
     thOutputBias :=
       fun c => cellIndicator (trainOutputBias params) (outputBiasGrad V) C c 0 k |}.

(** The effective number of features of a construction. *)
Definition effectiveNumFeatures (dimIn numFeatures : Z) : Z :=
  if (numFeatures <? 0)%Z then dimIn else numFeatures.

(** The configuration [params] with another batch size. *)
Definition withBatchSize (params : Parameters) (b : Z) : Parameters :=
  {| verbosity := verbosity params;
     maxIter := maxIter params;
     threshold := threshold params;
     numGrad := numGrad params;
     batchSize := b;
     callback := callback params;
     cbIter := cbIter params;
     trainPriors := trainPriors params;
     trainWeights := trainWeights params;
     trainFeatures := trainFeatures params;
     trainPredictors := trainPredictors params;
     trainInputBias := trainInputBias params;
     trainOutputBias := trainOutputBias params;
     regularizeFeatures := regularizeFeatures params;
     regularizePredictors := regularizePredictors params |}.

(* ================================================================== *)
(** ** Concrete stores and data used to exercise the statements *)
(* ================================================================== *)

(** Two stores with [dimIn = 2], [numComponents = 2], [numFeatures = 1]. *)
Definition storeA : MCBM :=
  {| mDimIn := 2; mNumComponents := 2; mNumFeatures := 1;
     mPriors := mkMat 2 1 [1; 2];
     mWeights := mkMat 2 1 [3; 4];
     mFeatures := mkMat 2 1 [5; 6];
     mPredictors := mkMat 2 2 [7; 8; 9; 10];
     mInputBias := mkMat 2 2 [11; 12; 13; 14];
     mOutputBias := mkMat 2 1 [15; 16] |}.

Definition storeB : MCBM :=
  {| mDimIn := 2; mNumComponents := 2; mNumFeatures := 1;
     mPriors := mkMat 2 1 [0; 0];
     mWeights := mkMat 2 1 [1; 1];
     mFeatures := mkMat 2 1 [0; 0];
     mPredictors := mkMat 2 2 [0; 0; 0; 0];
     mInputBias := mkMat 2 2 [0; 0; 0; 0];
     mOutputBias := mkMat 2 1 [0; 0] |}.

(** Only the weights and the output bias are trained. *)
Definition paramsWO : Parameters :=
  {| verbosity := 0; maxIter := 1000; threshold := 1 / 100000; numGrad := 20;
     batchSize := 2000; callback := None; cbIter := 25;
     trainPriors := false; trainWeights := true; trainFeatures := false;
     trainPredictors := false; trainInputBias := false; trainOutputBias := true;
     regularizeFeatures := 0; regularizePredictors := 0 |}.

(** Draws that are all zero. *)
Definition zeroDraws : InitDraws :=
  {| drawWeights := fun _ _ => 0;
     drawFeatures := fun _ _ => 0;
     drawPredictors := fun _ _ => 0 |}.

(** A data set of three columns for [storeA], and an empty one. *)
Definition inputA : Matrix := mkMat 2 3 [1; 0; 0; 1; 1; 1].
Definition outputA : Matrix := mkMat 1 3 [1; 0; 1].
Definition inputEmpty : Matrix := mkMat 2 0 [].
Definition outputEmpty : Matrix := mkMat 1 0 [].

(** The smallest store, with every parameter zero, one input column that
    is zero with output bit 1, and a configuration that trains the output
    bias only. *)
Definition storeTiny : MCBM :=
  {| mDimIn := 1; mNumComponents := 1; mNumFeatures := 1;
     mPriors := mkMat 1 1 [0];
     mWeights := mkMat 1 1 [0];
     mFeatures := mkMat 1 1 [0];
     mPredictors := mkMat 1 1 [0];
     mInputBias := mkMat 1 1 [0];
     mOutputBias := mkMat 1 1 [0] |}.

Definition inputTiny : Matrix := mkMat 1 1 [0].
Definition outputTiny : Matrix := mkMat 1 1 [1].

Definition paramsOB : Parameters :=
  {| verbosity := 0; maxIter := 1000; threshold := 1 / 100000; numGrad := 20;
     batchSize := 2000; callback := None; cbIter := 25;
     trainPriors := false; trainWeights := false; trainFeatures := false;
     trainPredictors := false; trainInputBias := false; trainOutputBias := true;
     regularizeFeatures := 0; regularizePredictors := 0 |}.

(* ================================================================== *)
(** ** Further notions used by the statements *)
(* ================================================================== *)

(** A row of [n] output bits that are all 1. *)
Definition onesI (n : nat) : MatrixXi := mkMatI 1 n (repeat 1%Z n).

(** A store with one component in which no parameter is zero, and two
    input columns for it. *)
Definition storeOne : MCBM :=
  {| mDimIn := 2; mNumComponents := 1; mNumFeatures := 1;
     mPriors := mkMat 1 1 [3];
     mWeights := mkMat 1 1 [1 / 2];
     mFeatures := mkMat 2 1 [1; 2];
     mPredictors := mkMat 1 2 [2; -1];
     mInputBias := mkMat 2 1 [1; 1];
     mOutputBias := mkMat 1 1 [1] |}.

Definition inputOne : Matrix := mkMat 2 2 [1; 0; 1; 1].

(** Every entry of the first row is 0 or 1. *)
Definition binaryRow (M : MatrixXi) : Prop :=
  forall n, (n < icols M)%nat -> icoeff M 0 n = 0%Z \/ icoeff M 0 n = 1%Z.

(** The store with the constant [a] added to every prior. *)
Definition shiftPriors (m : MCBM) (a : R) : MCBM :=
  set_mPriors m (shift (mPriors m) a).

(** The draws of [ArrayXXd::Random] lie between -1 and 1. *)
Definition unitDraws (rnd : InitDraws) : Prop :=
  forall i j, Rabs (drawWeights rnd i j) <= 1.

(* ================================================================== *)
(** ** The mixture base class (cmt/include/mixture.h), inline members *)
(* ================================================================== *)

Module Mixture.

(** A component is held by pointer; [Component] is the address. *)
Definition Component : Type := nat.

Record Mixture : Type := mkMixture {
  mDim : Z;
  mPriors : Matrix;
  mComponents : list Component;
  mInitialized : bool
}.

(** [Mixture::dim] *)
Definition dim (m : Mixture) : Z := mDim m.

(** [Mixture::initialized] *)
Definition initialized (m : Mixture) : bool := mInitialized m.

(** [Mixture::setInitialized] *)
Definition setInitialized (m : Mixture) (initialized_ : bool) : Mixture :=
  mkMixture (mDim m) (mPriors m) (mComponents m) initialized_.

(** [Mixture::numComponents] *)
Definition numComponents (m : Mixture) : Z := Z.of_nat (length (mComponents m)).

(** [Mixture::priors] *)
Definition priors (m : Mixture) : Matrix := mPriors m.

(** [Mixture::setPriors] *)
Definition setPriors (m : Mixture) (priors_ : Matrix) : Mixture :=
  mkMixture (mDim m) priors_ (mComponents m) (mInitialized m).

(** [Mixture::operator[]], in its two versions, which have one body. *)
Definition index (m : Mixture) (i : Z) : outcome Component :=
  if (i <? 0)%Z || (i >=? Z.of_nat (length (mComponents m)))%Z then
    Throws "Invalid component index."
  else Returns (nth (Z.to_nat i) (mComponents m) O).

End Mixture.

(* ================================================================== *)
(** ** Ownership of the progress callback ([MCBM::Parameters]) *)
(* ================================================================== *)

(** The callback objects on the heap: the handles that are allocated, and
    the next handle [new] gives out. *)
Record Heap : Type := mkHeap {
  live : list nat;
  next : nat
}.

(** Every allocated handle was given out before. *)
Definition wfHeap (h : Heap) : Prop := forall a, In a (live h) -> (a < next h)%nat.

Definition heap_new (h : Heap) : nat * Heap :=
  (next h, mkHeap (next h :: live h) (S (next h))).

Definition heap_delete (h : Heap) (a : nat) : Heap :=
  mkHeap (remove Nat.eq_dec a (live h)) (next h).

(** Modelled from the spec: [Callback::copy], declared outside the
    sources, makes a deep copy: a new object. *)
Definition Callback_copy (cb : nat) (h : Heap) : nat * Heap := heap_new h.

(** The configuration [params] with another callback pointer. *)
Definition withCallback (params : Parameters) (cb : option nat) : Parameters :=
  {| verbosity := verbosity params;
     maxIter := maxIter params;
     threshold := threshold params;
     numGrad := numGrad params;
     batchSize := batchSize params;
     callback := cb;
     cbIter := cbIter params;
     trainPriors := trainPriors params;
     trainWeights := trainWeights params;
     trainFeatures := trainFeatures params;
     trainPredictors := trainPredictors params;
     trainInputBias := trainInputBias params;
     trainOutputBias := trainOutputBias params;
     regularizeFeatures := regularizeFeatures params;
     regularizePredictors := regularizePredictors params |}.

(** [MCBM::Parameters::Parameters(const Parameters& params)] *)
Definition Parameters_copy (params : Parameters) (h : Heap) : Parameters * Heap :=
  let this :=
    {| verbosity := verbosity params;
       maxIter := maxIter params;
       threshold := threshold params;
       numGrad := numGrad params;
       batchSize := batchSize params;
       callback := None;
       cbIter := cbIter params;
       trainPriors := trainPriors params;
       trainWeights := trainWeights params;
       trainFeatures := trainFeatures params;
       trainPredictors := trainPredictors params;
       trainInputBias := trainInputBias params;
       trainOutputBias := trainOutputBias params;
       regularizeFeatures := regularizeFeatures params;
       regularizePredictors := regularizePredictors params |} in
  match callback params with
  | Some cb => let '(cb', h') := Callback_copy cb h in (withCallback this (Some cb'), h')
  | None => (this, h)
  end.

(** [MCBM::Parameters::~Parameters()] *)
Definition Parameters_destroy (this : Parameters) (h : Heap) : Heap :=
  match callback this with
  | Some cb => heap_delete h cb
  | None => h
  end.

(** [MCBM::Parameters::operator=]: every member of [this] is assigned. *)
Definition Parameters_assign (this params : Parameters) (h : Heap)
  : Parameters * Heap :=
  let '(callback_, h') :=
    match callback params with
    | Some cb => let '(cb', h') := Callback_copy cb h in (Some cb', h')
    | None => (None, h)
    end in
  ({| verbosity := verbosity params;
      maxIter := maxIter params;
      threshold := threshold params;
      numGrad := numGrad params;
      batchSize := batchSize params;
      callback := callback_;
      cbIter := cbIter params;
      trainPriors := trainPriors params;
      trainWeights := trainWeights params;
      trainFeatures := trainFeatures params;
      trainPredictors := trainPredictors params;
      trainInputBias := trainInputBias params;
      trainOutputBias := trainOutputBias params;
      regularizeFeatures := regularizeFeatures params;
      regularizePredictors := regularizePredictors params |}, h').


(** Two configurations that train the same groups. *)
Definition sameFlags (p q : Parameters) : Prop :=
  trainPriors p = trainPriors q /\ trainWeights p = trainWeights q /\
  trainFeatures p = trainFeatures q /\ trainPredictors p = trainPredictors q /\
  trainInputBias p = trainInputBias q /\ trainOutputBias p = trainOutputBias q.


(* ================================================================== *)
(** * Properties *)
(* ================================================================== *)

(** ** Sums *)

Lemma rsum_ext n f g :
  (forall k, (k < n)%nat -> f k = g k) -> rsum n f = rsum n g.
Proof.
  induction n as [|n IH]; intros H; simpl; [reflexivity|].
  rewrite IH by (intros; apply H; lia).
  rewrite (H n) by lia. reflexivity.
Qed.

Lemma rsum_plus n f g :
  rsum n (fun k => f k + g k) = rsum n f + rsum n g.
Proof. induction n as [|n IH]; simpl; [lra | rewrite IH; lra]. Qed.

Lemma rsum_minus n f g :
  rsum n (fun k => f k - g k) = rsum n f - rsum n g.
Proof. induction n as [|n IH]; simpl; [lra | rewrite IH; lra]. Qed.

Lemma rsum_scal_l n a f :
  rsum n (fun k => a * f k) = a * rsum n f.
Proof. induction n as [|n IH]; simpl; [lra | rewrite IH; lra]. Qed.

Lemma rsum_scal_r n a f :
  rsum n (fun k => f k * a) = rsum n f * a.
Proof. induction n as [|n IH]; simpl; [lra | rewrite IH; lra]. Qed.

Lemma rsum_zero n : rsum n (fun _ => 0) = 0.
Proof. induction n as [|n IH]; simpl; [lra | rewrite IH; lra]. Qed.

Lemma rsum_app n p f :
  rsum (n + p) f = rsum n f + rsum p (fun k => f (n + k)%nat).
Proof.
  induction p as [|p IH]; simpl.
  - rewrite Nat.add_0_r. lra.
  - rewrite Nat.add_succ_r. simpl. rewrite IH. lra.
Qed.

Lemma rsum_swap n p (f : nat -> nat -> R) :
  rsum n (fun i => rsum p (fun j => f i j)) =
  rsum p (fun j => rsum n (fun i => f i j)).
Proof.
  induction n as [|n IH]; simpl.
  - symmetry. apply rsum_zero.
  - rewrite IH. symmetry. apply rsum_plus.
Qed.

Lemma rsum_pos n f :
  (0 < n)%nat -> (forall k, (k < n)%nat -> 0 < f k) -> 0 < rsum n f.
Proof.
  induction n as [|n IH]; intros Hn H; [lia|].
  simpl. destruct n as [|n].
  - simpl. specialize (H O ltac:(lia)). lra.
  - assert (0 < rsum (S n) f) by (apply IH; [lia | intros; apply H; lia]).
    specialize (H (S n) ltac:(lia)). lra.
Qed.

(** A sum against the indicator of one index picks that index. *)
Lemma rsum_pick n f k :
  rsum n (fun i => if (i =? k)%nat then f i else 0) =
  if (k <? n)%nat then f k else 0.
Proof.
  induction n as [|n IH]; simpl; [reflexivity|].
  rewrite IH.
  destruct (Nat.eqb_spec n k) as [->|Hne].
  - rewrite Nat.ltb_irrefl.
    replace (k <? S k)%nat with true by (symmetry; apply Nat.ltb_lt; lia). lra.
  - destruct (Nat.ltb_spec k n); destruct (Nat.ltb_spec k (S n)); try lia; lra.
Qed.

(** ** Coefficients of the matrix operations *)

Lemma nth_map_seq {A : Type} (g : nat -> A) n k d :
  (k < n)%nat -> nth k (map g (seq 0 n)) d = g k.
Proof.
  intros Hk.
  rewrite (nth_indep _ d (g O)) by (rewrite length_map, length_seq; exact Hk).
  rewrite (map_nth g), seq_nth by exact Hk. reflexivity.
Qed.

Lemma coeff_tabulate r c f i j :
  (i < r)%nat -> (j < c)%nat -> coeff (tabulate r c f) i j = f i j.
Proof.
  intros Hi Hj. unfold coeff, tabulate; simpl.
  rewrite nth_map_seq by nia.
  rewrite Nat.Div0.mod_add, Nat.div_add by lia.
  rewrite Nat.mod_small, Nat.div_small by lia.
  f_equal; lia.
Qed.

Lemma shape_tabulate r c f : shape (tabulate r c f) r c.
Proof.
  unfold shape, tabulate; simpl. repeat split.
  rewrite length_map, length_seq. reflexivity.
Qed.

Lemma nth_firstn_skipn (buf : buffer) off n k :
  (k < n)%nat -> nth k (firstn n (skipn off buf)) 0 = nth (off + k) buf 0.
Proof.
  intros Hk. rewrite <- (nth_skipn off buf).
  generalize (skipn off buf). clear buf off. intros l.
  revert l k Hk. induction n as [|n IH]; intros l k Hk; [lia|].
  destruct l as [|a l]; simpl.
  - destruct k; reflexivity.
  - destruct k as [|k]; [reflexivity|]. apply IH. lia.
Qed.

Lemma coeff_MapMat buf off r c i j :
  (i < r)%nat -> (j < c)%nat ->
  coeff (MapMat buf off r c) i j = nth (flat off r i j) buf 0.
Proof.
  intros Hi Hj. unfold coeff, MapMat, flat; simpl.
  apply nth_firstn_skipn. nia.
Qed.

(** ** Flat buffers *)

Lemma store_nth (y : buffer) i v k :
  nth k (store y i v) 0 = if (k =? i)%nat && (i <? length y)%nat then v else nth k y 0.
Proof.
  unfold store. destruct (Nat.ltb_spec i (length y)) as [Hi|Hi].
  - rewrite andb_true_r. destruct (Nat.eqb_spec k i) as [->|Hne].
    + rewrite app_nth2 by (rewrite length_firstn; lia).
      rewrite length_firstn. replace (i - Nat.min i (length y))%nat with O by lia. reflexivity.
    + destruct (Nat.lt_ge_cases k i).
      * rewrite app_nth1 by (rewrite length_firstn; lia).
        rewrite nth_firstn. destruct (Nat.ltb_spec k i); [reflexivity | lia].
      * rewrite app_nth2 by (rewrite length_firstn; lia).
        rewrite length_firstn. replace (k - Nat.min i (length y))%nat with (S (k - S i)) by lia.
        cbn [nth]. rewrite nth_skipn. f_equal. lia.
  - rewrite andb_false_r. reflexivity.
Qed.

Lemma store_length (y : buffer) i v : length (store y i v) = length y.
Proof.
  unfold store. destruct (Nat.ltb_spec i (length y)) as [Hi|Hi]; [|reflexivity].
  rewrite length_app, length_firstn. cbn [length]. rewrite length_skipn. lia.
Qed.

Lemma span_write_length (g : buffer) off vs :
  (off + length vs <= length g)%nat -> length (span_write g off vs) = length g.
Proof.
  intros H. unfold span_write. rewrite !length_app, length_firstn, length_skipn. lia.
Qed.

Lemma span_write_nth (g : buffer) off vs k :
  (off + length vs <= length g)%nat ->
  nth k (span_write g off vs) 0 =
  if (off <=? k)%nat && (k <? off + length vs)%nat then nth (k - off) vs 0 else nth k g 0.
Proof.
  intros H. unfold span_write.
  destruct (Nat.leb_spec off k) as [H1|H1]; simpl.
  - rewrite app_nth2 by (rewrite length_firstn; lia).
    rewrite length_firstn. replace (Nat.min off (length g)) with off by lia.
    destruct (Nat.ltb_spec k (off + length vs)) as [H2|H2].
    + rewrite app_nth1 by lia. reflexivity.
    + rewrite app_nth2 by lia. rewrite nth_skipn. f_equal. lia.
  - rewrite app_nth1 by (rewrite length_firstn; lia).
    rewrite nth_firstn. destruct (Nat.ltb_spec k off); [reflexivity|lia].
Qed.

Lemma copy_group_fold (d : list R) (x : buffer) k n :
  (n <= length d)%nat -> (k + n <= length x)%nat ->
  fold_left (fun (s : buffer * nat) (i : nat) =>
               (store (fst s) (snd s) (nth i d 0), S (snd s)))
            (seq 0 n) (x, k)
  = (span_write x k (firstn n d), (k + n)%nat).
Proof.
  induction n as [|n IH]; intros Hn Hk.
  - simpl. unfold span_write; simpl. rewrite Nat.add_0_r, firstn_skipn. reflexivity.
  - rewrite seq_S, fold_left_app, IH by lia. cbn [fold_left fst snd Nat.add].
    f_equal; [|lia].
    assert (Hl : forall j, (j <= length d)%nat -> length (firstn j d) = j)
      by (intros; rewrite length_firstn; lia).
    apply (nth_ext _ _ 0 0).
    + rewrite store_length, !span_write_length; rewrite ?Hl; lia.
    + intros j _. rewrite store_nth, !span_write_nth by (rewrite Hl; lia).
      rewrite span_write_length by (rewrite Hl; lia).
      rewrite !Hl by lia. rewrite !nth_firstn.
      destruct (Nat.eqb_spec j (k + n)) as [->|Hne].
      * replace (k + n <? length x)%nat with true by (symmetry; apply Nat.ltb_lt; lia).
        replace (k <=? k + n)%nat with true by (symmetry; apply Nat.leb_le; lia).
        replace (k + n <? k + S n)%nat with true by (symmetry; apply Nat.ltb_lt; lia).
        replace (k + n - k <? S n)%nat with true by (symmetry; apply Nat.ltb_lt; lia).
        simpl. f_equal. lia.
      * simpl. destruct (Nat.leb_spec k j); simpl; [|reflexivity].
        destruct (Nat.ltb_spec j (k + n)); destruct (Nat.ltb_spec j (k + S n)); try lia;
          [|reflexivity].
        destruct (Nat.ltb_spec (j - k) n); destruct (Nat.ltb_spec (j - k) (S n)); try lia.
        reflexivity.
Qed.

Lemma copy_group_span (M : Matrix) (x : buffer) k :
  length (data M) = size M -> (k + size M <= length x)%nat ->
  copy_group M (x, k) = (span_write x k (data M), (k + size M)%nat).
Proof.
  intros HM Hk. unfold copy_group.
  rewrite copy_group_fold by lia.
  rewrite <- HM, firstn_all. reflexivity.
Qed.

Lemma span_write_app (pre vs : list R) r :
  span_write (pre ++ repeat 0 (length vs + r)) (length pre) vs = (pre ++ vs) ++ repeat 0 r.
Proof.
  unfold span_write.
  rewrite firstn_app, firstn_all, Nat.sub_diag, firstn_O, app_nil_r.
  rewrite skipn_app, skipn_all2 by lia.
  replace (length pre + length vs - length pre)%nat with (length vs) by lia.
  rewrite repeat_app, skipn_app, skipn_all2 by (rewrite repeat_length; lia).
  rewrite repeat_length, Nat.sub_diag. simpl. rewrite <- app_assoc. reflexivity.
Qed.

Lemma copy_group_step (b : bool) (M : Matrix) (pre : list R) r :
  length (data M) = size M ->
  (if b then copy_group M (pre ++ repeat 0 ((if b then size M else 0) + r), length pre)
   else (pre ++ repeat 0 ((if b then size M else 0) + r), length pre))
  = ((pre ++ flagged b M) ++ repeat 0 r, length (pre ++ flagged b M)).
Proof.
  intros HM. destruct b; simpl.
  - rewrite copy_group_span; [|exact HM|rewrite length_app, repeat_length; lia].
    rewrite <- HM, span_write_app, length_app. reflexivity.
  - rewrite app_nil_r. reflexivity.
Qed.

Lemma shape_size M r c : shape M r c -> length (data M) = size M.
Proof. intros (Hr & Hc & Hd). unfold size. rewrite Hr, Hc. exact Hd. Qed.

Lemma parameters_flatLayout m params :
  wfMCBM m -> parameters m params = flatLayout m params.
Proof.
  intros (HP & HW & HF & HPr & HIB & HOB).
  apply shape_size in HP, HW, HF, HPr, HIB, HOB.
  unfold parameters, numParameters, lbfgs_malloc.
  set (a1 := if trainPriors params then size (mPriors m) else O).
  set (a2 := if trainWeights params then size (mWeights m) else O).
  set (a3 := if trainFeatures params then size (mFeatures m) else O).
  set (a4 := if trainPredictors params then size (mPredictors m) else O).
  set (a5 := if trainInputBias params then size (mInputBias m) else O).
  set (a6 := if trainOutputBias params then size (mOutputBias m) else O).
  replace (a1 + a2 + a3 + a4 + a5 + a6)%nat
    with (a1 + (a2 + (a3 + (a4 + (a5 + (a6 + 0))))))%nat by lia.
  subst a1 a2 a3 a4 a5 a6.
  change (repeat 0 ?n, O) with (@nil R ++ repeat 0 n, length (@nil R)).
  rewrite (copy_group_step _ _ _ _ HP).
  rewrite (copy_group_step _ _ _ _ HW).
  rewrite (copy_group_step _ _ _ _ HF).
  rewrite (copy_group_step _ _ _ _ HPr).
  rewrite (copy_group_step _ _ _ _ HIB).
  rewrite (copy_group_step _ _ _ _ HOB).
  simpl. rewrite app_nil_r. unfold flatLayout. rewrite <- !app_assoc. reflexivity.
Qed.

(** ** The vectorization layer *)

Lemma length_flagged b M r c :
  shape M r c -> length (flagged b M) = if b then (r * c)%nat else O.
Proof. intros (_ & _ & Hd). destruct b; simpl; [exact Hd | reflexivity]. Qed.

Lemma MapMat_span pre G post off r c :
  off = length pre -> shape G r c ->
  MapMat (pre ++ data G ++ post) off r c = G.
Proof.
  intros -> (Hr & Hc & Hd). unfold MapMat.
  rewrite skipn_app, skipn_all, Nat.sub_diag. simpl.
  rewrite <- Hd, firstn_app, firstn_all, Nat.sub_diag. simpl. rewrite app_nil_r.
  destruct G as [r' c' d]; simpl in *. subst. reflexivity.
Qed.

(** [setParameters] assigns to each flagged group the view that
    [computeGradient] binds for it, and nothing else. *)
Lemma setParameters_views m x params :
  setParameters m x params =
  let V := bindViews m x params in
  {| mDimIn := mDimIn m;
     mNumComponents := mNumComponents m;
     mNumFeatures := mNumFeatures m;
     mPriors := if trainPriors params then priors V else mPriors m;
     mWeights := if trainWeights params then weights V else mWeights m;
     mFeatures := if trainFeatures params then features V else mFeatures m;
     mPredictors := if trainPredictors params then predictors V else mPredictors m;
     mInputBias := if trainInputBias params then inputBias V else mInputBias m;
     mOutputBias := if trainOutputBias params then outputBias V else mOutputBias m |}.
Proof.
  destruct m as [D C F P W Fe Pr IB OB].
  destruct params as [a1 a2 a3 a4 a5 a6 a7 fP fW fF fPr fIB fOB a8 a9].
  destruct fP, fW, fF, fPr, fIB, fOB;
    lazy -[Nat.mul Nat.add firstn skipn]; reflexivity.
Qed.

(** The offsets of the views are the lengths of the flagged groups before. *)
Lemma bindViews_offsets m x params :
  let V := bindViews m x params in
  let n b r c := if (b : bool) then (r * c)%nat else O in
  let C := mNumComponents m in
  let D := mDimIn m in
  let F := mNumFeatures m in
  priorsGrad V = O /\
  weightsGrad V = n (trainPriors params) C 1%nat /\
  featuresGrad V = (weightsGrad V + n (trainWeights params) C F)%nat /\
  predictorsGrad V = (featuresGrad V + n (trainFeatures params) D F)%nat /\
  inputBiasGrad V = (predictorsGrad V + n (trainPredictors params) C D)%nat /\
  outputBiasGrad V = (inputBiasGrad V + n (trainInputBias params) D C)%nat /\
  offset V = (outputBiasGrad V + n (trainOutputBias params) C 1%nat)%nat.
Proof.
  unfold bindViews; cbn [priorsGrad weightsGrad featuresGrad predictorsGrad
                         inputBiasGrad outputBiasGrad offset].
  destruct (trainPriors params), (trainWeights params), (trainFeatures params),
    (trainPredictors params), (trainInputBias params), (trainOutputBias params);
    cbn; repeat split; lia.
Qed.

Lemma offset_numParameters m x params :
  wfMCBM m -> offset (bindViews m x params) = numParameters m params.
Proof.
  intros (HP & HW & HF & HPr & HIB & HOB).
  destruct (bindViews_offsets m x params) as (H0 & H1 & H2 & H3 & H4 & H5 & H6).
  unfold numParameters, size.
  destruct HP as (-> & -> & _), HW as (-> & -> & _), HF as (-> & -> & _),
    HPr as (-> & -> & _), HIB as (-> & -> & _), HOB as (-> & -> & _).
  rewrite H6, H5, H4, H3, H2, H1. reflexivity.
Qed.

Lemma bindViews_views m x params :
  let V := bindViews m x params in
  let C := mNumComponents m in
  let D := mDimIn m in
  let F := mNumFeatures m in
  priors V = (if trainPriors params then MapMat x (priorsGrad V) C 1
              else MapMat (data (mPriors m)) 0 C 1) /\
  weights V = (if trainWeights params then MapMat x (weightsGrad V) C F
               else MapMat (data (mWeights m)) 0 C F) /\
  features V = (if trainFeatures params then MapMat x (featuresGrad V) D F
                else MapMat (data (mFeatures m)) 0 D F) /\
  predictors V = (if trainPredictors params then MapMat x (predictorsGrad V) C D
                  else MapMat (data (mPredictors m)) 0 C D) /\
  inputBias V = (if trainInputBias params then MapMat x (inputBiasGrad V) D C
                 else MapMat (data (mInputBias m)) 0 D C) /\
  outputBias V = (if trainOutputBias params then MapMat x (outputBiasGrad V) C 1
                  else MapMat (data (mOutputBias m)) 0 C 1).
Proof. repeat split. Qed.

(** A view of the store's own data is the stored matrix. *)
Lemma MapMat_data M r c : shape M r c -> MapMat (data M) 0 r c = M.
Proof.
  intros H. pose proof (MapMat_span [] M [] 0 r c eq_refl H) as E.
  simpl in E. rewrite app_nil_r in E. exact E.
Qed.

Lemma views_of_flatLayout m1 m2 params :
  wfMCBM m1 -> sameDims m1 m2 ->
  let V := bindViews m2 (flatLayout m1 params) params in
  (trainPriors params = true -> priors V = mPriors m1) /\
  (trainWeights params = true -> weights V = mWeights m1) /\
  (trainFeatures params = true -> features V = mFeatures m1) /\
  (trainPredictors params = true -> predictors V = mPredictors m1) /\
  (trainInputBias params = true -> inputBias V = mInputBias m1) /\
  (trainOutputBias params = true -> outputBias V = mOutputBias m1).
Proof.
  intros (HP & HW & HF & HPr & HIB & HOB) (ED & EC & EF) V.
  destruct (bindViews_offsets m2 (flatLayout m1 params) params)
    as (H0 & H1 & H2 & H3 & H4 & H5 & _).
  destruct (bindViews_views m2 (flatLayout m1 params) params)
    as (V0 & V1 & V2 & V3 & V4 & V5).
  fold V in H0, H1, H2, H3, H4, H5, V0, V1, V2, V3, V4, V5.
  rewrite <- ED, <- EC, <- EF in *.
  pose proof (length_flagged (trainPriors params) _ _ _ HP) as L0.
  pose proof (length_flagged (trainWeights params) _ _ _ HW) as L1.
  pose proof (length_flagged (trainFeatures params) _ _ _ HF) as L2.
  pose proof (length_flagged (trainPredictors params) _ _ _ HPr) as L3.
  pose proof (length_flagged (trainInputBias params) _ _ _ HIB) as L4.
  unfold flatLayout in *.
  repeat split; intros Hf.
  - rewrite V0, Hf. change (flagged true ?M) with (data M).
    apply (MapMat_span [] (mPriors m1)); [rewrite H0; reflexivity | exact HP].
  - rewrite V1, Hf. change (flagged true ?M) with (data M).
    apply (MapMat_span (flagged _ _) (mWeights m1)); [|exact HW].
    rewrite H1, L0. reflexivity.
  - rewrite V2, Hf. change (flagged true ?M) with (data M).
    rewrite (app_assoc (flagged _ _) (flagged _ _)).
    apply (MapMat_span (_ ++ _) (mFeatures m1)); [|exact HF].
    rewrite H2, H1, length_app, L0, L1. reflexivity.
  - rewrite V3, Hf. change (flagged true ?M) with (data M).
    rewrite (app_assoc (flagged _ (mWeights m1))), (app_assoc (flagged _ (mPriors m1))).
    apply (MapMat_span (_ ++ _) (mPredictors m1)); [|exact HPr].
    rewrite H3, H2, H1, !length_app, L0, L1, L2. lia.
  - rewrite V4, Hf. change (flagged true ?M) with (data M).
    rewrite (app_assoc (flagged _ (mFeatures m1))), (app_assoc (flagged _ (mWeights m1))),
      (app_assoc (flagged _ (mPriors m1))).
    apply (MapMat_span (_ ++ _) (mInputBias m1)); [|exact HIB].
    rewrite H4, H3, H2, H1, !length_app, L0, L1, L2, L3. lia.
  - rewrite V5, Hf. change (flagged true ?M) with (data M).
    rewrite (app_assoc (flagged _ (mPredictors m1))), (app_assoc (flagged _ (mFeatures m1))),
      (app_assoc (flagged _ (mWeights m1))), (app_assoc (flagged _ (mPriors m1))).
    rewrite <- (app_nil_r (data (mOutputBias m1))).
    apply (MapMat_span (_ ++ _) (mOutputBias m1)); [|exact HOB].
    rewrite H5, H4, H3, H2, H1, !length_app, L0, L1, L2, L3, L4. lia.
Qed.

Lemma shape_MapMat buf off r c :
  (off + r * c <= length buf)%nat -> shape (MapMat buf off r c) r c.
Proof.
  intros H. unfold shape, MapMat; simpl. repeat split.
  rewrite length_firstn, length_skipn. lia.
Qed.

Lemma chunk_step (b : bool) o n (x : buffer) :
  (if b then firstn n (skipn o x) else []) ++ skipn (o + (if b then n else O)) x
  = skipn o x.
Proof.
  destruct b; simpl.
  - rewrite Nat.add_comm, <- skipn_skipn. apply firstn_skipn.
  - rewrite Nat.add_0_r. reflexivity.
Qed.

Lemma flagged_view (b : bool) (x : buffer) off r c M :
  flagged b (if b then MapMat x off r c else M)
  = if b then firstn (r * c) (skipn off x) else [].
Proof. destruct b; reflexivity. Qed.

(** Reading a buffer of the right length back: the flagged groups of the
    updated store, laid out again, are the buffer. *)
Lemma flatLayout_setParameters m x params :
  wfMCBM m -> length x = numParameters m params ->
  flatLayout (setParameters m x params) params = x.
Proof.
  intros Hwf Hlen.
  pose proof (offset_numParameters m x params Hwf) as Hoff.
  destruct (bindViews_offsets m x params) as (H0 & H1 & H2 & H3 & H4 & H5 & H6).
  destruct (bindViews_views m x params) as (V0 & V1 & V2 & V3 & V4 & V5).
  rewrite setParameters_views. unfold flatLayout.
  cbn [mPriors mWeights mFeatures mPredictors mInputBias mOutputBias].
  rewrite V0, V1, V2, V3, V4, V5.
  repeat match goal with
         | |- context [if ?b then (if ?b then ?A else ?B) else ?M] =>
           replace (if b then (if b then A else B) else M)
             with (if b then A else M) by (destruct b; reflexivity)
         end.
  rewrite !flagged_view.
  assert (E : skipn (offset (bindViews m x params)) x = [])
    by (rewrite Hoff, <- Hlen; apply skipn_all).
  match goal with
  | |- ?a ++ ?b ++ ?c ++ ?d ++ ?e ++ ?f = _ =>
    transitivity (a ++ b ++ c ++ d ++ e ++ f ++ skipn (offset (bindViews m x params)) x)
  end.
  { rewrite E, app_nil_r. reflexivity. }
  rewrite H6 at 1.
  rewrite chunk_step, H5, chunk_step, H4, chunk_step, H3, chunk_step, H2,
    chunk_step, H1, chunk_step, H0.
  reflexivity.
Qed.

Lemma wfMCBM_setParameters m x params :
  wfMCBM m -> length x = numParameters m params ->
  wfMCBM (setParameters m x params).
Proof.
  intros Hwf Hlen.
  pose proof (offset_numParameters m x params Hwf) as Hoff.
  destruct (bindViews_offsets m x params) as (H0 & H1 & H2 & H3 & H4 & H5 & H6).
  destruct (bindViews_views m x params) as (V0 & V1 & V2 & V3 & V4 & V5).
  destruct Hwf as (HP & HW & HF & HPr & HIB & HOB).
  rewrite setParameters_views. unfold wfMCBM.
  cbn [mPriors mWeights mFeatures mPredictors mInputBias mOutputBias
       mDimIn mNumComponents mNumFeatures].
  rewrite V0, V1, V2, V3, V4, V5.
  rewrite <- Hoff in Hlen. clear Hoff V0 V1 V2 V3 V4 V5.
  revert H0 H1 H2 H3 H4 H5 H6 Hlen.
  generalize (priorsGrad (bindViews m x params)) (weightsGrad (bindViews m x params))
    (featuresGrad (bindViews m x params)) (predictorsGrad (bindViews m x params))
    (inputBiasGrad (bindViews m x params)) (outputBiasGrad (bindViews m x params))
    (offset (bindViews m x params)).
  intros o0 o1 o2 o3 o4 o5 o6 H0 H1 H2 H3 H4 H5 H6 Hlen.
  assert (Hle : (o1 <= o2 <= o3 /\ o3 <= o4 <= o5 /\ o5 <= o6)%nat) by lia.
  split; [|split; [|split; [|split; [|split]]]];
    match goal with
    | |- shape (if ?b then _ else _) _ _ =>
      destruct b; [apply shape_MapMat; lia | assumption]
    end.
Qed.

(** C2. Round trip of the vectorization layer: for two stores of identical
    shapes and any set of flags, [setParameters] applied to the buffer
    that [parameters] produced from the first store makes every flagged
    group of the second store equal to that group of the first. *)
Theorem setParameters_parameters_roundtrip (m1 m2 : MCBM) (params : Parameters) :
  wfMCBM m1 -> sameDims m1 m2 ->
  let m2' := setParameters m2 (parameters m1 params) params in
  (trainPriors params = true -> mPriors m2' = mPriors m1) /\
  (trainWeights params = true -> mWeights m2' = mWeights m1) /\
  (trainFeatures params = true -> mFeatures m2' = mFeatures m1) /\
  (trainPredictors params = true -> mPredictors m2' = mPredictors m1) /\
  (trainInputBias params = true -> mInputBias m2' = mInputBias m1) /\
  (trainOutputBias params = true -> mOutputBias m2' = mOutputBias m1).
Proof.
  intros Hwf Hdims m2'. subst m2'.
  rewrite (parameters_flatLayout m1 params Hwf), setParameters_views.
  destruct (views_of_flatLayout m1 m2 params Hwf Hdims) as (V0 & V1 & V2 & V3 & V4 & V5).
  cbn [mPriors mWeights mFeatures mPredictors mInputBias mOutputBias].
  repeat split; intros Hf; rewrite Hf; auto.
Qed.

(** C8. Frame of [setParameters]: on a buffer of the right length the
    flagged groups are assigned from consecutive spans of the buffer (laid
    out again they give the buffer back), every unflagged group keeps its
    value, and all dimensions and shapes are as before. *)
Theorem setParameters_frame (m : MCBM) (x : buffer) (params : Parameters) :
  wfMCBM m -> length x = numParameters m params ->
  let m' := setParameters m x params in
  (trainPriors params = false -> mPriors m' = mPriors m) /\
  (trainWeights params = false -> mWeights m' = mWeights m) /\
  (trainFeatures params = false -> mFeatures m' = mFeatures m) /\
  (trainPredictors params = false -> mPredictors m' = mPredictors m) /\
  (trainInputBias params = false -> mInputBias m' = mInputBias m) /\
  (trainOutputBias params = false -> mOutputBias m' = mOutputBias m) /\
  parameters m' params = x /\
  sameDims m m' /\ wfMCBM m'.
Proof.
  intros Hwf Hlen m'.
  pose proof (wfMCBM_setParameters m x params Hwf Hlen) as Hwf'.
  pose proof (flatLayout_setParameters m x params Hwf Hlen) as Hflat.
  fold m' in Hwf', Hflat.
  rewrite <- (parameters_flatLayout m' params Hwf') in Hflat.
  subst m'. rewrite setParameters_views in *.
  cbn [mPriors mWeights mFeatures mPredictors mInputBias mOutputBias].
  repeat (split; [intros Hf; rewrite Hf; reflexivity|]).
  split; [exact Hflat | split; [repeat split | exact Hwf']].
Qed.

(** The round trip from [storeA] into [storeB], training the weights and the
    output bias. *)
Lemma setParameters_parameters_roundtrip_witness :
  let m2' := setParameters storeB (parameters storeA paramsWO) paramsWO in
  (trainPriors paramsWO = true -> mPriors m2' = mPriors storeA) /\
  (trainWeights paramsWO = true -> mWeights m2' = mWeights storeA) /\
  (trainFeatures paramsWO = true -> mFeatures m2' = mFeatures storeA) /\
  (trainPredictors paramsWO = true -> mPredictors m2' = mPredictors storeA) /\
  (trainInputBias paramsWO = true -> mInputBias m2' = mInputBias storeA) /\
  (trainOutputBias paramsWO = true -> mOutputBias m2' = mOutputBias storeA).
Proof.
  apply (setParameters_parameters_roundtrip storeA storeB paramsWO).
  - repeat split; reflexivity.
  - repeat split; reflexivity.
Defined.

(** Loading a four-cell buffer into [storeA]. *)
Lemma setParameters_frame_witness :
  let m' := setParameters storeA [30; 40; 50; 60] paramsWO in
  (trainPriors paramsWO = false -> mPriors m' = mPriors storeA) /\
  (trainWeights paramsWO = false -> mWeights m' = mWeights storeA) /\
  (trainFeatures paramsWO = false -> mFeatures m' = mFeatures storeA) /\
  (trainPredictors paramsWO = false -> mPredictors m' = mPredictors storeA) /\
  (trainInputBias paramsWO = false -> mInputBias m' = mInputBias storeA) /\
  (trainOutputBias paramsWO = false -> mOutputBias m' = mOutputBias storeA) /\
  parameters m' paramsWO = [30; 40; 50; 60] /\
  sameDims storeA m' /\ wfMCBM m'.
Proof.
  apply (setParameters_frame storeA [30; 40; 50; 60] paramsWO).
  - repeat split; reflexivity.
  - reflexivity.
Defined.

(** Concrete runs of the vectorization layer. *)
Example parameters_storeA :
  parameters storeA paramsWO = [3; 4; 15; 16].
Proof. reflexivity. Qed.

Example setParameters_storeA :
  mWeights (setParameters storeA [30; 40; 50; 60] paramsWO) = mkMat 2 1 [30; 40] /\
  mOutputBias (setParameters storeA [30; 40; 50; 60] paramsWO) = mkMat 2 1 [50; 60] /\
  mPriors (setParameters storeA [30; 40; 50; 60] paramsWO) = mkMat 2 1 [1; 2].
Proof. repeat split; reflexivity. Qed.

(** C10. The training entry point returns [false] and leaves each of the
    six parameter groups, and the dimensions, as they were. *)
Theorem train_is_a_stub (m : MCBM) (input output : MatrixXi) (params : Parameters) :
  fst (train m input output params) = false /\
  let m' := snd (train m input output params) in
  mPriors m' = mPriors m /\ mWeights m' = mWeights m /\
  mFeatures m' = mFeatures m /\ mPredictors m' = mPredictors m /\
  mInputBias m' = mInputBias m /\ mOutputBias m' = mOutputBias m /\
  m' = m.
Proof. unfold train; simpl. repeat split. Qed.

(** ** Construction *)

Lemma coeff_Zero r c i j : coeff (Zero r c) i j = 0.
Proof.
  unfold coeff, Zero, tabulate; simpl.
  destruct (Nat.lt_ge_cases (i + j * r) (r * c)) as [H|H].
  - rewrite nth_map_seq by exact H. reflexivity.
  - apply nth_overflow. rewrite length_map, length_seq. exact H.
Qed.

Lemma coeff_cwise f M i j :
  (i < rows M)%nat -> (j < cols M)%nat -> coeff (cwise f M) i j = f (coeff M i j).
Proof. intros Hi Hj. unfold cwise. apply coeff_tabulate; assumption. Qed.

Lemma coeff_cwise2 op A B i j :
  (i < rows A)%nat -> (j < cols A)%nat ->
  coeff (cwise2 op A B) i j = op (coeff A i j) (coeff B i j).
Proof. intros Hi Hj. unfold cwise2. apply coeff_tabulate; assumption. Qed.

(** C6, as stated, fails: a construction with [dimIn = 0] and one
    component and one feature is not rejected. *)
Lemma MCBM_new_accepts_zero_dimIn :
  ~ ((1 < 1 \/ effectiveNumFeatures 0 1 < 1 \/ 0 < 1)%Z ->
     exists msg, MCBM_new 0 1 1 zeroDraws = Throws msg).
Proof.
  intros H. destruct H as [msg H]; [right; right; lia|].
  discriminate H.
Qed.

(** C6, amended. Construction throws whenever [numComponents < 1] or the
    effective [numFeatures] (which is [dimIn] when the argument is
    negative) is below 1; [dimIn] itself is not checked.  When both are at
    least 1 and [dimIn] is not negative, construction succeeds with the
    requested dimensions, well-shaped groups, priors and both biases zero,
    and every weight strictly positive. *)
Theorem MCBM_new_checks (dimIn numComponents numFeatures : Z) (rnd : InitDraws) :
  let nf := effectiveNumFeatures dimIn numFeatures in
  ((numComponents < 1 \/ nf < 1)%Z ->
   exists msg, MCBM_new dimIn numComponents numFeatures rnd = Throws msg) /\
  ((1 <= numComponents)%Z -> (1 <= nf)%Z -> (0 <= dimIn)%Z ->
   exists m, MCBM_new dimIn numComponents numFeatures rnd = Returns m /\
     mDimIn m = Z.to_nat dimIn /\
     mNumComponents m = Z.to_nat numComponents /\
     mNumFeatures m = Z.to_nat nf /\
     wfMCBM m /\
     (forall c, coeff (mPriors m) c 0 = 0) /\
     (forall d c, coeff (mInputBias m) d c = 0) /\
     (forall c, coeff (mOutputBias m) c 0 = 0) /\
     (forall c f, (c < mNumComponents m)%nat -> (f < mNumFeatures m)%nat ->
                  0 < coeff (mWeights m) c f)).
Proof.
  intros nf. unfold MCBM_new. fold (effectiveNumFeatures dimIn numFeatures). fold nf.
  split.
  - intros H.
    destruct (Z.ltb_spec numComponents 1); [eexists; reflexivity|].
    destruct (Z.ltb_spec nf 1); [eexists; reflexivity | lia].
  - intros Hc Hf Hd.
    destruct (Z.ltb_spec numComponents 1); [lia|].
    destruct (Z.ltb_spec nf 1); [lia|].
    destruct (Z.ltb_spec dimIn 0); [lia|].
    eexists; split; [reflexivity|].
    cbn [mDimIn mNumComponents mNumFeatures mPriors mWeights mFeatures
         mPredictors mInputBias mOutputBias].
    repeat (split; [reflexivity|]).
    split; [repeat split; unfold Zero, shift, scale, mabs, cwise, tabulate; simpl;
            rewrite length_map, length_seq; reflexivity|].
    split; [intros; apply coeff_Zero|].
    split; [intros; apply coeff_Zero|].
    split; [intros; apply coeff_Zero|].
    intros c f Hlc Hlf. unfold shift, scale, mabs.
    rewrite !coeff_cwise, coeff_tabulate by assumption.
    pose proof (Rabs_pos (drawWeights rnd c f)). lra.
Qed.

(** A construction with the number of features left to default. *)
Lemma MCBM_new_checks_witness :
  exists m, MCBM_new 3 2 (-1) zeroDraws = Returns m /\
     mDimIn m = Z.to_nat 3 /\
     mNumComponents m = Z.to_nat 2 /\
     mNumFeatures m = Z.to_nat (effectiveNumFeatures 3 (-1)) /\
     wfMCBM m /\
     (forall c, coeff (mPriors m) c 0 = 0) /\
     (forall d c, coeff (mInputBias m) d c = 0) /\
     (forall c, coeff (mOutputBias m) c 0 = 0) /\
     (forall c f, (c < mNumComponents m)%nat -> (f < mNumFeatures m)%nat ->
                  0 < coeff (mWeights m) c f).
Proof.
  apply (proj2 (MCBM_new_checks 3 2 (-1) zeroDraws));
    unfold effectiveNumFeatures; simpl; lia.
Defined.

(** The two checks, on concrete arguments. *)
Example MCBM_new_no_components :
  MCBM_new 3 0 2 zeroDraws = Throws "The number of components has to be positive.".
Proof. reflexivity. Qed.

Example MCBM_new_no_features :
  MCBM_new 0 2 (-1) zeroDraws = Throws "The number of features has to be positive.".
Proof. reflexivity. Qed.

(** ** Coefficients of the remaining operations *)

Lemma coeff_transpose M i j :
  (i < cols M)%nat -> (j < rows M)%nat -> coeff (transpose M) i j = coeff M j i.
Proof. intros. unfold transpose. rewrite coeff_tabulate by assumption; reflexivity. Qed.

Lemma coeff_mmul A B i j :
  (i < rows A)%nat -> (j < cols B)%nat ->
  coeff (mmul A B) i j = rsum (cols A) (fun k => coeff A i k * coeff B k j).
Proof. intros. unfold mmul. rewrite coeff_tabulate by assumption; reflexivity. Qed.

Lemma coeff_colwise_add M v i j :
  (i < rows M)%nat -> (j < cols M)%nat ->
  coeff (colwise_add M v) i j = coeff M i j + coeff v i 0.
Proof. intros. unfold colwise_add. rewrite coeff_tabulate by assumption; reflexivity. Qed.

Lemma coeff_rowwise_sub M v i j :
  (i < rows M)%nat -> (j < cols M)%nat ->
  coeff (rowwise_sub M v) i j = coeff M i j - coeff v 0 j.
Proof. intros. unfold rowwise_sub. rewrite coeff_tabulate by assumption; reflexivity. Qed.

Lemma coeff_rowwise_mul M v i j :
  (i < rows M)%nat -> (j < cols M)%nat ->
  coeff (rowwise_mul M v) i j = coeff M i j * coeff v 0 j.
Proof. intros. unfold rowwise_mul. rewrite coeff_tabulate by assumption; reflexivity. Qed.

Lemma coeff_rowwise_sum M i :
  (i < rows M)%nat ->
  coeff (rowwise_sum M) i 0 = rsum (cols M) (fun j => coeff M i j).
Proof. intros. unfold rowwise_sum. rewrite coeff_tabulate by (try assumption; lia); reflexivity. Qed.

Lemma coeff_middleCols M b w i j :
  (i < rows M)%nat -> (j < w)%nat ->
  coeff (middleCols M b w) i j = coeff M i (b + j).
Proof. intros. unfold middleCols. rewrite coeff_tabulate by assumption; reflexivity. Qed.

Lemma coeff_stack2 n a b i j :
  (i < 2)%nat -> (j < n)%nat ->
  coeff (stack2 n a b) i j = match i with O => coeff a 0 j | S _ => coeff b 0 j end.
Proof. intros. unfold stack2. rewrite coeff_tabulate by assumption; reflexivity. Qed.

(** ** Log-sum-exp *)

(** Subtracting any shift before exponentiating leaves the value of the
    log of the sum of exponentials unchanged. *)
Lemma lse_shift n s mx :
  (0 < n)%nat ->
  mx + ln (rsum n (fun i => exp (s i - mx))) = Spec.lse n s.
Proof.
  intros Hn. unfold Spec.lse.
  assert (Hpos : 0 < rsum n (fun i => exp (s i))) by (apply rsum_pos; [exact Hn | intros; apply exp_pos]).
  rewrite (rsum_ext n (fun i => exp (s i - mx)) (fun i => exp (s i) * exp (- mx)))
    by (intros; rewrite <- exp_plus; f_equal; lra).
  rewrite rsum_scal_r, ln_mult by (try exact Hpos; apply exp_pos).
  rewrite ln_exp. lra.
Qed.

Lemma coeff_logSumExp M j :
  (0 < rows M)%nat -> (j < cols M)%nat ->
  coeff (logSumExp M) 0 j = Spec.lse (rows M) (fun i => coeff M i j).
Proof.
  intros Hr Hj. unfold logSumExp. rewrite coeff_tabulate by (try assumption; lia).
  apply lse_shift. exact Hr.
Qed.

(** The normalizer of two log-probabilities. *)
Lemma lse_two s : Spec.lse 2 s = ln (exp (s O) + exp (s 1%nat)).
Proof. unfold Spec.lse. simpl. f_equal. lra. Qed.

Lemma exp_normalized a b :
  exp (a - ln (exp a + exp b)) + exp (b - ln (exp a + exp b)) = 1.
Proof.
  assert (Ha := exp_pos a). assert (Hb := exp_pos b).
  unfold Rminus. rewrite !exp_plus, exp_Ropp, exp_ln by lra.
  field. lra.
Qed.

(** ** The forward computation, coefficient by coefficient *)

Ltac dims :=
  repeat match goal with
         | H : rows _ = _ |- _ => rewrite H
         | H : cols _ = _ |- _ => rewrite H
         end;
  cbn [rows cols tabulate transpose mmul cwise cwise2 square mexp mabs madd msub cmul
       scale shift one_minus colwise_add rowwise_sub rowwise_mul rowwise_sum
       middleCols stack2 logSumExp MapMat];
  repeat match goal with
         | H : rows _ = _ |- _ => rewrite H
         | H : cols _ = _ |- _ => rewrite H
         end;
  try assumption; try lia.

Section Forward.
Variables (C D F : nat) (P W Fe Pr IB OB input : Matrix).
Hypotheses (HWr : rows W = C) (HWc : cols W = F)
           (HFr : rows Fe = D) (HFc : cols Fe = F)
           (HPr : rows Pr = C) (HPc : cols Pr = D)
           (HIr : rows IB = D) (HIc : cols IB = C).

(** Column [n] of the input, read as the family [u]. *)
Variables (n : nat) (u : nat -> R).
Hypotheses (Hn : (n < cols input)%nat)
           (Hu : forall d, (d < D)%nat -> coeff input d n = u d).

Let th := theta_mats P W Fe Pr IB OB.
Let featureOutput_ := mmul (transpose Fe) input.
Let logPost0_ :=
  colwise_add (madd (mmul W (square featureOutput_)) (mmul (transpose IB) input)) P.
Let logPost1_ := colwise_add (madd logPost0_ (mmul Pr input)) OB.
Let logProb0_ := logSumExp logPost0_.
Let logProb1_ := logSumExp logPost1_.
Let logNorm_ := logSumExp (stack2 (cols input) logProb0_ logProb1_).

Lemma coeff_featureOutput f :
  (f < F)%nat -> coeff featureOutput_ f n = Spec.featureOutput D th u f.
Proof.
  intros Hf. unfold featureOutput_, Spec.featureOutput.
  rewrite coeff_mmul by dims.
  replace (cols (transpose Fe)) with D by dims.
  apply rsum_ext. intros d Hd.
  rewrite coeff_transpose, Hu by dims. reflexivity.
Qed.

Lemma coeff_logPost0 c :
  (c < C)%nat -> coeff logPost0_ c n = Spec.logScore0 D F th u c.
Proof.
  intros Hc. unfold logPost0_, Spec.logScore0.
  rewrite coeff_colwise_add by dims.
  unfold madd. rewrite coeff_cwise2 by dims.
  rewrite !coeff_mmul by dims.
  f_equal. f_equal.
  - rewrite HWc. unfold Spec.featureEnergy. apply rsum_ext. intros f Hf.
    unfold square. rewrite coeff_cwise by (unfold featureOutput_; dims).
    rewrite coeff_featureOutput by assumption. reflexivity.
  - replace (cols (transpose IB)) with D by dims.
    unfold Spec.biasEnergy. apply rsum_ext. intros d Hd.
    rewrite coeff_transpose, Hu by dims. reflexivity.
Qed.

Lemma coeff_logPost1 c :
  (c < C)%nat -> coeff logPost1_ c n = Spec.logScore1 D F th u c.
Proof.
  intros Hc. unfold logPost1_, Spec.logScore1.
  rewrite coeff_colwise_add by (unfold logPost0_; dims).
  unfold madd at 1. rewrite coeff_cwise2 by (unfold logPost0_; dims).
  rewrite coeff_logPost0 by assumption.
  rewrite coeff_mmul by dims. rewrite HPc.
  f_equal. f_equal. unfold Spec.predictorEnergy.
  apply rsum_ext. intros d Hd. rewrite Hu by exact Hd. reflexivity.
Qed.

Lemma coeff_logProb0 :
  (0 < C)%nat -> coeff logProb0_ 0 n = Spec.logProb0 C D F th u.
Proof.
  intros HC. unfold logProb0_, Spec.logProb0.
  rewrite coeff_logSumExp by (unfold logPost0_; dims).
  replace (rows logPost0_) with C by (unfold logPost0_; dims).
  unfold Spec.lse. f_equal. apply rsum_ext. intros c Hc.
  rewrite coeff_logPost0 by assumption. reflexivity.
Qed.

Lemma coeff_logProb1 :
  (0 < C)%nat -> coeff logProb1_ 0 n = Spec.logProb1 C D F th u.
Proof.
  intros HC. unfold logProb1_, Spec.logProb1.
  rewrite coeff_logSumExp by (unfold logPost1_, logPost0_; dims).
  replace (rows logPost1_) with C by (unfold logPost1_, logPost0_; dims).
  unfold Spec.lse. f_equal. apply rsum_ext. intros c Hc.
  rewrite coeff_logPost1 by assumption. reflexivity.
Qed.

(** The normalizer depends only on the two entries it is computed from. *)
Lemma coeff_logNorm_raw :
  coeff logNorm_ 0 n = ln (exp (coeff logProb0_ 0 n) + exp (coeff logProb1_ 0 n)).
Proof.
  clear HWr HWc HFr HFc HPr HPc HIr HIc Hu.
  unfold logNorm_.
  rewrite coeff_logSumExp by dims.
  replace (rows (stack2 (cols input) logProb0_ logProb1_)) with 2%nat by dims.
  rewrite lse_two. rewrite !coeff_stack2 by lia. reflexivity.
Qed.

Lemma coeff_logNorm :
  (0 < C)%nat -> coeff logNorm_ 0 n = Spec.logNorm C D F th u.
Proof.
  intros HC. rewrite coeff_logNorm_raw.
  rewrite coeff_logProb0, coeff_logProb1 by assumption. reflexivity.
Qed.

(** The two normalized log-probabilities, as [-= logNorm] leaves them. *)
Lemma coeff_normProb0 :
  (0 < C)%nat ->
  coeff (msub logProb0_ logNorm_) 0 n
  = Spec.logProb0 C D F th u - Spec.logNorm C D F th u.
Proof.
  intros HC. unfold msub. rewrite coeff_cwise2 by (unfold logProb0_; dims).
  rewrite coeff_logProb0, coeff_logNorm by assumption. reflexivity.
Qed.

Lemma coeff_normProb1 :
  (0 < C)%nat ->
  coeff (msub logProb1_ logNorm_) 0 n
  = Spec.logProb1 C D F th u - Spec.logNorm C D F th u.
Proof.
  intros HC. unfold msub. rewrite coeff_cwise2 by (unfold logProb1_; dims).
  rewrite coeff_logProb1, coeff_logNorm by assumption. reflexivity.
Qed.

End Forward.

(** ** The forward engine *)

Lemma coeff_normalized m input n :
  (n < cols input)%nat ->
  let lp := forward m input in
  let nlp := normalizedLogProbs m input in
  let logNorm := ln (exp (coeff (fst lp) 0 n) + exp (coeff (snd lp) 0 n)) in
  coeff (fst nlp) 0 n = coeff (fst lp) 0 n - logNorm /\
  coeff (snd nlp) 0 n = coeff (snd lp) 0 n - logNorm.
Proof.
  intros Hn. unfold normalizedLogProbs, forward. cbn [fst snd].
  unfold msub. rewrite !coeff_cwise2 by dims.
  rewrite coeff_logNorm_raw by exact Hn. split; reflexivity.
Qed.

(** C5. The two normalized conditional log-probabilities of every column
    exponentiate to probabilities that add up to one. *)
Theorem normalized_probabilities_sum_to_one (m : MCBM) (input : Matrix) (n : nat) :
  (n < cols input)%nat ->
  let normalizedLogProb0 := fst (normalizedLogProbs m input) in
  let normalizedLogProb1 := snd (normalizedLogProbs m input) in
  exp (coeff normalizedLogProb0 0 n) + exp (coeff normalizedLogProb1 0 n) = 1.
Proof.
  intros Hn. cbv zeta.
  destruct (coeff_normalized m input n Hn) as [-> ->].
  apply exp_normalized.
Qed.

(** The second column of a two-column batch, on [storeA]. *)
Lemma normalized_probabilities_sum_to_one_witness :
  let input := mkMat 2 2 [1; 0; 0; 1] in
  exp (coeff (fst (normalizedLogProbs storeA input)) 0 1) +
  exp (coeff (snd (normalizedLogProbs storeA input)) 0 1) = 1.
Proof.
  apply (normalized_probabilities_sum_to_one storeA (mkMat 2 2 [1; 0; 0; 1]) 1).
  simpl. lia.
Defined.

Lemma coeff_cast_double M i j :
  coeff (cast_double M) i j = IZR (icoeff M i j).
Proof.
  unfold coeff, cast_double, icoeff; simpl.
  change 0 with (IZR 0). apply map_nth.
Qed.

Lemma icoeff_lt_cast_int A B i j :
  (i < rows A)%nat -> (j < cols A)%nat ->
  icoeff (lt_cast_int A B) i j =
  if Rlt_dec (coeff A i j) (coeff B i j) then 1%Z else 0%Z.
Proof.
  intros Hi Hj. unfold icoeff, lt_cast_int; simpl.
  rewrite nth_map_seq by nia.
  rewrite Nat.Div0.mod_add, Nat.div_add by lia.
  rewrite Nat.mod_small, Nat.div_small by lia.
  rewrite Nat.add_0_l. reflexivity.
Qed.

Lemma wfMCBM_dims m :
  wfMCBM m ->
  (rows (mWeights m) = mNumComponents m /\ cols (mWeights m) = mNumFeatures m) /\
  (rows (mFeatures m) = mDimIn m /\ cols (mFeatures m) = mNumFeatures m) /\
  (rows (mPredictors m) = mNumComponents m /\ cols (mPredictors m) = mDimIn m) /\
  (rows (mInputBias m) = mDimIn m /\ cols (mInputBias m) = mNumComponents m).
Proof.
  intros (HP & HW & HF & HPr & HIB & HOB).
  destruct HW as (? & ? & _), HF as (? & ? & _), HPr as (? & ? & _), HIB as (? & ? & _).
  repeat split; assumption.
Qed.

(** The normalized log-probability of output 1 in the words of the spec. *)
Lemma coeff_normalized_spec m input n :
  wfMCBM m -> (0 < mNumComponents m)%nat -> (n < cols input)%nat ->
  let C := mNumComponents m in
  let D := mDimIn m in
  let F := mNumFeatures m in
  let u := fun d => coeff input d n in
  coeff (fst (normalizedLogProbs m input)) 0 n =
    Spec.logProb0 C D F (theta_store m) u - Spec.logNorm C D F (theta_store m) u /\
  coeff (snd (normalizedLogProbs m input)) 0 n =
    Spec.logProb1 C D F (theta_store m) u - Spec.logNorm C D F (theta_store m) u.
Proof.
  intros Hwf HC Hn.
  destruct (wfMCBM_dims m Hwf) as ((?&?)&(?&?)&(?&?)&(?&?)).
  intros C D F u.
  unfold normalizedLogProbs, forward; cbn [fst snd].
  split.
  - apply (coeff_normProb0 C D F (mPriors m) (mWeights m) (mFeatures m) (mPredictors m)
             (mInputBias m) (mOutputBias m) input); auto.
  - apply (coeff_normProb1 C D F (mPriors m) (mWeights m) (mFeatures m) (mPredictors m)
             (mInputBias m) (mOutputBias m) input); auto.
Qed.

(** C7. [sample] returns one bit per column; bit [n] is 1 exactly when the
    [n]-th draw (the absolute value of the [n]-th [Random] entry) is below
    [exp (logProb1[n] - logNorm[n])], and that threshold is a function of
    column [n] of the input alone. *)
Theorem sample_draws_one_bit_per_column
        (m : MCBM) (input_ : MatrixXi) (rnd : nat -> R) :
  wfMCBM m -> (0 < mNumComponents m)%nat ->
  let out := sample m input_ rnd in
  let N := icols input_ in
  irows out = 1%nat /\ icols out = N /\ length (idata out) = N /\
  forall n, (n < N)%nat ->
    let u := fun d => coeff (cast_double input_) d n in
    let C := mNumComponents m in
    let D := mDimIn m in
    let F := mNumFeatures m in
    let p1 := exp (Spec.logProb1 C D F (theta_store m) u
                   - Spec.logNorm C D F (theta_store m) u) in
    p1 = exp (coeff (snd (normalizedLogProbs m (cast_double input_))) 0 n) /\
    (icoeff out 0 n = 1%Z \/ icoeff out 0 n = 0%Z) /\
    (icoeff out 0 n = 1%Z <-> Rabs (rnd n) < p1).
Proof.
  intros Hwf HC out N.
  assert (Hshape : irows out = 1%nat /\ icols out = N /\ length (idata out) = N).
  { unfold out, sample, forward, lt_cast_int. cbn [irows icols idata].
    rewrite length_map, length_seq. cbn [rows cols mabs cwise tabulate cast_double].
    repeat split; lia. }
  destruct Hshape as (H1 & H2 & H3). repeat (split; [assumption|]).
  intros n Hn u C D F p1.
  assert (Hc : cols (cast_double input_) = N) by reflexivity.
  destruct (coeff_normalized_spec m (cast_double input_) n Hwf HC)
    as [_ Hp]; [rewrite Hc; exact Hn|].
  fold u C D F in Hp.
  assert (Ep : exp (coeff (snd (normalizedLogProbs m (cast_double input_))) 0 n) = p1)
    by (rewrite Hp; reflexivity).
  split; [symmetry; exact Ep|].
  assert (Eo : icoeff out 0 n =
               if Rlt_dec (Rabs (rnd n)) p1 then 1%Z else 0%Z).
  { unfold out, sample, forward.
    rewrite icoeff_lt_cast_int by (dims; rewrite ?Hc; lia).
    unfold mabs, mexp. rewrite !coeff_cwise by (dims; rewrite ?Hc; lia).
    rewrite coeff_tabulate by (rewrite ?Hc; lia).
    rewrite <- Ep. reflexivity. }
  rewrite Eo. destruct (Rlt_dec (Rabs (rnd n)) p1) as [Hlt|Hge].
  - split; [left; reflexivity | split; auto].
  - split; [right; reflexivity | split; [discriminate | contradiction]].
Qed.

(** Sampling on [storeA] with every draw equal to one half. *)
Lemma sample_draws_one_bit_per_column_witness :
  let input_ := mkMatI 2 2 [1; 0; 0; 1]%Z in
  let rnd := fun n : nat => 1 / 2 in
  let out := sample storeA input_ rnd in
  let N := icols input_ in
  irows out = 1%nat /\ icols out = N /\ length (idata out) = N /\
  forall n, (n < N)%nat ->
    let u := fun d => coeff (cast_double input_) d n in
    let C := mNumComponents storeA in
    let D := mDimIn storeA in
    let F := mNumFeatures storeA in
    let p1 := exp (Spec.logProb1 C D F (theta_store storeA) u
                   - Spec.logNorm C D F (theta_store storeA) u) in
    p1 = exp (coeff (snd (normalizedLogProbs storeA (cast_double input_))) 0 n) /\
    (icoeff out 0 n = 1%Z \/ icoeff out 0 n = 0%Z) /\
    (icoeff out 0 n = 1%Z <-> Rabs (rnd n) < p1).
Proof.
  apply (sample_draws_one_bit_per_column storeA (mkMatI 2 2 [1; 0; 0; 1]%Z)
                                         (fun n : nat => 1 / 2)).
  - repeat split; reflexivity.
  - simpl. lia.
Defined.

(** ** One batch of [computeGradient] *)

Lemma coeff_madd A B i j :
  (i < rows A)%nat -> (j < cols A)%nat ->
  coeff (madd A B) i j = coeff A i j + coeff B i j.
Proof. apply coeff_cwise2. Qed.

Lemma coeff_msub A B i j :
  (i < rows A)%nat -> (j < cols A)%nat ->
  coeff (msub A B) i j = coeff A i j - coeff B i j.
Proof. apply coeff_cwise2. Qed.

Lemma coeff_cmul A B i j :
  (i < rows A)%nat -> (j < cols A)%nat ->
  coeff (cmul A B) i j = coeff A i j * coeff B i j.
Proof. apply coeff_cwise2. Qed.

Lemma coeff_one_minus M i j :
  (i < rows M)%nat -> (j < cols M)%nat ->
  coeff (one_minus M) i j = 1 - coeff M i j.
Proof. apply (coeff_cwise (fun v => 1 - v)). Qed.

Lemma coeff_square M i j :
  (i < rows M)%nat -> (j < cols M)%nat ->
  coeff (square M) i j = coeff M i j * coeff M i j.
Proof. apply (coeff_cwise (fun v => v * v)). Qed.

Lemma coeff_mexp M i j :
  (i < rows M)%nat -> (j < cols M)%nat ->
  coeff (mexp M) i j = exp (coeff M i j).
Proof. apply (coeff_cwise exp). Qed.

Lemma coeff_scale M s i j :
  (i < rows M)%nat -> (j < cols M)%nat ->
  coeff (scale M s) i j = coeff M i j * s.
Proof. apply (coeff_cwise (fun v => v * s)). Qed.

Lemma bindViews_dims m x params :
  let V := bindViews m x params in
  (rows (weights V) = mNumComponents m /\ cols (weights V) = mNumFeatures m) /\
  (rows (features V) = mDimIn m /\ cols (features V) = mNumFeatures m) /\
  (rows (predictors V) = mNumComponents m /\ cols (predictors V) = mDimIn m) /\
  (rows (inputBias V) = mDimIn m /\ cols (inputBias V) = mNumComponents m).
Proof.
  unfold bindViews; cbn [weights features predictors inputBias].
  destruct (trainWeights params), (trainFeatures params),
    (trainPredictors params), (trainInputBias params); repeat split.
Qed.

Lemma rsum_one f : rsum 1 f = f O.
Proof. simpl. lra. Qed.

(** ** Gradient views over the buffer *)

Lemma data_tabulate_nth r c f k :
  (k < r * c)%nat -> nth k (data (tabulate r c f)) 0 = f (k mod r)%nat (k / r)%nat.
Proof. intros Hk. unfold tabulate; simpl. rewrite nth_map_seq by exact Hk. reflexivity. Qed.

Lemma div_mod_flat r k : (k mod r + k / r * r = k)%nat.
Proof. pose proof (Nat.div_mod_eq k r). lia. Qed.

Lemma addTo_length g off r c E :
  (off + r * c <= length g)%nat -> length (addTo g off r c E) = length g.
Proof.
  intros H. unfold addTo, MapStore. apply span_write_length.
  unfold madd, cwise2, tabulate; simpl. rewrite length_map, length_seq. exact H.
Qed.

Lemma addTo_nth g off r c E k :
  (off + r * c <= length g)%nat ->
  nth k (addTo g off r c E) 0
  = nth k g 0 + (if inSpan off r c k
                 then coeff E ((k - off) mod r) ((k - off) / r) else 0).
Proof.
  intros H. unfold addTo, MapStore.
  assert (Hl : length (data (madd (MapMat g off r c) E)) = (r * c)%nat)
    by (unfold madd, cwise2, tabulate; simpl; rewrite length_map, length_seq; reflexivity).
  rewrite span_write_nth by (rewrite Hl; exact H).
  rewrite Hl. unfold inSpan.
  destruct ((off <=? k)%nat && (k <? off + r * c)%nat) eqn:Hin; [|lra].
  apply andb_true_iff in Hin. destruct Hin as [H1 H2].
  apply Nat.leb_le in H1. apply Nat.ltb_lt in H2.
  assert (Hk : (k - off < r * c)%nat) by lia.
  assert (Hr : (0 < r)%nat) by (destruct r; [simpl in Hk; lia | lia]).
  unfold madd, cwise2. cbn [rows cols MapMat].
  rewrite data_tabulate_nth by exact Hk.
  rewrite coeff_MapMat.
  - unfold flat. rewrite div_mod_flat. f_equal. f_equal. lia.
  - apply Nat.mod_upper_bound. lia.
  - apply Nat.Div0.div_lt_upper_bound. exact Hk.
Qed.

Lemma cond_addTo (flag : bool) g off r c E :
  (flag = true -> (off + r * c <= length g)%nat) ->
  let g' := if flag then addTo g off r c E else g in
  length g' = length g /\
  forall k, nth k g' 0
            = nth k g 0 + (if flag && inSpan off r c k
                           then coeff E ((k - off) mod r) ((k - off) / r) else 0).
Proof.
  intros H. destruct flag; cbn [andb].
  - split; [apply addTo_length; auto | intros; apply addTo_nth; auto].
  - split; [reflexivity | intros; lra].
Qed.

Lemma inSpan_bounds off r c k :
  inSpan off r c k = true -> (off <= k /\ k - off < r * c)%nat.
Proof.
  unfold inSpan. intros H. apply andb_true_iff in H. destruct H as [H1 H2].
  apply Nat.leb_le in H1. apply Nat.ltb_lt in H2. lia.
Qed.

Lemma inSpan_cell off r c k :
  inSpan off r c k = true -> ((k - off) mod r < r /\ (k - off) / r < c)%nat.
Proof.
  intros H. apply inSpan_bounds in H. destruct H as [_ H].
  assert (Hr : (0 < r)%nat) by (destruct r; [simpl in H; lia | lia]).
  split; [apply Nat.mod_upper_bound; lia | apply Nat.Div0.div_lt_upper_bound; exact H].
Qed.

Lemma rsum_if (cond : bool) n f :
  (if cond then rsum n f else 0) = rsum n (fun j => if cond then f j else 0).
Proof. destruct cond; [reflexivity | symmetry; apply rsum_zero]. Qed.

Section Batch.
Variables (m : MCBM) (x : buffer) (params : Parameters) (X Y : Matrix) (b w : nat).
Hypotheses (HX : rows X = mDimIn m) (HY : rows Y = 1%nat)
           (HC : (0 < mNumComponents m)%nat).

Let C := mNumComponents m.
Let D := mDimIn m.
Let F := mNumFeatures m.
Let V := bindViews m x params.
Let th := theta_of V.
Let input := middleCols X b w.
Let output := middleCols Y b w.
Let u (j : nat) := fun d => coeff X d (b + j).
Let y (j : nat) := coeff Y 0 (b + j).

Let HV := bindViews_dims m x params.

Let featureOutput := mmul (transpose (features V)) input.
Let featureOutputSq := square featureOutput.
Let logPost0 :=
  colwise_add (madd (mmul (weights V) featureOutputSq)
                    (mmul (transpose (inputBias V)) input)) (priors V).
Let logPost1 := colwise_add (madd logPost0 (mmul (predictors V) input)) (outputBias V).
Let logProb0 := logSumExp logPost0.
Let logProb1 := logSumExp logPost1.
Let logNorm := logSumExp (stack2 (cols input) logProb0 logProb1).

Ltac bdims :=
  unfold C, D, F in *;
  unfold output, input, logNorm, logProb0, logProb1, logPost1, logPost0,
    featureOutputSq, featureOutput, V;
  dims.

Lemma batch_u j d : (j < w)%nat -> (d < D)%nat -> coeff input d j = u j d.
Proof. intros. unfold input, u. apply coeff_middleCols; [rewrite HX|]; assumption. Qed.

Lemma batch_y j : (j < w)%nat -> coeff output 0 j = y j.
Proof. intros. unfold output, y. apply coeff_middleCols; [rewrite HY; lia | assumption]. Qed.

Lemma batch_normProb0 j :
  (j < w)%nat ->
  coeff (msub logProb0 logNorm) 0 j = Spec.logProb0 C D F th (u j) - Spec.logNorm C D F th (u j).
Proof.
  intros Hj. destruct HV as ((?&?)&(?&?)&(?&?)&(?&?)).
  apply (coeff_normProb0 C D F (priors V) (weights V) (features V) (predictors V)
           (inputBias V) (outputBias V) input); auto.
  intros; apply batch_u; assumption.
Qed.

Lemma batch_normProb1 j :
  (j < w)%nat ->
  coeff (msub logProb1 logNorm) 0 j = Spec.logProb1 C D F th (u j) - Spec.logNorm C D F th (u j).
Proof.
  intros Hj. destruct HV as ((?&?)&(?&?)&(?&?)&(?&?)).
  apply (coeff_normProb1 C D F (priors V) (weights V) (features V) (predictors V)
           (inputBias V) (outputBias V) input); auto.
  intros; apply batch_u; assumption.
Qed.

(** The log-likelihood a batch adds is the sum of the conditional
    log-likelihoods of its columns. *)
Lemma batchBody_logLik st :
  fst (batchBody m V params X Y b w st)
  = fst st + rsum w (fun j => Spec.condLogLik C D F th (u j) (y j)).
Proof.
  assert (E : fst (batchBody m V params X Y b w st)
              = fst st + msum (madd (cmul output (msub logProb1 logNorm))
                                    (cmul (one_minus output) (msub logProb0 logNorm))))
    by (unfold batchBody; destruct (snd st); reflexivity).
  rewrite E. f_equal. unfold msum.
  replace (cols (madd _ _)) with w by reflexivity.
  replace (rows (madd _ _)) with (rows Y) by reflexivity. rewrite HY.
  apply rsum_ext. intros j Hj. rewrite rsum_one.
  rewrite coeff_madd by bdims.
  rewrite !coeff_cmul by bdims.
  rewrite coeff_one_minus by bdims.
  rewrite batch_y, batch_normProb0, batch_normProb1 by assumption.
  reflexivity.
Qed.

(** The quantities of step 3, coefficient by coefficient. *)
Let tmp := msub (cmul output (mexp (msub logProb0 logNorm)))
                (cmul (one_minus output) (mexp (msub logProb1 logNorm))).
Let post0Tmp := rowwise_mul (mexp (rowwise_sub logPost0 logProb0)) tmp.
Let post1Tmp := rowwise_mul (mexp (rowwise_sub logPost1 logProb1)) tmp.
Let postDiffTmp := msub post1Tmp post0Tmp.

Ltac gdims :=
  unfold postDiffTmp, post1Tmp, post0Tmp, tmp; bdims.

Lemma batch_tmp j :
  (j < w)%nat -> coeff tmp 0 j = Spec.tmp C D F th (u j) (y j).
Proof.
  intros Hj. unfold tmp, Spec.tmp.
  rewrite coeff_msub by bdims.
  rewrite !coeff_cmul by bdims.
  rewrite coeff_one_minus by bdims.
  rewrite !coeff_mexp by bdims.
  rewrite batch_y, batch_normProb0, batch_normProb1 by assumption.
  reflexivity.
Qed.

Lemma batch_logPost0 c j :
  (c < C)%nat -> (j < w)%nat -> coeff logPost0 c j = Spec.logScore0 D F th (u j) c.
Proof.
  intros Hc Hj. destruct HV as ((?&?)&(?&?)&(?&?)&(?&?)).
  apply (coeff_logPost0 C D F (priors V) (weights V) (features V) (predictors V)
           (inputBias V) (outputBias V) input); auto.
  intros; apply batch_u; assumption.
Qed.

Lemma batch_logPost1 c j :
  (c < C)%nat -> (j < w)%nat -> coeff logPost1 c j = Spec.logScore1 D F th (u j) c.
Proof.
  intros Hc Hj. destruct HV as ((?&?)&(?&?)&(?&?)&(?&?)).
  apply (coeff_logPost1 C D F (priors V) (weights V) (features V) (predictors V)
           (inputBias V) (outputBias V) input); auto.
  intros; apply batch_u; assumption.
Qed.

Lemma batch_logProb0 j :
  (j < w)%nat -> coeff logProb0 0 j = Spec.logProb0 C D F th (u j).
Proof.
  intros Hj. destruct HV as ((?&?)&(?&?)&(?&?)&(?&?)).
  apply (coeff_logProb0 C D F (priors V) (weights V) (features V) (predictors V)
           (inputBias V) (outputBias V) input); auto.
  intros; apply batch_u; assumption.
Qed.

Lemma batch_logProb1 j :
  (j < w)%nat -> coeff logProb1 0 j = Spec.logProb1 C D F th (u j).
Proof.
  intros Hj. destruct HV as ((?&?)&(?&?)&(?&?)&(?&?)).
  apply (coeff_logProb1 C D F (priors V) (weights V) (features V) (predictors V)
           (inputBias V) (outputBias V) input); auto.
  intros; apply batch_u; assumption.
Qed.

Lemma batch_featureOutput f j :
  (f < F)%nat -> (j < w)%nat ->
  coeff featureOutput f j = Spec.featureOutput D th (u j) f.
Proof.
  intros Hf Hj. destruct HV as ((?&?)&(?&?)&(?&?)&(?&?)).
  apply (coeff_featureOutput C D F (priors V) (weights V) (features V) (predictors V)
           (inputBias V) (outputBias V) input); auto.
  intros; apply batch_u; assumption.
Qed.

Lemma batch_post0Tmp c j :
  (c < C)%nat -> (j < w)%nat ->
  coeff post0Tmp c j = Spec.post0Tmp C D F th (u j) (y j) c.
Proof.
  intros Hc Hj. destruct HV as ((?&?)&(?&?)&(?&?)&(?&?)).
  unfold post0Tmp, Spec.post0Tmp.
  rewrite coeff_rowwise_mul by bdims.
  rewrite coeff_mexp by bdims.
  rewrite coeff_rowwise_sub by bdims.
  rewrite batch_logPost0, batch_logProb0, batch_tmp by assumption.
  reflexivity.
Qed.

Lemma batch_post1Tmp c j :
  (c < C)%nat -> (j < w)%nat ->
  coeff post1Tmp c j = Spec.post1Tmp C D F th (u j) (y j) c.
Proof.
  intros Hc Hj. destruct HV as ((?&?)&(?&?)&(?&?)&(?&?)).
  unfold post1Tmp, Spec.post1Tmp.
  rewrite coeff_rowwise_mul by bdims.
  rewrite coeff_mexp by bdims.
  rewrite coeff_rowwise_sub by bdims.
  rewrite batch_logPost1, batch_logProb1, batch_tmp by assumption.
  reflexivity.
Qed.

Lemma batch_postDiff c j :
  (c < C)%nat -> (j < w)%nat ->
  coeff postDiffTmp c j = Spec.postDiff C D F th (u j) (y j) c.
Proof.
  intros Hc Hj. destruct HV as ((?&?)&(?&?)&(?&?)&(?&?)).
  unfold postDiffTmp, Spec.postDiff.
  rewrite coeff_msub by gdims.
  rewrite batch_post0Tmp, batch_post1Tmp by assumption.
  reflexivity.
Qed.

(** The six increments of the gradient views. *)
Lemma batch_gradPriors c :
  (c < C)%nat ->
  coeff (rowwise_sum postDiffTmp) c 0
  = rsum w (fun j => Spec.gradPriors C D F th (u j) (y j) c).
Proof.
  intros Hc. destruct HV as ((?&?)&(?&?)&(?&?)&(?&?)).
  rewrite coeff_rowwise_sum by gdims.
  replace (cols postDiffTmp) with w by reflexivity.
  apply rsum_ext; intros j Hj. apply batch_postDiff; assumption.
Qed.

Lemma batch_gradWeights c f :
  (c < C)%nat -> (f < F)%nat ->
  coeff (mmul postDiffTmp (transpose featureOutputSq)) c f
  = rsum w (fun j => Spec.gradWeights C D F th (u j) (y j) c f).
Proof.
  intros Hc Hf. destruct HV as ((?&?)&(?&?)&(?&?)&(?&?)).
  rewrite coeff_mmul by gdims.
  replace (cols postDiffTmp) with w by reflexivity.
  apply rsum_ext; intros j Hj.
  rewrite coeff_transpose by bdims.
  unfold featureOutputSq. rewrite coeff_square by bdims.
  rewrite batch_postDiff, batch_featureOutput by assumption.
  reflexivity.
Qed.

Lemma batch_gradFeatures d f :
  (d < D)%nat -> (f < F)%nat ->
  coeff (mmul input
              (transpose (cmul featureOutput
                               (scale (mmul (transpose (weights V)) postDiffTmp) 2)))) d f
  = rsum w (fun j => Spec.gradFeatures C D F th (u j) (y j) d f).
Proof.
  intros Hd Hf. destruct HV as ((?&?)&(?&?)&(?&?)&(?&?)).
  rewrite coeff_mmul by bdims.
  replace (cols input) with w by reflexivity.
  apply rsum_ext; intros j Hj.
  rewrite coeff_transpose by bdims.
  rewrite coeff_cmul by bdims.
  rewrite coeff_scale by bdims.
  rewrite coeff_mmul by bdims.
  replace (cols (transpose (weights V))) with C by bdims.
  rewrite batch_u, batch_featureOutput by assumption.
  unfold Spec.gradFeatures. f_equal. f_equal. f_equal.
  apply rsum_ext; intros c Hc.
  rewrite coeff_transpose by bdims.
  rewrite batch_postDiff by assumption. reflexivity.
Qed.

Lemma batch_gradPredictors c d :
  (c < C)%nat -> (d < D)%nat ->
  coeff (mmul post1Tmp (transpose input)) c d
  = rsum w (fun j => Spec.gradPredictors C D F th (u j) (y j) c d).
Proof.
  intros Hc Hd. destruct HV as ((?&?)&(?&?)&(?&?)&(?&?)).
  rewrite coeff_mmul by gdims.
  replace (cols post1Tmp) with w by reflexivity.
  apply rsum_ext; intros j Hj.
  rewrite coeff_transpose by bdims.
  rewrite batch_u, batch_post1Tmp by assumption. reflexivity.
Qed.

Lemma batch_gradInputBias d c :
  (d < D)%nat -> (c < C)%nat ->
  coeff (mmul input (transpose postDiffTmp)) d c
  = rsum w (fun j => Spec.gradInputBias C D F th (u j) (y j) d c).
Proof.
  intros Hd Hc. destruct HV as ((?&?)&(?&?)&(?&?)&(?&?)).
  rewrite coeff_mmul by gdims.
  replace (cols input) with w by reflexivity.
  apply rsum_ext; intros j Hj.
  rewrite coeff_transpose by gdims.
  rewrite batch_u, batch_postDiff by assumption. reflexivity.
Qed.

Lemma batch_gradOutputBias c :
  (c < C)%nat ->
  coeff (rowwise_sum post1Tmp) c 0
  = rsum w (fun j => Spec.gradOutputBias C D F th (u j) (y j) c).
Proof.
  intros Hc. destruct HV as ((?&?)&(?&?)&(?&?)&(?&?)).
  rewrite coeff_rowwise_sum by gdims.
  replace (cols post1Tmp) with w by reflexivity.
  apply rsum_ext; intros j Hj. apply batch_post1Tmp; assumption.
Qed.

(** The six conditional updates of the gradient buffer. *)
Let G1 (g : buffer) :=
  if trainPriors params then addTo g (priorsGrad V) C 1 (rowwise_sum postDiffTmp) else g.
Let G2 (g : buffer) :=
  if trainWeights params
  then addTo g (weightsGrad V) C F (mmul postDiffTmp (transpose featureOutputSq)) else g.
Let G3 (g : buffer) :=
  if trainFeatures params
  then addTo g (featuresGrad V) D F
             (mmul input
                   (transpose (cmul featureOutput
                                    (scale (mmul (transpose (weights V)) postDiffTmp) 2))))
  else g.
Let G4 (g : buffer) :=
  if trainPredictors params
  then addTo g (predictorsGrad V) C D (mmul post1Tmp (transpose input)) else g.
Let G5 (g : buffer) :=
  if trainInputBias params
  then addTo g (inputBiasGrad V) D C (mmul input (transpose postDiffTmp)) else g.
Let G6 (g : buffer) :=
  if trainOutputBias params
  then addTo g (outputBiasGrad V) C 1 (rowwise_sum post1Tmp) else g.

Lemma batchBody_snd st g :
  snd st = Some g ->
  snd (batchBody m V params X Y b w st) = Some (G6 (G5 (G4 (G3 (G2 (G1 g)))))).
Proof. intros Hst. unfold batchBody. rewrite Hst. reflexivity. Qed.

Lemma batchBody_snd_None st :
  snd st = None -> snd (batchBody m V params X Y b w st) = None.
Proof. intros Hst. unfold batchBody. rewrite Hst. reflexivity. Qed.

(** What a batch adds to each cell of the gradient buffer. *)
Lemma batchBody_grad st g :
  snd st = Some g -> (offset V <= length g)%nat ->
  exists g', snd (batchBody m V params X Y b w st) = Some g' /\
    length g' = length g /\
    forall k, nth k g' 0
              = nth k g 0 + rsum w (fun j => gradColumn m V params X Y (b + j) k).
Proof.
  intros Hst Hlen. eexists. split; [apply batchBody_snd; exact Hst|].
  destruct (bindViews_offsets m x params) as (H0 & H1 & H2 & H3 & H4 & H5 & H6).
  fold V C D F in H0, H1, H2, H3, H4, H5, H6.
  assert (Hle : (weightsGrad V <= featuresGrad V <= predictorsGrad V /\
                 predictorsGrad V <= inputBiasGrad V <= outputBiasGrad V /\
                 outputBiasGrad V <= offset V)%nat) by lia.
  destruct (cond_addTo (trainPriors params) g (priorsGrad V) C 1
                       (rowwise_sum postDiffTmp)) as [L1 N1];
    [intros Hf; rewrite Hf in *; lia|].
  fold (G1 g) in L1, N1.
  destruct (cond_addTo (trainWeights params) (G1 g) (weightsGrad V) C F
                       (mmul postDiffTmp (transpose featureOutputSq))) as [L2 N2];
    [intros Hf; rewrite Hf in *; lia|].
  fold (G2 (G1 g)) in L2, N2.
  destruct (cond_addTo (trainFeatures params) (G2 (G1 g)) (featuresGrad V) D F
              (mmul input
                   (transpose (cmul featureOutput
                                    (scale (mmul (transpose (weights V)) postDiffTmp) 2)))))
    as [L3 N3]; [intros Hf; rewrite Hf in *; lia|].
  fold (G3 (G2 (G1 g))) in L3, N3.
  destruct (cond_addTo (trainPredictors params) (G3 (G2 (G1 g))) (predictorsGrad V) C D
                       (mmul post1Tmp (transpose input))) as [L4 N4];
    [intros Hf; rewrite Hf in *; lia|].
  fold (G4 (G3 (G2 (G1 g)))) in L4, N4.
  destruct (cond_addTo (trainInputBias params) (G4 (G3 (G2 (G1 g)))) (inputBiasGrad V) D C
                       (mmul input (transpose postDiffTmp))) as [L5 N5];
    [intros Hf; rewrite Hf in *; lia|].
  fold (G5 (G4 (G3 (G2 (G1 g))))) in L5, N5.
  destruct (cond_addTo (trainOutputBias params) (G5 (G4 (G3 (G2 (G1 g)))))
                       (outputBiasGrad V) C 1 (rowwise_sum post1Tmp)) as [L6 N6];
    [intros Hf; rewrite Hf in *; lia|].
  fold (G6 (G5 (G4 (G3 (G2 (G1 g)))))) in L6, N6.
  split; [lia|].
  intros k. rewrite N6, N5, N4, N3, N2, N1.
  unfold gradColumn. fold C D F V th.
  rewrite !rsum_plus. rewrite !Rplus_assoc. f_equal.
  repeat f_equal.
  - rewrite <- rsum_if. destruct (trainPriors params && inSpan (priorsGrad V) C 1 k) eqn:E; [|reflexivity].
    apply andb_true_iff in E. destruct E as [_ E].
    destruct (inSpan_cell _ _ _ _ E) as [Hi Hj].
    destruct (inSpan_bounds _ _ _ _ E) as [_ Hb].
    rewrite Nat.div_small by lia.
    rewrite Nat.mod_small by lia.
    apply batch_gradPriors. lia.
  - rewrite <- rsum_if. destruct (trainWeights params && inSpan (weightsGrad V) C F k) eqn:E; [|reflexivity].
    apply andb_true_iff in E. destruct E as [_ E].
    destruct (inSpan_cell _ _ _ _ E) as [Hi Hj].
    apply batch_gradWeights; assumption.
  - rewrite <- rsum_if. destruct (trainFeatures params && inSpan (featuresGrad V) D F k) eqn:E; [|reflexivity].
    apply andb_true_iff in E. destruct E as [_ E].
    destruct (inSpan_cell _ _ _ _ E) as [Hi Hj].
    apply batch_gradFeatures; assumption.
  - rewrite <- rsum_if. destruct (trainPredictors params && inSpan (predictorsGrad V) C D k) eqn:E; [|reflexivity].
    apply andb_true_iff in E. destruct E as [_ E].
    destruct (inSpan_cell _ _ _ _ E) as [Hi Hj].
    apply batch_gradPredictors; assumption.
  - rewrite <- rsum_if. destruct (trainInputBias params && inSpan (inputBiasGrad V) D C k) eqn:E; [|reflexivity].
    apply andb_true_iff in E. destruct E as [_ E].
    destruct (inSpan_cell _ _ _ _ E) as [Hi Hj].
    apply batch_gradInputBias; assumption.
  - rewrite <- rsum_if. destruct (trainOutputBias params && inSpan (outputBiasGrad V) C 1 k) eqn:E; [|reflexivity].
    apply andb_true_iff in E. destruct E as [_ E].
    destruct (inSpan_cell _ _ _ _ E) as [Hi Hj].
    destruct (inSpan_bounds _ _ _ _ E) as [_ Hb].
    rewrite Nat.div_small by lia.
    rewrite Nat.mod_small by lia.
    apply batch_gradOutputBias. lia.
Qed.

End Batch.

(** ** The batch loop *)

(** With a positive batch size the loop returns, and it carries any
    invariant indexed by the number of columns processed so far. *)
Lemma batchLoop_inv {St : Type} (body : nat -> nat -> St -> St) N bs
      (Inv : nat -> St -> Prop) :
  (1 <= bs)%nat ->
  (forall b st, (b < N)%nat -> Inv b st ->
                Inv (b + Nat.min bs (N - b))%nat (body b (Nat.min bs (N - b)) st)) ->
  forall fuel b st,
    (N - b <= fuel)%nat -> Inv (Nat.min b N) st ->
    exists st', batchLoop body N bs fuel b st = Returns st' /\ Inv N st'.
Proof.
  intros Hbs Hstep. induction fuel as [|fuel IH]; intros b st Hfuel Hinv.
  - simpl. destruct (Nat.leb_spec N b) as [Hle|Hlt]; [|lia].
    exists st. split; [reflexivity|].
    replace (Nat.min b N) with N in Hinv by lia. exact Hinv.
  - simpl. destruct (Nat.leb_spec N b) as [Hle|Hlt].
    + exists st. split; [reflexivity|].
      replace (Nat.min b N) with N in Hinv by lia. exact Hinv.
    + apply IH; [lia|].
      replace (Nat.min b N) with b in Hinv by lia.
      replace (Nat.min (b + bs) N) with (b + Nat.min bs (N - b))%nat by lia.
      apply Hstep; assumption.
Qed.

(** With a batch size of zero the loop counter never advances. *)
Lemma batchLoop_stuck {St : Type} (body : nat -> nat -> St -> St) N fuel st :
  (0 < N)%nat -> batchLoop body N 0 fuel 0 st = NoResult.
Proof.
  intros HN. revert st. induction fuel as [|fuel IH]; intros st; simpl;
    destruct (Nat.leb_spec N 0); try lia; [reflexivity | apply IH].
Qed.

(** ** Initialization and final scaling of the gradient buffer *)

Lemma setZero_length g off r c :
  (off + r * c <= length g)%nat -> length (setZero g off r c) = length g.
Proof.
  intros H. unfold setZero, MapStore. apply span_write_length.
  unfold Zero, tabulate; simpl. rewrite length_map, length_seq. exact H.
Qed.

Lemma setZero_nth g off r c k :
  (off + r * c <= length g)%nat ->
  nth k (setZero g off r c) 0 = if inSpan off r c k then 0 else nth k g 0.
Proof.
  intros H. unfold setZero, MapStore.
  assert (Hl : length (data (Zero r c)) = (r * c)%nat)
    by (unfold Zero, tabulate; simpl; rewrite length_map, length_seq; reflexivity).
  rewrite span_write_nth by (rewrite Hl; exact H).
  rewrite Hl. unfold inSpan.
  destruct ((off <=? k)%nat && (k <? off + r * c)%nat) eqn:Hin; [|reflexivity].
  apply andb_true_iff in Hin. destruct Hin as [H1 H2].
  apply Nat.leb_le in H1. apply Nat.ltb_lt in H2.
  unfold Zero. rewrite data_tabulate_nth by lia. reflexivity.
Qed.

(** One conditional [setZero] extends the zeroed prefix by one group. *)
Lemma cond_setZero (flag : bool) (g0 g : buffer) off off' r c :
  off' = (off + (if flag then r * c else 0))%nat ->
  (off' <= length g0)%nat ->
  (length g = length g0 /\
   forall k, nth k g 0 = if (k <? off)%nat then 0 else nth k g0 0) ->
  length (if flag then setZero g off r c else g) = length g0 /\
  forall k, nth k (if flag then setZero g off r c else g) 0
            = if (k <? off')%nat then 0 else nth k g0 0.
Proof.
  intros -> Hoff [Hl Hn]. destruct flag.
  - split; [rewrite setZero_length; lia|].
    intros k. rewrite setZero_nth, Hn by lia. unfold inSpan.
    destruct (Nat.leb_spec off k); destruct (Nat.ltb_spec k (off + r * c));
      destruct (Nat.ltb_spec k off); simpl; try lia; reflexivity.
  - rewrite Nat.add_0_r. split; assumption.
Qed.

Lemma initGradients_spec m x params g :
  let V := bindViews m x params in
  (offset V <= length g)%nat ->
  exists gz, initGradients m V params (Some g) = Some gz /\
    length gz = length g /\
    forall k, nth k gz 0 = if (k <? offset V)%nat then 0 else nth k g 0.
Proof.
  intros V Hlen. eexists. split; [reflexivity|].
  destruct (bindViews_offsets m x params) as (H0 & H1 & H2 & H3 & H4 & H5 & H6).
  fold V in H0, H1, H2, H3, H4, H5, H6.
  assert (Hle : (weightsGrad V <= featuresGrad V <= predictorsGrad V /\
                 predictorsGrad V <= inputBiasGrad V <= outputBiasGrad V /\
                 outputBiasGrad V <= offset V)%nat) by lia.
  assert (P0 : length g = length g /\
               forall k, nth k g 0 = if (k <? priorsGrad V)%nat then 0 else nth k g 0)
    by (rewrite H0; split; [reflexivity | intros; reflexivity]).
  pose proof (cond_setZero (trainPriors params) g g (priorsGrad V) (weightsGrad V)
                (mNumComponents m) 1 ltac:(rewrite H0; exact H1) ltac:(lia) P0) as P1.
  pose proof (cond_setZero (trainWeights params) g _ _ _ _ _ H2 ltac:(lia) P1) as P2.
  pose proof (cond_setZero (trainFeatures params) g _ _ _ _ _ H3 ltac:(lia) P2) as P3.
  pose proof (cond_setZero (trainPredictors params) g _ _ _ _ _ H4 ltac:(lia) P3) as P4.
  pose proof (cond_setZero (trainInputBias params) g _ _ _ _ _ H5 ltac:(lia) P4) as P5.
  pose proof (cond_setZero (trainOutputBias params) g _ _ _ _ _ H6 ltac:(lia) P5) as P6.
  exact P6.
Qed.

Lemma div_prefix_length off c (g : buffer) : length (div_prefix off c g) = length g.
Proof.
  unfold div_prefix. rewrite length_app, length_map, length_firstn, length_skipn. lia.
Qed.

Lemma div_prefix_nth off c (g : buffer) k :
  nth k (div_prefix off c g) 0
  = if (k <? off)%nat && (k <? length g)%nat then nth k g 0 / c else nth k g 0.
Proof.
  unfold div_prefix.
  destruct (Nat.ltb_spec k off) as [H1|H1]; destruct (Nat.ltb_spec k (length g)) as [H2|H2];
    cbn [andb].
  - rewrite app_nth1 by (rewrite length_map, length_firstn; lia).
    rewrite (nth_indep _ 0 ((fun v => v / c) 0))
      by (rewrite length_map, length_firstn; lia).
    rewrite (map_nth (fun v => v / c)), nth_firstn.
    destruct (Nat.ltb_spec k off); [reflexivity | lia].
  - rewrite !nth_overflow; try lia; [reflexivity|].
    rewrite length_app, length_map, length_firstn, length_skipn. lia.
  - rewrite app_nth2 by (rewrite length_map, length_firstn; lia).
    rewrite length_map, length_firstn, nth_skipn. f_equal. lia.
  - rewrite !nth_overflow; try lia; [reflexivity|].
    rewrite length_app, length_map, length_firstn, length_skipn. lia.
Qed.

(** Cells at or beyond [offset] receive no contribution. *)
Lemma gradColumn_outside m x params I O n k :
  let V := bindViews m x params in
  (offset V <= k)%nat -> gradColumn m V params I O n k = 0.
Proof.
  intros V Hk.
  destruct (bindViews_offsets m x params) as (H0 & H1 & H2 & H3 & H4 & H5 & H6).
  fold V in H0, H1, H2, H3, H4, H5, H6.
  assert (Hle : (weightsGrad V <= featuresGrad V <= predictorsGrad V /\
                 predictorsGrad V <= inputBiasGrad V <= outputBiasGrad V /\
                 outputBiasGrad V <= offset V)%nat) by lia.
  unfold gradColumn. fold V.
  assert (Hout : forall (flag : bool) off r c,
             (off + (if flag then r * c else 0) <= offset V)%nat ->
             flag && inSpan off r c k = false).
  { intros flag off r c Hb. destruct flag; [|reflexivity]. unfold inSpan. cbn [andb].
    destruct (Nat.leb_spec off k); destruct (Nat.ltb_spec k (off + r * c));
      simpl; try reflexivity; lia. }
  rewrite !Hout by lia. lra.
Qed.

(** ** Closed form of [computeGradient] *)

Section Closed.
Variables (m : MCBM) (X Y : Matrix) (x : buffer) (params : Parameters).
Hypotheses (HX : rows X = mDimIn m) (HY : rows Y = 1%nat)
           (HC : (0 < mNumComponents m)%nat)
           (Hbs : (1 <= batchSize params)%Z \/ cols X = 0%nat).

Let C := mNumComponents m.
Let D := mDimIn m.
Let F := mNumFeatures m.
Let V := bindViews m x params.
Let N := cols X.
Let ll (n : nat) :=
  Spec.condLogLik C D F (theta_of V) (fun d => coeff X d n) (coeff Y 0 n).

(** The loop invariant after [p] columns, from the initial state [(0, gz)]. *)
Let Inv (gz : option buffer) (p : nat) (st : R * option buffer) : Prop :=
  fst st = rsum p ll /\
  match gz, snd st with
  | None, None => True
  | Some gz, Some g =>
    length g = length gz /\
    forall k, nth k g 0 = nth k gz 0 + rsum p (fun n => gradColumn m V params X Y n k)
  | _, _ => False
  end.

Lemma batchBody_Inv gz b w st :
  (forall g, gz = Some g -> (offset V <= length g)%nat) ->
  Inv gz b st -> Inv gz (b + w) (batchBody m V params X Y b w st).
Proof.
  intros Hlen [Hll Hg]. split.
  - unfold V. rewrite batchBody_logLik by assumption. rewrite Hll.
    rewrite rsum_app. reflexivity.
  - destruct gz as [gz|]; destruct (snd st) as [g|] eqn:Hst; try contradiction.
    + destruct Hg as [Hl Hn].
      destruct (batchBody_grad m x params X Y b w HX HY HC st g Hst) as (g' & E & L & Nn).
      { rewrite Hl. apply Hlen. reflexivity. }
      fold V in E, Nn. rewrite E. split; [lia|].
      intros k. rewrite Nn, Hn, rsum_app. lra.
    + unfold V. rewrite batchBody_snd_None by exact Hst. exact I.
Qed.

Lemma batchLoop_closed gz :
  (forall g, gz = Some g -> (offset V <= length g)%nat) ->
  exists st,
    batchLoop (batchBody m V params X Y) N
              (Z.to_nat (Z.min (batchSize params) (Z.of_nat N))) N 0 (0, gz)
    = Returns st /\ Inv gz N st.
Proof.
  intros Hlen.
  assert (Hinit : Inv gz 0 (0, gz)).
  { split; [reflexivity|]. cbn [snd]. destruct gz as [gz|]; [|exact I].
    split; [reflexivity | intros; simpl; lra]. }
  destruct (Nat.eq_dec N 0) as [HN0|HN0].
  - (* an empty data set: the guard of the loop fails at once *)
    rewrite HN0. exists (0, gz). split; [reflexivity | exact Hinit].
  - destruct Hbs as [Hb|Hb]; [|contradiction].
    apply (batchLoop_inv _ N _ (Inv gz)).
    + lia.
    + intros b st Hb' HInv. apply batchBody_Inv; assumption.
    + lia.
    + exact Hinit.
Qed.

(** The value returned and the gradient buffer written, in closed form. *)
Lemma computeGradient_closed g :
  (forall gb, g = Some gb -> (offset V <= length gb)%nat) ->
  exists g',
    computeGradient m X Y x g params
    = Returns (Spec.objective C D F (theta_of V) X Y, g') /\
    match g, g' with
    | None, None => True
    | Some gb, Some gb' =>
      length gb' = length gb /\
      forall k, nth k gb' 0
                = if (k <? offset V)%nat
                  then rsum N (fun n => gradColumn m V params X Y n k) / normConst X
                  else nth k gb 0
    | _, _ => False
    end.
Proof.
  intros Hlen. unfold computeGradient. cbv zeta. fold V. fold N.
  destruct g as [gb|].
  - destruct (initGradients_spec m x params gb (Hlen gb eq_refl)) as (gz & Ez & Lz & Nz).
    fold V in Ez, Nz. rewrite Ez.
    destruct (batchLoop_closed (Some gz)) as (st & Est & Hll & Hg).
    { intros g0 E0. injection E0 as <-. rewrite Lz. apply Hlen. reflexivity. }
    cbn [snd] in Hg.
    destruct (snd st) as [gl|] eqn:Hst; [|contradiction].
    destruct Hg as [Ll Nl].
    exists (Some (div_prefix (offset V) (normConst X) gl)).
    split; [rewrite Est; cbn [bind]; rewrite Hst, Hll; reflexivity|].
    split; [rewrite div_prefix_length; lia|].
    intros k. rewrite div_prefix_nth, Nl, Nz.
    destruct (Nat.ltb_spec k (offset V)) as [Hk|Hk]; cbn [andb].
    + replace (k <? length gl)%nat with true
        by (symmetry; apply Nat.ltb_lt; specialize (Hlen gb eq_refl); lia).
      f_equal. lra.
    + rewrite (rsum_ext N _ (fun _ => 0))
        by (intros; apply gradColumn_outside; exact Hk).
      rewrite rsum_zero. lra.
  - cbn [initGradients].
    destruct (batchLoop_closed None) as (st & Est & Hll & Hg); [discriminate|].
    cbn [snd] in Hg.
    destruct (snd st) as [gl|] eqn:Hst; [contradiction|].
    exists None.
    split; [rewrite Est; cbn [bind]; rewrite Hst, Hll; reflexivity | exact I].
Qed.

End Closed.

(** ** Batching *)

Lemma ln2_pos : 0 < ln 2.
Proof. rewrite <- ln_1. apply ln_increasing; lra. Qed.

Lemma normConst_pos X : (1 <= cols X)%nat -> 0 < normConst X.
Proof.
  intros H. unfold normConst. apply Rdiv_lt_0_compat; [|apply ln2_pos].
  apply lt_0_INR. lia.
Qed.

(** C4. The value and the gradient buffer that [computeGradient] returns
    do not depend on the batch size: any two positive batch sizes give the
    same outcome, namely the sum over all columns divided once by
    [N / ln 2]. *)
Theorem computeGradient_batch_invariant
        (m : MCBM) (X Y : Matrix) (x : buffer) (g : option buffer)
        (params : Parameters) (b b' : Z) :
  wfMCBM m -> rows X = mDimIn m -> rows Y = 1%nat -> cols X = cols Y ->
  (0 < mNumComponents m)%nat ->
  (numParameters m params <= length x)%nat ->
  (forall gb, g = Some gb -> (numParameters m params <= length gb)%nat) ->
  (1 <= b)%Z -> (1 <= b')%Z ->
  computeGradient m X Y x g (withBatchSize params b)
  = computeGradient m X Y x g (withBatchSize params b') /\
  exists g',
    computeGradient m X Y x g (withBatchSize params b)
    = Returns (Spec.objective (mNumComponents m) (mDimIn m) (mNumFeatures m)
                              (theta_of (bindViews m x params)) X Y, g').
Proof.
  intros Hwf HX HY Hcols HC Hx Hg Hb Hb'.
  assert (Hoff : forall bs gb, g = Some gb ->
             (offset (bindViews m x (withBatchSize params bs)) <= length gb)%nat).
  { intros bs gb E. change (bindViews m x (withBatchSize params bs))
      with (bindViews m x params).
    rewrite (offset_numParameters m x params Hwf). apply Hg. exact E. }
  destruct (computeGradient_closed m X Y x (withBatchSize params b) HX HY HC
              (or_introl Hb) g (Hoff b)) as (g1 & E1 & P1).
  destruct (computeGradient_closed m X Y x (withBatchSize params b') HX HY HC
              (or_introl Hb') g (Hoff b')) as (g2 & E2 & P2).
  change (bindViews m x (withBatchSize params b)) with (bindViews m x params) in *.
  change (bindViews m x (withBatchSize params b')) with (bindViews m x params) in *.
  assert (Eg : g1 = g2).
  { destruct g as [gb|]; destruct g1 as [g1|]; destruct g2 as [g2|];
      try contradiction; [|reflexivity].
    destruct P1 as [L1 N1], P2 as [L2 N2]. f_equal.
    apply (nth_ext _ _ 0 0); [lia|].
    intros k _. rewrite N1, N2. reflexivity. }
  split; [rewrite E1, E2, Eg; reflexivity | exists g1; exact E1].
Qed.

(** Three columns, one at a time and all at once. *)
Lemma computeGradient_batch_invariant_witness :
  computeGradient storeA inputA outputA [30; 40; 50; 60] (Some [0; 0; 0; 0])
                  (withBatchSize paramsWO 1)
  = computeGradient storeA inputA outputA [30; 40; 50; 60] (Some [0; 0; 0; 0])
                    (withBatchSize paramsWO 3) /\
  exists g',
    computeGradient storeA inputA outputA [30; 40; 50; 60] (Some [0; 0; 0; 0])
                    (withBatchSize paramsWO 1)
    = Returns (Spec.objective (mNumComponents storeA) (mDimIn storeA) (mNumFeatures storeA)
                 (theta_of (bindViews storeA [30; 40; 50; 60] paramsWO)) inputA outputA, g').
Proof.
  apply (computeGradient_batch_invariant storeA inputA outputA [30; 40; 50; 60]
           (Some [0; 0; 0; 0]) paramsWO 1 3).
  - repeat split; reflexivity.
  - reflexivity.
  - reflexivity.
  - reflexivity.
  - simpl. lia.
  - vm_compute. lia.
  - intros gb E. injection E as <-. vm_compute. lia.
  - lia.
  - lia.
Defined.

(** ** The empty data set *)

(** With no column the loop body never runs and nothing is rejected: the
    initial state is what gets divided by [normConst], which is zero. *)
Lemma computeGradient_empty m X Y x g params :
  cols X = 0%nat ->
  let V := bindViews m x params in
  computeGradient m X Y x g params
  = Returns (0 / normConst X,
             option_map (div_prefix (offset V) (normConst X))
                        (initGradients m V params g)).
Proof.
  intros H V. unfold computeGradient. cbv zeta. rewrite H. reflexivity.
Qed.

Lemma normConst_empty X : cols X = 0%nat -> normConst X = 0.
Proof. intros H. unfold normConst. rewrite H. simpl. lra. Qed.

(** C9, as stated, fails: a data set without columns is processed, not
    rejected. *)
Lemma computeGradient_accepts_empty_batch :
  ~ (cols inputEmpty = 0%nat ->
     exists msg,
       computeGradient storeA inputEmpty outputEmpty
                       (parameters storeA defaultParameters) None defaultParameters
       = Throws msg).
Proof.
  intros H. destruct (H eq_refl) as [msg E].
  rewrite computeGradient_empty in E by reflexivity. discriminate E.
Qed.

(** C9, amended. On a data set with at least one column (well-shaped
    data, a positive batch size) [computeGradient] completes, and its
    final normalization divides the accumulated log-likelihood, and every
    gradient cell it wrote, by the nonzero (positive) constant
    [N / ln 2].  A data set without columns is not rejected: no exception
    is raised, the batch loop ends at once and leaves the sums as they
    were initialized, and the divisor [normConst] is zero, so that the
    code divides zero by zero. *)
Theorem normConst_nonzero_iff_nonempty
        (m : MCBM) (X Y : Matrix) (x : buffer) (g : option buffer)
        (params : Parameters) :
  let V := bindViews m x params in
  let N := cols X in
  ((1 <= N)%nat ->
   rows X = mDimIn m -> rows Y = 1%nat -> (0 < mNumComponents m)%nat ->
   (1 <= batchSize params)%Z ->
   (forall gb, g = Some gb -> (offset V <= length gb)%nat) ->
   normConst X = INR N / ln 2 /\ 0 < normConst X /\ normConst X <> 0 /\
   exists g',
     computeGradient m X Y x g params
     = Returns (rsum N (fun n =>
                          Spec.condLogLik (mNumComponents m) (mDimIn m) (mNumFeatures m)
                                          (theta_of V) (fun d => coeff X d n)
                                          (coeff Y 0 n))
                / (INR N / ln 2), g') /\
     match g, g' with
     | None, None => True
     | Some gb, Some gb' =>
       length gb' = length gb /\
       forall k, nth k gb' 0
                 = if (k <? offset V)%nat
                   then rsum N (fun n => gradColumn m V params X Y n k) / (INR N / ln 2)
                   else nth k gb 0
     | _, _ => False
     end) /\
  (N = 0%nat ->
   normConst X = 0 /\
   (forall msg, computeGradient m X Y x g params <> Throws msg) /\
   computeGradient m X Y x g params <> NoResult /\
   batchLoop (batchBody m V params X Y) N
             (Z.to_nat (Z.min (batchSize params) (Z.of_nat N))) N 0
             (0, initGradients m V params g)
   = Returns (0, initGradients m V params g)).
Proof.
  intros V N. split.
  - intros HN HX HY HC Hb Hlen.
    pose proof (normConst_pos X HN) as Hpos.
    split; [reflexivity|]. split; [exact Hpos|]. split; [lra|].
    destruct (computeGradient_closed m X Y x params HX HY HC (or_introl Hb) g Hlen)
      as (g' & E & P).
    exists g'. split; [exact E | exact P].
  - intros HN. split; [apply normConst_empty; exact HN|].
    pose proof (computeGradient_empty m X Y x g params HN) as E. cbv zeta in E.
    split; [intros msg; rewrite E; discriminate|].
    split; [rewrite E; discriminate|].
    unfold N in *. rewrite HN. reflexivity.
Qed.

(** The three columns of [inputA], weights and output bias trained. *)
Lemma normConst_nonzero_iff_nonempty_witness :
  let x := parameters storeA paramsWO in
  let V := bindViews storeA x paramsWO in
  normConst inputA = INR 3 / ln 2 /\ 0 < normConst inputA /\ normConst inputA <> 0 /\
  exists g',
    computeGradient storeA inputA outputA x (Some [0; 0; 0; 0]) paramsWO
    = Returns (rsum 3 (fun n =>
                         Spec.condLogLik 2 2 1 (theta_of V) (fun d => coeff inputA d n)
                                         (coeff outputA 0 n))
               / (INR 3 / ln 2), g') /\
    match g' with
    | Some gb' =>
      length gb' = 4%nat /\
      forall k, nth k gb' 0
                = if (k <? offset V)%nat
                  then rsum 3 (fun n => gradColumn storeA V paramsWO inputA outputA n k)
                       / (INR 3 / ln 2)
                  else nth k [0; 0; 0; 0] 0
    | None => False
    end.
Proof.
  apply (proj1 (normConst_nonzero_iff_nonempty storeA inputA outputA
                  (parameters storeA paramsWO) (Some [0; 0; 0; 0]) paramsWO)).
  - simpl. lia.
  - reflexivity.
  - reflexivity.
  - simpl. lia.
  - simpl. lia.
  - intros gb E. injection E as <-. vm_compute. lia.
Defined.

(** ** Derivatives *)

Lemma dlim_ext (f g : R -> R) x l :
  (forall t, f t = g t) -> derivable_pt_lim f x l -> derivable_pt_lim g x l.
Proof.
  intros E H eps Heps. destruct (H eps Heps) as [delta Hd].
  exists delta. intros h Hh Hlt. rewrite <- !E. apply Hd; assumption.
Qed.

Lemma dlim_eq (f : R -> R) x l l' :
  l = l' -> derivable_pt_lim f x l -> derivable_pt_lim f x l'.
Proof. intros <-. exact (fun H => H). Qed.

Lemma dlim_const (a x : R) : derivable_pt_lim (fun _ => a) x 0.
Proof. exact (derivable_pt_lim_const a x). Qed.

Lemma dlim_id (x : R) : derivable_pt_lim (fun t => t) x 1.
Proof. exact (derivable_pt_lim_id x). Qed.

Lemma dlim_plus (f g : R -> R) x lf lg :
  derivable_pt_lim f x lf -> derivable_pt_lim g x lg ->
  derivable_pt_lim (fun t => f t + g t) x (lf + lg).
Proof. exact (derivable_pt_lim_plus f g x lf lg). Qed.

Lemma dlim_minus (f g : R -> R) x lf lg :
  derivable_pt_lim f x lf -> derivable_pt_lim g x lg ->
  derivable_pt_lim (fun t => f t - g t) x (lf - lg).
Proof. exact (derivable_pt_lim_minus f g x lf lg). Qed.

Lemma dlim_mult (f g : R -> R) x lf lg :
  derivable_pt_lim f x lf -> derivable_pt_lim g x lg ->
  derivable_pt_lim (fun t => f t * g t) x (lf * g x + f x * lg).
Proof. exact (derivable_pt_lim_mult f g x lf lg). Qed.

Lemma dlim_scal_l (a : R) (f : R -> R) x lf :
  derivable_pt_lim f x lf -> derivable_pt_lim (fun t => a * f t) x (a * lf).
Proof.
  intros H. apply (dlim_eq _ _ (0 * f x + a * lf)); [lra|].
  apply (dlim_mult (fun _ => a) f); [apply dlim_const | exact H].
Qed.

Lemma dlim_scal_r (a : R) (f : R -> R) x lf :
  derivable_pt_lim f x lf -> derivable_pt_lim (fun t => f t * a) x (lf * a).
Proof.
  intros H. apply (dlim_eq _ _ (lf * a + f x * 0)); [lra|].
  apply (dlim_mult f (fun _ => a)); [exact H | apply dlim_const].
Qed.

Lemma dlim_exp (f : R -> R) x lf :
  derivable_pt_lim f x lf -> derivable_pt_lim (fun t => exp (f t)) x (exp (f x) * lf).
Proof.
  intros H. exact (derivable_pt_lim_comp f exp x lf (exp (f x)) H (derivable_pt_lim_exp (f x))).
Qed.

Lemma dlim_ln (f : R -> R) x lf :
  0 < f x ->
  derivable_pt_lim f x lf -> derivable_pt_lim (fun t => ln (f t)) x (/ f x * lf).
Proof.
  intros Hpos H.
  exact (derivable_pt_lim_comp f ln x lf (/ f x) H (derivable_pt_lim_ln (f x) Hpos)).
Qed.

Lemma dlim_rsum n (f : nat -> R -> R) x (l : nat -> R) :
  (forall k, (k < n)%nat -> derivable_pt_lim (f k) x (l k)) ->
  derivable_pt_lim (fun t => rsum n (fun k => f k t)) x (rsum n l).
Proof.
  induction n as [|n IH]; intros H; simpl.
  - apply dlim_const.
  - apply (dlim_plus (fun t => rsum n (fun k => f k t)) (f n)).
    + apply IH. intros; apply H; lia.
    + apply H. lia.
Qed.

(** The derivative of a log-sum-exp is the softmax-weighted sum of the
    derivatives of its terms. *)
Lemma dlim_lse n (s : nat -> R -> R) x (ds : nat -> R) :
  (0 < n)%nat ->
  (forall c, (c < n)%nat -> derivable_pt_lim (s c) x (ds c)) ->
  derivable_pt_lim (fun t => Spec.lse n (fun c => s c t)) x
    (rsum n (fun c => exp (s c x - Spec.lse n (fun c => s c x)) * ds c)).
Proof.
  intros Hn Hs. unfold Spec.lse.
  set (S0 := rsum n (fun i => exp (s i x))).
  assert (Hpos : 0 < S0) by (apply rsum_pos; [exact Hn | intros; apply exp_pos]).
  apply (dlim_eq _ _ (/ S0 * rsum n (fun c => exp (s c x) * ds c))).
  - rewrite <- rsum_scal_l. apply rsum_ext. intros c Hc.
    unfold Rminus. rewrite exp_plus, exp_Ropp, exp_ln by exact Hpos. field. lra.
  - apply (dlim_ln (fun t => rsum n (fun i => exp (s i t)))); [exact Hpos|].
    apply (dlim_rsum n (fun i t => exp (s i t))). intros c Hc.
    apply dlim_exp. apply Hs. exact Hc.
Qed.

Section SpecDeriv.
(** Parameters moving along a curve [th], with velocity [dth] at [t0]. *)
Variables (C D F : nat) (th : R -> Theta) (dth : Theta) (u : nat -> R) (y t0 : R).
Hypotheses
  (HC : (0 < C)%nat)
  (HdP : forall c, (c < C)%nat ->
           derivable_pt_lim (fun t => thPriors (th t) c) t0 (thPriors dth c))
  (HdW : forall c f, (c < C)%nat -> (f < F)%nat ->
           derivable_pt_lim (fun t => thWeights (th t) c f) t0 (thWeights dth c f))
  (HdF : forall d f, (d < D)%nat -> (f < F)%nat ->
           derivable_pt_lim (fun t => thFeatures (th t) d f) t0 (thFeatures dth d f))
  (HdPr : forall c d, (c < C)%nat -> (d < D)%nat ->
           derivable_pt_lim (fun t => thPredictors (th t) c d) t0 (thPredictors dth c d))
  (HdIB : forall d c, (d < D)%nat -> (c < C)%nat ->
           derivable_pt_lim (fun t => thInputBias (th t) d c) t0 (thInputBias dth d c))
  (HdOB : forall c, (c < C)%nat ->
           derivable_pt_lim (fun t => thOutputBias (th t) c) t0 (thOutputBias dth c)).

Lemma d_featureOutput f :
  (f < F)%nat ->
  derivable_pt_lim (fun t => Spec.featureOutput D (th t) u f) t0
                   (Spec.dfeatureOutput D dth u f).
Proof.
  intros Hf. unfold Spec.featureOutput, Spec.dfeatureOutput.
  apply (dlim_rsum D (fun d t => thFeatures (th t) d f * u d) t0
                   (fun d => thFeatures dth d f * u d)).
  intros d Hd. apply (dlim_scal_r (u d) (fun t => thFeatures (th t) d f)).
  apply HdF; assumption.
Qed.

Lemma d_logScore0 c :
  (c < C)%nat ->
  derivable_pt_lim (fun t => Spec.logScore0 D F (th t) u c) t0
                   (Spec.dlogScore0 D F (th t0) dth u c).
Proof.
  intros Hc. unfold Spec.logScore0, Spec.dlogScore0.
  apply (dlim_plus (fun t => Spec.featureEnergy D F (th t) u c
                             + Spec.biasEnergy D (th t) u c)
                   (fun t => thPriors (th t) c)); [|apply HdP; exact Hc].
  apply (dlim_plus (fun t => Spec.featureEnergy D F (th t) u c)
                   (fun t => Spec.biasEnergy D (th t) u c)).
  - unfold Spec.featureEnergy.
    apply (dlim_rsum F
             (fun f t => thWeights (th t) c f
                         * (Spec.featureOutput D (th t) u f * Spec.featureOutput D (th t) u f))
             t0
             (fun f => thWeights dth c f
                       * (Spec.featureOutput D (th t0) u f * Spec.featureOutput D (th t0) u f)
                       + thWeights (th t0) c f
                         * (2 * Spec.featureOutput D (th t0) u f
                            * Spec.dfeatureOutput D dth u f))).
    intros f Hf.
    pose proof (d_featureOutput f Hf) as Hfo.
    pose proof (dlim_mult _ _ _ _ _ Hfo Hfo) as Hsq.
    pose proof (dlim_mult _ _ _ _ _ (HdW c f Hc Hf) Hsq) as Hw.
    cbv beta in Hw. eapply dlim_eq; [|exact Hw]. ring.
  - unfold Spec.biasEnergy.
    apply (dlim_rsum D (fun d t => thInputBias (th t) d c * u d) t0
                     (fun d => thInputBias dth d c * u d)).
    intros d Hd. apply (dlim_scal_r (u d) (fun t => thInputBias (th t) d c)).
    apply HdIB; assumption.
Qed.

Lemma d_logScore1 c :
  (c < C)%nat ->
  derivable_pt_lim (fun t => Spec.logScore1 D F (th t) u c) t0
                   (Spec.dlogScore1 D F (th t0) dth u c).
Proof.
  intros Hc. unfold Spec.logScore1, Spec.dlogScore1.
  apply (dlim_plus (fun t => Spec.logScore0 D F (th t) u c
                             + Spec.predictorEnergy D (th t) u c)
                   (fun t => thOutputBias (th t) c)); [|apply HdOB; exact Hc].
  apply (dlim_plus (fun t => Spec.logScore0 D F (th t) u c)
                   (fun t => Spec.predictorEnergy D (th t) u c)).
  - apply d_logScore0. exact Hc.
  - unfold Spec.predictorEnergy.
    apply (dlim_rsum D (fun d t => thPredictors (th t) c d * u d) t0
                     (fun d => thPredictors dth c d * u d)).
    intros d Hd. apply (dlim_scal_r (u d) (fun t => thPredictors (th t) c d)).
    apply HdPr; assumption.
Qed.

Let dlogProb0 : R :=
  rsum C (fun c => exp (Spec.logScore0 D F (th t0) u c - Spec.logProb0 C D F (th t0) u)
                   * Spec.dlogScore0 D F (th t0) dth u c).
Let dlogProb1 : R :=
  rsum C (fun c => exp (Spec.logScore1 D F (th t0) u c - Spec.logProb1 C D F (th t0) u)
                   * Spec.dlogScore1 D F (th t0) dth u c).

Lemma d_logProb0 :
  derivable_pt_lim (fun t => Spec.logProb0 C D F (th t) u) t0 dlogProb0.
Proof.
  unfold Spec.logProb0, dlogProb0.
  apply (dlim_lse C (fun c t => Spec.logScore0 D F (th t) u c) t0
                  (fun c => Spec.dlogScore0 D F (th t0) dth u c) HC).
  intros c Hc. apply d_logScore0. exact Hc.
Qed.

Lemma d_logProb1 :
  derivable_pt_lim (fun t => Spec.logProb1 C D F (th t) u) t0 dlogProb1.
Proof.
  unfold Spec.logProb1, dlogProb1.
  apply (dlim_lse C (fun c t => Spec.logScore1 D F (th t) u c) t0
                  (fun c => Spec.dlogScore1 D F (th t0) dth u c) HC).
  intros c Hc. apply d_logScore1. exact Hc.
Qed.

Let p0 : R := exp (Spec.logProb0 C D F (th t0) u - Spec.logNorm C D F (th t0) u).
Let p1 : R := exp (Spec.logProb1 C D F (th t0) u - Spec.logNorm C D F (th t0) u).

Lemma d_logNorm :
  derivable_pt_lim (fun t => Spec.logNorm C D F (th t) u) t0
                   (p0 * dlogProb0 + p1 * dlogProb1).
Proof.
  unfold Spec.logNorm.
  set (l0 := Spec.logProb0 C D F (th t0) u).
  set (l1 := Spec.logProb1 C D F (th t0) u).
  assert (H0 := exp_pos l0). assert (H1 := exp_pos l1).
  apply (dlim_eq _ _ (/ (exp l0 + exp l1) * (exp l0 * dlogProb0 + exp l1 * dlogProb1))).
  - unfold p0, p1, Spec.logNorm. fold l0 l1.
    unfold Rminus. rewrite !exp_plus, exp_Ropp, exp_ln by lra. field. lra.
  - apply (dlim_ln (fun t => exp (Spec.logProb0 C D F (th t) u)
                             + exp (Spec.logProb1 C D F (th t) u))).
    + fold l0 l1. lra.
    + apply (dlim_plus (fun t => exp (Spec.logProb0 C D F (th t) u))
                       (fun t => exp (Spec.logProb1 C D F (th t) u))).
      * apply (dlim_exp (fun t => Spec.logProb0 C D F (th t) u)). apply d_logProb0.
      * apply (dlim_exp (fun t => Spec.logProb1 C D F (th t) u)). apply d_logProb1.
Qed.

(** The derivative of the conditional log-likelihood along the curve. *)
Lemma d_condLogLik :
  derivable_pt_lim (fun t => Spec.condLogLik C D F (th t) u y) t0
                   (Spec.dcondLogLik C D F (th t0) dth u y).
Proof.
  unfold Spec.condLogLik.
  pose proof (dlim_minus _ _ _ _ _ d_logProb1 d_logNorm) as H1.
  pose proof (dlim_minus _ _ _ _ _ d_logProb0 d_logNorm) as H0.
  pose proof (dlim_plus _ _ _ _ _ (dlim_scal_l y _ _ _ H1) (dlim_scal_l (1 - y) _ _ _ H0)) as H.
  cbv beta in H. eapply dlim_eq; [|exact H].
  unfold Spec.dcondLogLik.
  rewrite (rsum_ext C (fun c => Spec.post1Tmp C D F (th t0) u y c
                                * Spec.dlogScore1 D F (th t0) dth u c)
                    (fun c => Spec.tmp C D F (th t0) u y
                              * (exp (Spec.logScore1 D F (th t0) u c
                                      - Spec.logProb1 C D F (th t0) u)
                                 * Spec.dlogScore1 D F (th t0) dth u c)))
    by (intros; unfold Spec.post1Tmp; ring).
  rewrite (rsum_ext C (fun c => Spec.post0Tmp C D F (th t0) u y c
                                * Spec.dlogScore0 D F (th t0) dth u c)
                    (fun c => Spec.tmp C D F (th t0) u y
                              * (exp (Spec.logScore0 D F (th t0) u c
                                      - Spec.logProb0 C D F (th t0) u)
                                 * Spec.dlogScore0 D F (th t0) dth u c)))
    by (intros; unfold Spec.post0Tmp; ring).
  rewrite !rsum_scal_l. fold dlogProb0 dlogProb1.
  unfold Spec.tmp. fold p0 p1.
  assert (Hp : p0 + p1 = 1) by (unfold p0, p1, Spec.logNorm; apply exp_normalized).
  replace p1 with (1 - p0) by lra. ring.
Qed.

End SpecDeriv.

(** ** Sums against the indicator of one cell *)

Lemma rsum_flatten r c (h : nat -> nat -> R) :
  rsum c (fun j => rsum r (fun i => h i j))
  = rsum (r * c) (fun q => h (q mod r)%nat (q / r)%nat).
Proof.
  induction c as [|c IH].
  - rewrite Nat.mul_0_r. reflexivity.
  - rewrite Nat.mul_succ_r, rsum_app. simpl. rewrite IH. f_equal.
    apply rsum_ext. intros i Hi.
    replace (r * c + i)%nat with (i + c * r)%nat by lia.
    rewrite Nat.Div0.mod_add, Nat.div_add by lia.
    rewrite Nat.mod_small, Nat.div_small by lia. reflexivity.
Qed.

Lemma rsum_pick_shift n off k (g : nat -> R) :
  rsum n (fun q => (if (off + q =? k)%nat then 1 else 0) * g q)
  = if (off <=? k)%nat && (k <? off + n)%nat then g (k - off)%nat else 0.
Proof.
  rewrite (rsum_ext n _ (fun q => if (q =? k - off)%nat
                                  then (if (off <=? k)%nat then g q else 0) else 0)).
  - rewrite rsum_pick.
    destruct (Nat.leb_spec off k); destruct (Nat.ltb_spec (k - off) n);
      destruct (Nat.ltb_spec k (off + n)); simpl; try lia; reflexivity.
  - intros q Hq.
    destruct (Nat.eqb_spec (off + q) k); destruct (Nat.eqb_spec q (k - off));
      destruct (Nat.leb_spec off k); try lia; lra.
Qed.

(** Columns outermost. *)
Lemma rsum_cell_cols flag off r c k (g : nat -> nat -> R) :
  rsum c (fun j => rsum r (fun i => cellIndicator flag off r i j k * g i j))
  = if flag && inSpan off r c k
    then g ((k - off) mod r)%nat ((k - off) / r)%nat else 0.
Proof.
  rewrite (rsum_flatten r c (fun i j => cellIndicator flag off r i j k * g i j)).
  destruct flag; cbn [andb].
  - rewrite (rsum_ext (r * c) _
               (fun q => (if (off + q =? k)%nat then 1 else 0)
                         * g (q mod r)%nat (q / r)%nat)).
    + rewrite rsum_pick_shift. reflexivity.
    + intros q Hq. unfold cellIndicator, flat. cbn [andb].
      rewrite div_mod_flat. reflexivity.
  - rewrite (rsum_ext (r * c) _ (fun _ => 0)); [apply rsum_zero|].
    intros q Hq. unfold cellIndicator. cbn [andb]. lra.
Qed.

(** Rows outermost. *)
Lemma rsum_cell_rows flag off r c k (g : nat -> nat -> R) :
  rsum r (fun i => rsum c (fun j => cellIndicator flag off r i j k * g i j))
  = if flag && inSpan off r c k
    then g ((k - off) mod r)%nat ((k - off) / r)%nat else 0.
Proof.
  rewrite (rsum_swap r c (fun i j => cellIndicator flag off r i j k * g i j)).
  apply rsum_cell_cols.
Qed.

(** A column vector: one column. *)
Lemma rsum_cell_vector flag off r k (g : nat -> R) :
  rsum r (fun i => cellIndicator flag off r i 0 k * g i)
  = if flag && inSpan off r 1 k then g (k - off)%nat else 0.
Proof.
  pose proof (rsum_cell_cols flag off r 1 k (fun i _ => g i)) as H.
  rewrite rsum_one in H. rewrite H.
  destruct (flag && inSpan off r 1 k) eqn:E; [|reflexivity].
  apply andb_true_iff in E. destruct E as [_ E].
  apply inSpan_bounds in E. rewrite Nat.mod_small by lia. reflexivity.
Qed.

(** ** The analytic gradient is the derivative along a unit direction *)

Section UnitDirection.
Variables (m : MCBM) (V : Views) (params : Parameters) (X Y : Matrix) (n k : nat).

Let C := mNumComponents m.
Let D := mDimIn m.
Let F := mNumFeatures m.
Let th := theta_of V.
Let dth := unitDirection m V params k.
Let u := fun d => coeff X d n.
Let y := coeff Y 0 n.
Let pd := Spec.postDiff C D F th u y.
Let q0 := Spec.post0Tmp C D F th u y.
Let q1 := Spec.post1Tmp C D F th u y.
Let fo := Spec.featureOutput D th u.
Let W := thWeights th.
Let iP := fun c => cellIndicator (trainPriors params) (priorsGrad V) C c 0 k.
Let iW := fun c f => cellIndicator (trainWeights params) (weightsGrad V) C c f k.
Let iF := fun d f => cellIndicator (trainFeatures params) (featuresGrad V) D d f k.
Let iPr := fun c d => cellIndicator (trainPredictors params) (predictorsGrad V) C c d k.
Let iIB := fun d c => cellIndicator (trainInputBias params) (inputBiasGrad V) D d c k.
Let iOB := fun c => cellIndicator (trainOutputBias params) (outputBiasGrad V) C c 0 k.

Let SP := rsum C (fun c => iP c * pd c).
Let SW := rsum C (fun c => rsum F (fun f => iW c f * (pd c * (fo f * fo f)))).
Let SF :=
  rsum F (fun f => rsum D (fun d =>
    iF d f * (u d * (fo f * (rsum C (fun c => W c f * pd c) * 2))))).
Let SPr := rsum C (fun c => rsum D (fun d => iPr c d * (q1 c * u d))).
Let SIB := rsum C (fun c => rsum D (fun d => iIB d c * (u d * pd c))).
Let SOB := rsum C (fun c => iOB c * q1 c).

Lemma unit_features_sum :
  rsum C (fun c => pd c * rsum F (fun f =>
            W c f * (2 * fo f * rsum D (fun d => iF d f * u d))))
  = SF.
Proof.
  unfold SF.
  rewrite (rsum_ext C _ (fun c => rsum F (fun f =>
             (W c f * pd c) * (2 * fo f * rsum D (fun d => iF d f * u d)))))
    by (intros c Hc; rewrite <- rsum_scal_l; apply rsum_ext; intros; ring).
  rewrite rsum_swap. apply rsum_ext. intros f Hf.
  rewrite rsum_scal_r.
  rewrite (rsum_ext D (fun d => iF d f * (u d * (fo f * (rsum C (fun c => W c f * pd c) * 2))))
                    (fun d => (fo f * (rsum C (fun c => W c f * pd c) * 2)) * (iF d f * u d)))
    by (intros; ring).
  rewrite rsum_scal_l. ring.
Qed.

Lemma unit_direction_sums :
  Spec.dcondLogLik C D F th dth u y = SP + SW + SF + SPr + SIB + SOB.
Proof.
  unfold Spec.dcondLogLik.
  rewrite <- rsum_minus.
  rewrite (rsum_ext C _
    (fun c => iP c * pd c
              + rsum F (fun f => iW c f * (pd c * (fo f * fo f)))
              + pd c * rsum F (fun f =>
                         W c f * (2 * fo f * rsum D (fun d => iF d f * u d)))
              + rsum D (fun d => iPr c d * (q1 c * u d))
              + rsum D (fun d => iIB d c * (u d * pd c))
              + iOB c * q1 c)).
  - rewrite !rsum_plus. rewrite unit_features_sum. reflexivity.
  - intros c Hc.
    unfold Spec.dlogScore1, Spec.dlogScore0, Spec.dfeatureOutput.
    unfold dth, unitDirection.
    cbn [thPriors thWeights thFeatures thPredictors thInputBias thOutputBias].
    fold C D. fold (iP c) (iOB c).
    change (fun d => cellIndicator (trainPredictors params) (predictorsGrad V) C c d k * u d)
      with (fun d => iPr c d * u d).
    change (fun d => cellIndicator (trainInputBias params) (inputBiasGrad V) D d c k * u d)
      with (fun d => iIB d c * u d).
    fold fo W.
    rewrite (rsum_ext F
               (fun f => cellIndicator (trainWeights params) (weightsGrad V) C c f k
                         * (fo f * fo f)
                         + W c f * (2 * fo f
                             * rsum D (fun d =>
                                 cellIndicator (trainFeatures params) (featuresGrad V)
                                               D d f k * u d)))
               (fun f => iW c f * (fo f * fo f)
                         + W c f * (2 * fo f * rsum D (fun d => iF d f * u d))))
      by (intros; reflexivity).
    rewrite rsum_plus.
    rewrite (rsum_ext F (fun f => iW c f * (pd c * (fo f * fo f)))
                      (fun f => pd c * (iW c f * (fo f * fo f))))
      by (intros; ring).
    rewrite (rsum_ext D (fun d => iPr c d * (q1 c * u d))
                      (fun d => q1 c * (iPr c d * u d)))
      by (intros; ring).
    rewrite (rsum_ext D (fun d => iIB d c * (u d * pd c))
                      (fun d => pd c * (iIB d c * u d)))
      by (intros; ring).
    rewrite !rsum_scal_l.
    unfold pd, Spec.postDiff. fold q0 q1. ring.
Qed.

(** The directional derivative along cell [k] is the entry that
    [computeGradient] accumulates in cell [k]. *)
Lemma dcondLogLik_unitDirection :
  Spec.dcondLogLik C D F th dth u y = gradColumn m V params X Y n k.
Proof.
  rewrite unit_direction_sums. unfold gradColumn. fold C D F th u y.
  unfold SP, SW, SF, SPr, SIB, SOB, iP, iW, iF, iPr, iIB, iOB.
  rewrite (rsum_cell_vector _ _ _ _ pd).
  rewrite (rsum_cell_rows _ _ _ _ _ (fun c f => pd c * (fo f * fo f))).
  rewrite (rsum_cell_cols _ _ _ _ _
             (fun d f => u d * (fo f * (rsum C (fun c => W c f * pd c) * 2)))).
  rewrite (rsum_cell_rows _ _ _ _ _ (fun c d => q1 c * u d)).
  rewrite (rsum_cell_cols _ _ _ _ _ (fun d c => u d * pd c)).
  rewrite (rsum_cell_vector _ _ _ _ q1).
  reflexivity.
Qed.

End UnitDirection.

(** ** Moving one cell of the flat parameter vector *)

Lemma store_same (x : buffer) k : store x k (nth k x 0) = x.
Proof.
  apply (nth_ext _ _ 0 0); [apply store_length|].
  intros i _. rewrite store_nth.
  destruct (Nat.eqb_spec i k) as [->|]; destruct (k <? length x)%nat; reflexivity.
Qed.

(** The offsets of the views do not depend on the buffer. *)
Lemma bindViews_offsets_indep m x x' params :
  let V := bindViews m x params in
  let V' := bindViews m x' params in
  priorsGrad V' = priorsGrad V /\ weightsGrad V' = weightsGrad V /\
  featuresGrad V' = featuresGrad V /\ predictorsGrad V' = predictorsGrad V /\
  inputBiasGrad V' = inputBiasGrad V /\ outputBiasGrad V' = outputBiasGrad V /\
  offset V' = offset V.
Proof.
  intros V V'.
  destruct (bindViews_offsets m x params) as (H0 & H1 & H2 & H3 & H4 & H5 & H6).
  destruct (bindViews_offsets m x' params) as (K0 & K1 & K2 & K3 & K4 & K5 & K6).
  fold V in H0, H1, H2, H3, H4, H5, H6. fold V' in K0, K1, K2, K3, K4, K5, K6.
  assert (E0 : priorsGrad V' = priorsGrad V) by congruence.
  assert (E1 : weightsGrad V' = weightsGrad V) by congruence.
  assert (E2 : featuresGrad V' = featuresGrad V) by congruence.
  assert (E3 : predictorsGrad V' = predictorsGrad V) by congruence.
  assert (E4 : inputBiasGrad V' = inputBiasGrad V) by congruence.
  assert (E5 : outputBiasGrad V' = outputBiasGrad V) by congruence.
  assert (E6 : offset V' = offset V) by congruence.
  repeat split; assumption.
Qed.

(** A coefficient of a view, as a function of the value stored in cell
    [k] of the buffer, has the cell indicator as its derivative. *)
Lemma d_view_coeff (flag : bool) (x : buffer) k off r c M0 i j t0 :
  (k < length x)%nat -> (i < r)%nat -> (j < c)%nat ->
  derivable_pt_lim
    (fun t => coeff (if flag then MapMat (store x k t) off r c else M0) i j) t0
    (cellIndicator flag off r i j k).
Proof.
  intros Hk Hi Hj. unfold cellIndicator. destruct flag; cbn [andb].
  - apply (dlim_ext (fun t => if (flat off r i j =? k)%nat then t
                              else nth (flat off r i j) x 0)).
    + intros t. rewrite coeff_MapMat, store_nth by assumption.
      replace (k <? length x)%nat with true by (symmetry; apply Nat.ltb_lt; exact Hk).
      rewrite andb_true_r. reflexivity.
    + destruct (flat off r i j =? k)%nat; [apply dlim_id | apply dlim_const].
  - apply dlim_const.
Qed.

(** The views over another buffer, at the offsets of the first. *)
Lemma bindViews_views_at m x x' params :
  let V := bindViews m x params in
  let V' := bindViews m x' params in
  let C := mNumComponents m in
  let D := mDimIn m in
  let F := mNumFeatures m in
  priors V' = (if trainPriors params then MapMat x' (priorsGrad V) C 1
               else MapMat (data (mPriors m)) 0 C 1) /\
  weights V' = (if trainWeights params then MapMat x' (weightsGrad V) C F
                else MapMat (data (mWeights m)) 0 C F) /\
  features V' = (if trainFeatures params then MapMat x' (featuresGrad V) D F
                 else MapMat (data (mFeatures m)) 0 D F) /\
  predictors V' = (if trainPredictors params then MapMat x' (predictorsGrad V) C D
                   else MapMat (data (mPredictors m)) 0 C D) /\
  inputBias V' = (if trainInputBias params then MapMat x' (inputBiasGrad V) D C
                  else MapMat (data (mInputBias m)) 0 D C) /\
  outputBias V' = (if trainOutputBias params then MapMat x' (outputBiasGrad V) C 1
                   else MapMat (data (mOutputBias m)) 0 C 1).
Proof.
  intros V V' C D F.
  destruct (bindViews_offsets_indep m x x' params) as (E0 & E1 & E2 & E3 & E4 & E5 & _).
  destruct (bindViews_views m x' params) as (V0 & V1 & V2 & V3 & V4 & V5).
  fold V V' in E0, E1, E2, E3, E4, E5. fold V' in V0, V1, V2, V3, V4, V5.
  rewrite <- E0, <- E1, <- E2, <- E3, <- E4, <- E5.
  repeat split; assumption.
Qed.

Section Move.
Variables (m : MCBM) (X Y : Matrix) (x : buffer) (params : Parameters) (k : nat).
Hypotheses (HC : (0 < mNumComponents m)%nat) (Hk : (k < length x)%nat).

Let C := mNumComponents m.
Let D := mDimIn m.
Let F := mNumFeatures m.
Let V := bindViews m x params.
Let th (t : R) := theta_of (bindViews m (store x k t) params).
Let dth := unitDirection m V params k.
Let t0 := nth k x 0.

Lemma th_t0 : th t0 = theta_of V.
Proof. unfold th, t0. rewrite store_same. reflexivity. Qed.

(** The objective as a function of cell [k] has the normalized sum of
    the per-column gradient entries of that cell as its derivative. *)
Lemma d_objective :
  derivable_pt_lim (fun t => Spec.objective C D F (th t) X Y) t0
    (rsum (cols X) (fun n => gradColumn m V params X Y n k) / normConst X).
Proof.
  unfold Spec.objective, normConst.
  apply (dlim_scal_r (/ (INR (cols X) / ln 2))
           (fun t => rsum (cols X)
                       (fun n => Spec.condLogLik C D F (th t)
                                   (fun d => coeff X d n) (coeff Y 0 n)))).
  apply (dlim_rsum (cols X)
           (fun n t => Spec.condLogLik C D F (th t) (fun d => coeff X d n) (coeff Y 0 n))
           t0 (fun n => gradColumn m V params X Y n k)).
  intros n Hn.
  rewrite <- (dcondLogLik_unitDirection m V params X Y n k).
  fold C D F dth. rewrite <- th_t0.
  apply (d_condLogLik C D F th dth); try exact HC; intros;
    unfold th, theta_of, theta_mats, dth, unitDirection;
    cbn [thPriors thWeights thFeatures thPredictors thInputBias thOutputBias];
    fold C D F.
  - eapply dlim_ext; [intros t;
      rewrite (proj1 (bindViews_views_at m x (store x k t) params)); reflexivity|].
    apply d_view_coeff; [exact Hk | assumption | lia].
  - eapply dlim_ext; [intros t;
      rewrite (proj1 (proj2 (bindViews_views_at m x (store x k t) params)));
      reflexivity|].
    apply d_view_coeff; assumption.
  - eapply dlim_ext; [intros t;
      rewrite (proj1 (proj2 (proj2 (bindViews_views_at m x (store x k t) params))));
      reflexivity|].
    apply d_view_coeff; assumption.
  - eapply dlim_ext; [intros t;
      rewrite (proj1 (proj2 (proj2 (proj2
                 (bindViews_views_at m x (store x k t) params)))));
      reflexivity|].
    apply d_view_coeff; assumption.
  - eapply dlim_ext; [intros t;
      rewrite (proj1 (proj2 (proj2 (proj2 (proj2
                 (bindViews_views_at m x (store x k t) params))))));
      reflexivity|].
    apply d_view_coeff; assumption.
  - eapply dlim_ext; [intros t;
      rewrite (proj2 (proj2 (proj2 (proj2 (proj2
                 (bindViews_views_at m x (store x k t) params))))));
      reflexivity|].
    apply d_view_coeff; [exact Hk | assumption | lia].
Qed.

End Move.

(** ** The gradient that [computeGradient] writes *)

(** The value returned at a moved cell is the objective at the moved
    parameters. *)
Lemma returned_objective m X Y x g params k t :
  rows X = mDimIn m -> rows Y = 1%nat -> (0 < mNumComponents m)%nat ->
  (1 <= batchSize params)%Z ->
  (offset (bindViews m x params) <= length g)%nat ->
  returned (computeGradient m X Y (store x k t) (Some g) params)
  = Spec.objective (mNumComponents m) (mDimIn m) (mNumFeatures m)
                   (theta_of (bindViews m (store x k t) params)) X Y.
Proof.
  intros HX HY HC Hb Hg.
  destruct (computeGradient_closed m X Y (store x k t) params HX HY HC
              (or_introl Hb) (Some g)) as (g' & E & _).
  - intros gb Egb. injection Egb as <-.
    destruct (bindViews_offsets_indep m x (store x k t) params)
      as (_ & _ & _ & _ & _ & _ & E6).
    rewrite E6. exact Hg.
  - rewrite E. reflexivity.
Qed.

(** C1, amended. On a batch of inputs and outputs, with a parameter vector
    and a gradient buffer supplied, [computeGradient] returns the sum of
    the conditional log-likelihoods of the columns divided by [N / ln 2],
    and writes into cell [k] of the gradient buffer, for every cell of the
    flat layout of the flagged groups, the derivative of that same
    returned value with respect to cell [k] of the parameter vector (not
    its negative); cells beyond the flagged groups are left as they were. *)
Theorem computeGradient_gradient_of_value
        (m : MCBM) (X Y : Matrix) (x g : buffer) (params : Parameters) :
  wfMCBM m -> rows X = mDimIn m -> rows Y = 1%nat -> cols X = cols Y ->
  (0 < mNumComponents m)%nat ->
  (1 <= batchSize params)%Z ->
  (numParameters m params <= length x)%nat ->
  (numParameters m params <= length g)%nat ->
  let V := bindViews m x params in
  exists g',
    computeGradient m X Y x (Some g) params
    = Returns (Spec.objective (mNumComponents m) (mDimIn m) (mNumFeatures m)
                              (theta_of V) X Y, Some g') /\
    length g' = length g /\
    (forall k, (k < numParameters m params)%nat ->
       nth k g' 0
       = rsum (cols X) (fun n => gradColumn m V params X Y n k) / normConst X /\
       derivable_pt_lim
         (fun t => returned (computeGradient m X Y (store x k t) (Some g) params))
         (nth k x 0) (nth k g' 0)) /\
    (forall k, (numParameters m params <= k)%nat -> nth k g' 0 = nth k g 0).
Proof.
  intros Hwf HX HY Hcols HC Hb Hx Hg V.
  pose proof (offset_numParameters m x params Hwf) as Hoff. fold V in Hoff.
  destruct (computeGradient_closed m X Y x params HX HY HC (or_introl Hb) (Some g))
    as (g' & E & P).
  { intros gb Egb. injection Egb as <-. fold V. rewrite Hoff. exact Hg. }
  fold V in E, P. destruct g' as [g'|]; [|contradiction].
  destruct P as [L Nn].
  exists g'. split; [exact E|]. split; [exact L|]. split.
  - intros k Hk.
    assert (Ek : nth k g' 0
                 = rsum (cols X) (fun n => gradColumn m V params X Y n k) / normConst X).
    { rewrite Nn. rewrite Hoff.
      replace (k <? numParameters m params)%nat with true
        by (symmetry; apply Nat.ltb_lt; exact Hk).
      reflexivity. }
    split; [exact Ek|]. rewrite Ek.
    apply (dlim_ext (fun t => Spec.objective (mNumComponents m) (mDimIn m) (mNumFeatures m)
                                (theta_of (bindViews m (store x k t) params)) X Y)).
    + intros t. symmetry. apply returned_objective; try assumption.
      fold V. rewrite Hoff. exact Hg.
    + apply d_objective; [exact HC | lia].
  - intros k Hk. rewrite Nn, Hoff.
    replace (k <? numParameters m params)%nat with false
      by (symmetry; apply Nat.ltb_ge; exact Hk).
    reflexivity.
Qed.

(** The gradient on the smallest store. *)
Lemma computeGradient_gradient_of_value_witness :
  let V := bindViews storeTiny [0] paramsOB in
  exists g',
    computeGradient storeTiny inputTiny outputTiny [0] (Some [0]) paramsOB
    = Returns (Spec.objective (mNumComponents storeTiny) (mDimIn storeTiny)
                              (mNumFeatures storeTiny) (theta_of V)
                              inputTiny outputTiny, Some g') /\
    length g' = length [0] /\
    (forall k, (k < numParameters storeTiny paramsOB)%nat ->
       nth k g' 0
       = rsum (cols inputTiny)
              (fun n => gradColumn storeTiny V paramsOB inputTiny outputTiny n k)
         / normConst inputTiny /\
       derivable_pt_lim
         (fun t => returned (computeGradient storeTiny inputTiny outputTiny
                                             (store [0] k t) (Some [0]) paramsOB))
         (nth k [0] 0) (nth k g' 0)) /\
    (forall k, (numParameters storeTiny paramsOB <= k)%nat -> nth k g' 0 = nth k [0] 0).
Proof.
  apply (computeGradient_gradient_of_value storeTiny inputTiny outputTiny [0] [0] paramsOB).
  - repeat split; reflexivity.
  - reflexivity.
  - reflexivity.
  - reflexivity.
  - simpl. lia.
  - simpl. lia.
  - vm_compute. lia.
  - vm_compute. lia.
Defined.

(** The entry accumulated for the output bias of [storeTiny] on the data
    [inputTiny], [outputTiny] is positive. *)
Lemma gradColumn_tiny_pos :
  0 < gradColumn storeTiny (bindViews storeTiny [0] paramsOB) paramsOB
                 inputTiny outputTiny 0 0.
Proof.
  unfold gradColumn.
  replace (trainPriors paramsOB && _) with false by reflexivity.
  replace (trainWeights paramsOB && _) with false by reflexivity.
  replace (trainFeatures paramsOB && _) with false by reflexivity.
  replace (trainPredictors paramsOB && _) with false by reflexivity.
  replace (trainInputBias paramsOB && _) with false by reflexivity.
  replace (trainOutputBias paramsOB && _) with true by reflexivity.
  unfold Spec.gradOutputBias, Spec.post1Tmp, Spec.tmp.
  change (coeff outputTiny 0 0) with 1.
  match goal with
  | |- 0 < 0 + 0 + 0 + 0 + 0 + exp ?a * (1 * exp ?b - (1 - 1) * exp ?c) =>
    pose proof (exp_pos a); pose proof (exp_pos b); pose proof (exp_pos c);
      generalize dependent (exp a); generalize dependent (exp b);
      generalize dependent (exp c)
  end.
  intros. nra.
Qed.

(** C1, as stated, fails: on [storeTiny] the entry written for the output
    bias is not minus the derivative of the returned value. *)
Lemma computeGradient_gradient_not_negated :
  match computeGradient storeTiny inputTiny outputTiny [0] (Some [0]) paramsOB with
  | Returns (_, Some g') =>
    ~ derivable_pt_lim
        (fun t => returned (computeGradient storeTiny inputTiny outputTiny
                                            (store [0] 0 t) (Some [0]) paramsOB))
        (nth 0 [0] 0) (- nth 0 g' 0)
  | _ => False
  end.
Proof.
  assert (HX : rows inputTiny = mDimIn storeTiny) by reflexivity.
  assert (HY : rows outputTiny = 1%nat) by reflexivity.
  assert (HC : (0 < mNumComponents storeTiny)%nat) by (simpl; lia).
  assert (Hb : (1 <= batchSize paramsOB)%Z) by (simpl; lia).
  assert (Hoff : offset (bindViews storeTiny [0] paramsOB) = 1%nat) by reflexivity.
  destruct (computeGradient_closed storeTiny inputTiny outputTiny [0] paramsOB
              HX HY HC (or_introl Hb) (Some [0])) as (g' & E & P).
  { intros gb Egb. injection Egb as <-. rewrite Hoff. simpl. lia. }
  rewrite E. destruct g' as [g'|]; [|contradiction].
  destruct P as [_ Nn]. intros Hneg.
  assert (Hpos : derivable_pt_lim
            (fun t => returned (computeGradient storeTiny inputTiny outputTiny
                                                (store [0] 0 t) (Some [0]) paramsOB))
            (nth 0 [0] 0)
            (rsum (cols inputTiny)
                  (fun n => gradColumn storeTiny (bindViews storeTiny [0] paramsOB)
                                       paramsOB inputTiny outputTiny n 0)
             / normConst inputTiny)).
  { apply (dlim_ext (fun t => Spec.objective (mNumComponents storeTiny) (mDimIn storeTiny)
                                (mNumFeatures storeTiny)
                                (theta_of (bindViews storeTiny (store [0] 0 t) paramsOB))
                                inputTiny outputTiny)).
    - intros t. symmetry. apply returned_objective; try assumption;
        rewrite Hoff; simpl; lia.
    - apply d_objective; [exact HC | simpl; lia]. }
  pose proof (uniqueness_limite _ _ _ _ Hneg Hpos) as Eu.
  rewrite Nn, Hoff in Eu. change (0 <? 1)%nat with true in Eu. cbv iota in Eu.
  change (cols inputTiny) with 1%nat in Eu. rewrite rsum_one in Eu.
  pose proof gradColumn_tiny_pos as Hg.
  pose proof (normConst_pos inputTiny ltac:(simpl; lia)) as Hn.
  assert (Hd : 0 < gradColumn storeTiny (bindViews storeTiny [0] paramsOB) paramsOB
                     inputTiny outputTiny 0 0 / normConst inputTiny)
    by (apply Rdiv_lt_0_compat; assumption).
  lra.
Qed.

(** ** The gradient checker *)

Lemma store_store (y : buffer) i a b : store (store y i a) i b = store y i b.
Proof.
  apply (nth_ext _ _ 0 0); [rewrite !store_length; reflexivity|].
  intros j _. rewrite !store_nth, store_length.
  destruct ((j =? i)%nat && (i <? length y)%nat); reflexivity.
Qed.

(** Filling the first [n] cells of an array, one store per cell. *)
Lemma fold_store_nth (h : nat -> R) n (acc : buffer) :
  (n <= length acc)%nat ->
  let res := fold_left (fun a i => store a i (h i)) (seq 0 n) acc in
  length res = length acc /\
  forall i, nth i res 0 = if (i <? n)%nat then h i else nth i acc 0.
Proof.
  induction n as [|n IH]; intros Hn; cbv zeta.
  - split; [reflexivity | intros; reflexivity].
  - rewrite seq_S, fold_left_app. cbn [fold_left Nat.add].
    destruct (IH ltac:(lia)) as [L Nn]. cbv zeta in L, Nn.
    split; [rewrite store_length; exact L|].
    intros i. rewrite store_nth, Nn, L.
    destruct (Nat.eqb_spec i n) as [->|Hne].
    + replace (n <? length acc)%nat with true by (symmetry; apply Nat.ltb_lt; lia).
      replace (n <? S n)%nat with true by (symmetry; apply Nat.ltb_lt; lia).
      reflexivity.
    + cbn [andb].
      destruct (Nat.ltb_spec i n); destruct (Nat.ltb_spec i (S n)); try lia; reflexivity.
Qed.

(** [for (i = 0; i < numParams; ++i) y[i] = x[i];] makes [y] a copy of [x]. *)
Lemma copy_loop (x y0 : buffer) :
  length y0 = length x ->
  fold_left (fun y i => store y i (nth i x 0)) (seq 0 (length x)) y0 = x.
Proof.
  intros H.
  destruct (fold_store_nth (fun i => nth i x 0) (length x) y0 ltac:(lia)) as [L Nn].
  cbv zeta in L, Nn.
  apply (nth_ext _ _ 0 0); [lia|].
  intros i _. rewrite Nn.
  destruct (Nat.ltb_spec i (length x)); [reflexivity|].
  rewrite !nth_overflow by lia. reflexivity.
Qed.

Lemma squaredError_rsum n (g nb : buffer) :
  squaredError n g nb
  = rsum n (fun i => (nth i g 0 - nth i nb 0) * (nth i g 0 - nth i nb 0)).
Proof.
  unfold squaredError. induction n as [|n IH]; [reflexivity|].
  rewrite seq_S, fold_left_app. cbn [fold_left Nat.add rsum]. rewrite IH. reflexivity.
Qed.

Lemma length_parameters m params :
  wfMCBM m -> length (parameters m params) = numParameters m params.
Proof.
  intros Hwf. rewrite (parameters_flatLayout m params Hwf).
  destruct Hwf as (HP & HW & HF & HPr & HIB & HOB).
  unfold flatLayout, numParameters. rewrite !length_app.
  rewrite (length_flagged _ _ _ _ HP), (length_flagged _ _ _ _ HW),
    (length_flagged _ _ _ _ HF), (length_flagged _ _ _ _ HPr),
    (length_flagged _ _ _ _ HIB), (length_flagged _ _ _ _ HOB).
  unfold size.
  destruct HP as (-> & -> & _), HW as (-> & -> & _), HF as (-> & -> & _),
    HPr as (-> & -> & _), HIB as (-> & -> & _), HOB as (-> & -> & _).
  lia.
Qed.

Section Checker.
Variables (m : MCBM) (X Y : Matrix) (epsilon : R) (params : Parameters).
Hypotheses (Hwf : wfMCBM m)
           (HX : rows X = mDimIn m) (HY : rows Y = 1%nat)
           (HC : (0 < mNumComponents m)%nat)
           (Hb : (1 <= batchSize params)%Z).

Let instance := mkParamsLBFGS m params X Y.
Let x := parameters m params.
Let f (z : buffer) := returned (evaluateLBFGS instance z None).
Let fd (i : nat) := (f (perturb x i epsilon) - f (perturb x i (- epsilon))) / (2 * epsilon).

(** An evaluation without gradient buffer returns the objective. *)
Lemma evaluateLBFGS_value z : evaluateLBFGS instance z None = Returns (f z, None).
Proof.
  unfold f, evaluateLBFGS, instance. cbn [mcbm input_ output_ params_].
  destruct (computeGradient_closed m X Y z params HX HY HC (or_introl Hb) None)
    as (g' & E & P); [discriminate|].
  destruct g' as [g'|]; [contradiction|].
  rewrite E. reflexivity.
Qed.

(** One iteration perturbs coordinate [i] up and down around the base
    point, records the central difference, and leaves [y] equal to [x]. *)
Lemma fdLoop_step i rest nb :
  fdLoop instance x epsilon (i :: rest) (x, nb)
  = fdLoop instance x epsilon rest (x, store nb i (fd i)).
Proof.
  cbn [fdLoop fst snd].
  rewrite evaluateLBFGS_value. cbn [bind fst].
  rewrite store_store, evaluateLBFGS_value. cbn [bind fst].
  rewrite store_store, store_same. reflexivity.
Qed.

Lemma fdLoop_all idxs nb :
  fdLoop instance x epsilon idxs (x, nb)
  = Returns (x, fold_left (fun a i => store a i (fd i)) idxs nb).
Proof.
  revert nb. induction idxs as [|i rest IH]; intros nb; [reflexivity|].
  rewrite fdLoop_step, IH. reflexivity.
Qed.

End Checker.

(** C3. [checkGradient] computes, for every coordinate [i] of the flat
    parameter vector, the central difference of the objective around the
    base point, with coordinate [i] restored before the next one is
    perturbed; it evaluates the analytic gradient once, at the base
    point; and it returns the Euclidean norm of the difference of the two
    gradient vectors. *)
Theorem checkGradient_central_differences
        (m : MCBM) (X Y : Matrix) (epsilon : R) (params : Parameters)
        (y0 g0 n0 : buffer) :
  wfMCBM m -> rows X = mDimIn m -> rows Y = 1%nat -> cols X = cols Y ->
  (0 < mNumComponents m)%nat -> (1 <= batchSize params)%Z ->
  length y0 = numParameters m params ->
  length g0 = numParameters m params ->
  length n0 = numParameters m params ->
  let x := parameters m params in
  let numParams := numParameters m params in
  let instance := mkParamsLBFGS m params X Y in
  let f := fun z => returned (evaluateLBFGS instance z None) in
  let fd := fun i => (f (perturb x i epsilon) - f (perturb x i (- epsilon)))
                     / (2 * epsilon) in
  exists n g,
    (forall i nb, fdLoop instance x epsilon [i] (x, nb) = Returns (x, store nb i (fd i))) /\
    fdLoop instance x epsilon (seq 0 numParams) (x, n0) = Returns (x, n) /\
    (forall i, (i < numParams)%nat -> nth i n 0 = fd i) /\
    evaluateLBFGS instance x (Some g0) = Returns (f x, Some g) /\
    checkGradient m X Y epsilon params y0 g0 n0
    = Returns (sqrt (rsum numParams
                          (fun i => (nth i g 0 - fd i) * (nth i g 0 - fd i)))).
Proof.
  intros Hwf HX HY Hcols HC Hb Hy0 Hg0 Hn0 x numParams instance f fd.
  pose proof (length_parameters m params Hwf) as Hlx. fold x numParams in Hlx.
  destruct (fold_store_nth fd numParams n0 ltac:(unfold numParams; lia)) as [Ln Nn].
  cbv zeta in Ln, Nn.
  set (n := fold_left (fun a i => store a i (fd i)) (seq 0 numParams) n0) in *.
  assert (Hloop : fdLoop instance x epsilon (seq 0 numParams) (x, n0) = Returns (x, n))
    by (apply (fdLoop_all m X Y epsilon params HX HY HC Hb)).
  destruct (computeGradient_closed m X Y x params HX HY HC (or_introl Hb) (Some g0))
    as (g' & Eg & Pg).
  { intros gb Egb. injection Egb as <-.
    rewrite (offset_numParameters m x params Hwf). lia. }
  destruct g' as [g|]; [|contradiction].
  assert (Ef : f x = Spec.objective (mNumComponents m) (mDimIn m) (mNumFeatures m)
                                    (theta_of (bindViews m x params)) X Y).
  { unfold f, instance. rewrite (evaluateLBFGS_value m X Y params HX HY HC Hb x).
    cbn [returned fst].
    destruct (computeGradient_closed m X Y x params HX HY HC (or_introl Hb) None)
      as (g' & E & P); [discriminate|].
    unfold evaluateLBFGS. cbn [mcbm input_ output_ params_]. rewrite E. reflexivity. }
  assert (Eval : evaluateLBFGS instance x (Some g0) = Returns (f x, Some g)).
  { unfold evaluateLBFGS, instance. cbn [mcbm input_ output_ params_].
    rewrite Eg, Ef. reflexivity. }
  exists n, g. split.
  { intros i nb. unfold instance.
    rewrite (fdLoop_step m X Y epsilon params HX HY HC Hb). reflexivity. }
  split; [exact Hloop|]. split.
  { intros i Hi. rewrite Nn.
    replace (i <? numParams)%nat with true by (symmetry; apply Nat.ltb_lt; exact Hi).
    reflexivity. }
  split; [exact Eval|].
  unfold checkGradient.
  rewrite HX, HY, Hcols, !Nat.eqb_refl. cbn [negb orb].
  fold x numParams instance.
  replace (fold_left (fun y i => store y i (nth i x 0)) (seq 0 numParams) y0) with x
    by (symmetry; rewrite <- Hlx; apply copy_loop; lia).
  rewrite Hloop. cbn [bind snd]. rewrite Eval. cbn [bind snd].
  rewrite squaredError_rsum. f_equal. f_equal.
  apply rsum_ext. intros i Hi. rewrite Nn.
  replace (i <? numParams)%nat with true by (symmetry; apply Nat.ltb_lt; exact Hi).
  reflexivity.
Qed.

(** The checker on the smallest store. *)
Lemma checkGradient_central_differences_witness :
  let epsilon := 1 / 100000 in
  let x := parameters storeTiny paramsOB in
  let numParams := numParameters storeTiny paramsOB in
  let instance := mkParamsLBFGS storeTiny paramsOB inputTiny outputTiny in
  let f := fun z => returned (evaluateLBFGS instance z None) in
  let fd := fun i => (f (perturb x i epsilon) - f (perturb x i (- epsilon)))
                     / (2 * epsilon) in
  exists n g,
    (forall i nb, fdLoop instance x epsilon [i] (x, nb) = Returns (x, store nb i (fd i))) /\
    fdLoop instance x epsilon (seq 0 numParams) (x, [0]) = Returns (x, n) /\
    (forall i, (i < numParams)%nat -> nth i n 0 = fd i) /\
    evaluateLBFGS instance x (Some [0]) = Returns (f x, Some g) /\
    checkGradient storeTiny inputTiny outputTiny epsilon paramsOB [0] [0] [0]
    = Returns (sqrt (rsum numParams
                          (fun i => (nth i g 0 - fd i) * (nth i g 0 - fd i)))).
Proof.
  apply (checkGradient_central_differences storeTiny inputTiny outputTiny (1 / 100000)
                                           paramsOB [0] [0] [0]).
  - repeat split; reflexivity.
  - reflexivity.
  - reflexivity.
  - reflexivity.
  - simpl. lia.
  - simpl. lia.
  - reflexivity.
  - reflexivity.
  - reflexivity.
Defined.

(** The two checks of [checkGradient], on concrete data. *)
Example checkGradient_wrong_dimension :
  checkGradient storeA inputTiny outputTiny (1 / 100000) paramsOB [] [] []
  = Throws "Data has wrong dimensionality.".
Proof. reflexivity. Qed.

Example checkGradient_wrong_count :
  checkGradient storeA inputA outputTiny (1 / 100000) paramsOB [] [] []
  = Throws "The number of inputs and outputs should be the same.".
Proof. reflexivity. Qed.

(** ** A batch size that is not positive *)

(** On a non-empty data set a batch size of zero or less yields no
    result: this is why the statements above ask for a positive one. *)
Lemma computeGradient_nonpositive_batch m X Y x g params :
  (batchSize params <= 0)%Z -> (0 < cols X)%nat ->
  computeGradient m X Y x g params = NoResult.
Proof.
  intros Hb HN. unfold computeGradient. cbv zeta.
  replace (Z.to_nat (Z.min (batchSize params) (Z.of_nat (cols X)))) with 0%nat by lia.
  rewrite batchLoop_stuck by exact HN. reflexivity.
Qed.

Example computeGradient_batch_zero :
  computeGradient storeA inputA outputA [30; 40; 50; 60] None (withBatchSize paramsWO 0)
  = NoResult.
Proof. apply computeGradient_nonpositive_batch; simpl; lia. Qed.

(** ** A run on the smallest store *)

(** With every parameter zero and the input zero, both outputs have the
    score 0, the normalizer is [ln 2], and an output bit 1 has the
    log-likelihood [- ln 2]. *)
Lemma tiny_scores th u :
  (forall c, thPriors th c = 0) -> (forall c f, thWeights th c f = 0) ->
  (forall d c, thInputBias th d c = 0) -> (forall c d, thPredictors th c d = 0) ->
  (forall c, thOutputBias th c = 0) ->
  Spec.logScore0 1 1 th u 0 = 0 /\ Spec.logScore1 1 1 th u 0 = 0.
Proof.
  intros HP HW HIB HPr HOB.
  unfold Spec.logScore1, Spec.logScore0, Spec.featureEnergy, Spec.biasEnergy,
    Spec.predictorEnergy. cbn [rsum].
  rewrite HP, HW, HIB, HPr, HOB. split; ring.
Qed.

Lemma tiny_logProbs th u :
  (forall c, thPriors th c = 0) -> (forall c f, thWeights th c f = 0) ->
  (forall d c, thInputBias th d c = 0) -> (forall c d, thPredictors th c d = 0) ->
  (forall c, thOutputBias th c = 0) ->
  Spec.logProb0 1 1 1 th u = 0 /\ Spec.logProb1 1 1 1 th u = 0 /\
  Spec.logNorm 1 1 1 th u = ln 2.
Proof.
  intros HP HW HIB HPr HOB.
  destruct (tiny_scores th u HP HW HIB HPr HOB) as [S0 S1].
  assert (L0 : Spec.logProb0 1 1 1 th u = 0).
  { unfold Spec.logProb0, Spec.lse. cbn [rsum]. rewrite S0, Rplus_0_l, exp_0. apply ln_1. }
  assert (L1 : Spec.logProb1 1 1 1 th u = 0).
  { unfold Spec.logProb1, Spec.lse. cbn [rsum]. rewrite S1, Rplus_0_l, exp_0. apply ln_1. }
  repeat split; try assumption.
  unfold Spec.logNorm. rewrite L0, L1, exp_0.
  replace (1 + 1) with 2 by lra. reflexivity.
Qed.

Lemma theta_tiny_zero :
  let th := theta_of (bindViews storeTiny [0] paramsOB) in
  (forall c, thPriors th c = 0) /\ (forall c f, thWeights th c f = 0) /\
  (forall d c, thInputBias th d c = 0) /\ (forall c d, thPredictors th c d = 0) /\
  (forall c, thOutputBias th c = 0).
Proof.
  assert (Z1 : forall k, nth k [0] 0 = 0) by (intros [|[|k]]; reflexivity).
  cbv zeta. unfold theta_of, theta_mats, bindViews, coeff.
  cbn [thPriors thWeights thInputBias thPredictors thOutputBias priors weights
       inputBias predictors outputBias trainPriors trainWeights trainInputBias
       trainPredictors trainOutputBias paramsOB storeTiny mPriors mWeights
       mInputBias mPredictors mOutputBias mNumComponents mNumFeatures mDimIn
       data rows MapMat].
  cbn [Nat.mul Nat.add firstn skipn].
  repeat split; intros; apply Z1.
Qed.

Example computeGradient_tiny :
  computeGradient storeTiny inputTiny outputTiny [0] (Some [7]) paramsOB
  = Returns (- ln 2 * ln 2, Some [ln 2 / 2]).
Proof.
  assert (HX : rows inputTiny = mDimIn storeTiny) by reflexivity.
  assert (HY : rows outputTiny = 1%nat) by reflexivity.
  assert (HC : (0 < mNumComponents storeTiny)%nat) by (simpl; lia).
  assert (Hb : (1 <= batchSize paramsOB)%Z) by (simpl; lia).
  assert (Hoff : offset (bindViews storeTiny [0] paramsOB) = 1%nat) by reflexivity.
  destruct (computeGradient_closed storeTiny inputTiny outputTiny [0] paramsOB
              HX HY HC (or_introl Hb) (Some [7])) as (g' & E & P).
  { intros gb Egb. injection Egb as <-. rewrite Hoff. simpl. lia. }
  destruct g' as [g'|]; [|contradiction]. destruct P as [L Nn].
  destruct theta_tiny_zero as (HP & HW & HIB & HPr & HOB).
  set (th := theta_of (bindViews storeTiny [0] paramsOB)) in *.
  set (u := fun d => coeff inputTiny d 0).
  destruct (tiny_scores th u HP HW HIB HPr HOB) as [S0 S1].
  destruct (tiny_logProbs th u HP HW HIB HPr HOB) as (L0 & L1 & LN).
  pose proof ln2_pos as Hln.
  assert (Ehalf : exp (0 - ln 2) = / 2).
  { unfold Rminus. rewrite Rplus_0_l, exp_Ropp, exp_ln by lra. reflexivity. }
  rewrite E. f_equal. f_equal.
  - unfold Spec.objective. change (cols inputTiny) with 1%nat. rewrite rsum_one.
    change (mNumComponents storeTiny) with 1%nat.
    change (mDimIn storeTiny) with 1%nat. change (mNumFeatures storeTiny) with 1%nat.
    fold u. unfold Spec.condLogLik. rewrite L0, L1, LN.
    change (coeff outputTiny 0 0) with 1. simpl INR. field. lra.
  - f_equal. destruct g' as [|a [|b g']]; try discriminate L.
    f_equal. specialize (Nn 0%nat). rewrite Hoff in Nn.
    change (nth 0 [a] 0) with a in Nn. change (0 <? 1)%nat with true in Nn.
    cbv iota in Nn. rewrite Nn.
    change (cols inputTiny) with 1%nat. rewrite rsum_one.
    unfold gradColumn.
    replace (trainPriors paramsOB && _) with false by reflexivity.
    replace (trainWeights paramsOB && _) with false by reflexivity.
    replace (trainFeatures paramsOB && _) with false by reflexivity.
    replace (trainPredictors paramsOB && _) with false by reflexivity.
    replace (trainInputBias paramsOB && _) with false by reflexivity.
    replace (trainOutputBias paramsOB && _) with true by reflexivity.
    change (mNumComponents storeTiny) with 1%nat.
    change (mDimIn storeTiny) with 1%nat. change (mNumFeatures storeTiny) with 1%nat.
    fold th u.
    change (0 - outputBiasGrad (bindViews storeTiny [0%R] paramsOB))%nat with 0%nat.
    unfold Spec.gradOutputBias, Spec.post1Tmp, Spec.tmp.
    rewrite S1, L0, L1, LN. change (coeff outputTiny 0 0) with 1.
    rewrite Ehalf, Rminus_diag, exp_0.
    unfold normConst. change (cols inputTiny) with 1%nat. simpl INR. field. lra.
Qed.

(* ================================================================== *)
(** * Further properties of the code *)
(* ================================================================== *)

(** ** The vectorization layer, continued *)

(** X1. On a well-shaped store [parameters] returns exactly the flat
    layout: the column-major data of the flagged groups, concatenated in
    the order priors, weights, features, predictors, inputBias,
    outputBias, with nothing for an unflagged group; it fills every one of
    the [numParameters] cells it allocated and no more. *)
Theorem parameters_layout (m : MCBM) (params : Parameters) :
  wfMCBM m ->
  parameters m params
  = (if trainPriors params then data (mPriors m) else []) ++
    (if trainWeights params then data (mWeights m) else []) ++
    (if trainFeatures params then data (mFeatures m) else []) ++
    (if trainPredictors params then data (mPredictors m) else []) ++
    (if trainInputBias params then data (mInputBias m) else []) ++
    (if trainOutputBias params then data (mOutputBias m) else []) /\
  length (parameters m params) = numParameters m params.
Proof.
  intros Hwf. split.
  - apply (parameters_flatLayout m params Hwf).
  - apply length_parameters. exact Hwf.
Qed.

(** The layout of [storeA] when weights and output bias are trained. *)
Lemma parameters_layout_witness :
  parameters storeA paramsWO
  = (if trainPriors paramsWO then data (mPriors storeA) else []) ++
    (if trainWeights paramsWO then data (mWeights storeA) else []) ++
    (if trainFeatures paramsWO then data (mFeatures storeA) else []) ++
    (if trainPredictors paramsWO then data (mPredictors storeA) else []) ++
    (if trainInputBias paramsWO then data (mInputBias storeA) else []) ++
    (if trainOutputBias paramsWO then data (mOutputBias storeA) else []) /\
  length (parameters storeA paramsWO) = numParameters storeA paramsWO.
Proof.
  apply (parameters_layout storeA paramsWO). repeat split; reflexivity.
Defined.

(** The views bound over the store's own flat vector are the stored
    groups themselves. *)
Lemma bindViews_parameters m params :
  wfMCBM m ->
  let V := bindViews m (parameters m params) params in
  priors V = mPriors m /\ weights V = mWeights m /\ features V = mFeatures m /\
  predictors V = mPredictors m /\ inputBias V = mInputBias m /\
  outputBias V = mOutputBias m.
Proof.
  intros Hwf V. subst V. rewrite (parameters_flatLayout m params Hwf).
  destruct (views_of_flatLayout m m params Hwf) as (V0 & V1 & V2 & V3 & V4 & V5);
    [repeat split|].
  destruct (bindViews_views m (flatLayout m params) params) as (W0 & W1 & W2 & W3 & W4 & W5).
  destruct Hwf as (HP & HW & HF & HPr & HIB & HOB).
  repeat split.
  - destruct (trainPriors params) eqn:E; [auto|]. rewrite W0. apply MapMat_data; exact HP.
  - destruct (trainWeights params) eqn:E; [auto|]. rewrite W1. apply MapMat_data; exact HW.
  - destruct (trainFeatures params) eqn:E; [auto|]. rewrite W2. apply MapMat_data; exact HF.
  - destruct (trainPredictors params) eqn:E; [auto|]. rewrite W3. apply MapMat_data; exact HPr.
  - destruct (trainInputBias params) eqn:E; [auto|]. rewrite W4. apply MapMat_data; exact HIB.
  - destruct (trainOutputBias params) eqn:E; [auto|]. rewrite W5. apply MapMat_data; exact HOB.
Qed.

(** X2. Loading a store's own flat vector back into it changes nothing:
    [setParameters] after [parameters] is the identity on a well-shaped
    store, for every set of flags. *)
Theorem setParameters_parameters_identity (m : MCBM) (params : Parameters) :
  wfMCBM m -> setParameters m (parameters m params) params = m.
Proof.
  intros Hwf. rewrite setParameters_views. cbv zeta.
  destruct (bindViews_parameters m params Hwf) as (-> & -> & -> & -> & -> & ->).
  destruct m; cbn.
  destruct (trainPriors params), (trainWeights params), (trainFeatures params),
    (trainPredictors params), (trainInputBias params), (trainOutputBias params);
    reflexivity.
Qed.

(** Reloading [storeA]. *)
Lemma setParameters_parameters_identity_witness :
  setParameters storeA (parameters storeA paramsWO) paramsWO = storeA.
Proof.
  apply (setParameters_parameters_identity storeA paramsWO). repeat split; reflexivity.
Defined.

(** ** The forward engine, continued *)

(** Each normalized log-probability is negative. *)
Lemma normalized_negative a b :
  a - ln (exp a + exp b) < 0 /\ b - ln (exp a + exp b) < 0.
Proof.
  assert (Ha := exp_pos a). assert (Hb := exp_pos b).
  split.
  - rewrite <- (ln_exp a) at 1. apply Rlt_minus. apply ln_increasing; lra.
  - rewrite <- (ln_exp b) at 1. apply Rlt_minus. apply ln_increasing; lra.
Qed.

Lemma condLogLik_negative C D F th u y :
  y = 0 \/ y = 1 -> Spec.condLogLik C D F th u y < 0.
Proof.
  intros Hy. unfold Spec.condLogLik, Spec.logNorm.
  destruct (normalized_negative (Spec.logProb0 C D F th u) (Spec.logProb1 C D F th u))
    as [H0 H1].
  destruct Hy as [-> | ->]; lra.
Qed.

Lemma rsum_neg n f :
  (0 < n)%nat -> (forall k, (k < n)%nat -> f k < 0) -> rsum n f < 0.
Proof.
  intros Hn H.
  assert (Hp : 0 < rsum n (fun k => - f k))
    by (apply rsum_pos; [exact Hn | intros k Hk; specialize (H k Hk); lra]).
  rewrite (rsum_ext n (fun k => - f k) (fun k => -1 * f k)) in Hp by (intros; ring).
  rewrite rsum_scal_l in Hp. lra.
Qed.

(** The entries of [logLikelihood], from the code. *)
Lemma logLikelihood_coeff m input_ output_ n :
  (0 < irows output_)%nat -> (n < icols output_)%nat ->
  coeff (logLikelihood m input_ output_) 0 n
  = IZR (icoeff output_ 0 n)
    * coeff (snd (normalizedLogProbs m (cast_double input_))) 0 n
    + (1 - IZR (icoeff output_ 0 n))
      * coeff (fst (normalizedLogProbs m (cast_double input_))) 0 n.
Proof.
  intros Hr Hn. unfold logLikelihood.
  destruct (normalizedLogProbs m (cast_double input_)) as [lp0 lp1]. cbn [fst snd].
  rewrite coeff_madd, !coeff_cmul, coeff_one_minus, coeff_cast_double by dims.
  reflexivity.
Qed.

(** X3. [logLikelihood] returns one entry per column, and entry [n] is
    the conditional log-likelihood of output bit [n] given input column
    [n]: [y (logProb1 - logNorm) + (1 - y) (logProb0 - logNorm)], with
    the scores of the stored parameters. *)
Theorem logLikelihood_entries (m : MCBM) (input_ output_ : MatrixXi) :
  wfMCBM m -> (0 < mNumComponents m)%nat ->
  irows input_ = mDimIn m -> irows output_ = 1%nat -> icols output_ = icols input_ ->
  let LL := logLikelihood m input_ output_ in
  rows LL = 1%nat /\ cols LL = icols input_ /\
  forall n, (n < icols input_)%nat ->
    coeff LL 0 n
    = Spec.condLogLik (mNumComponents m) (mDimIn m) (mNumFeatures m) (theta_store m)
                      (fun d => coeff (cast_double input_) d n)
                      (IZR (icoeff output_ 0 n)).
Proof.
  intros Hwf HC Hri Hro Hc LL.
  assert (Hshape : rows LL = 1%nat /\ cols LL = icols input_).
  { unfold LL, logLikelihood.
    destruct (normalizedLogProbs m (cast_double input_)) as [lp0 lp1].
    cbn [rows cols madd cmul cwise2 tabulate cast_double]. split; congruence. }
  destruct Hshape as [H1 H2]. repeat (split; [assumption|]).
  intros n Hn. unfold LL.
  rewrite logLikelihood_coeff by lia.
  destruct (coeff_normalized_spec m (cast_double input_) n Hwf HC) as [E0 E1];
    [exact Hn|].
  rewrite E0, E1. reflexivity.
Qed.

(** Two columns on [storeA]. *)
Lemma logLikelihood_entries_witness :
  let input_ := mkMatI 2 2 [1; 0; 0; 1]%Z in
  let output_ := mkMatI 1 2 [1; 0]%Z in
  let LL := logLikelihood storeA input_ output_ in
  rows LL = 1%nat /\ cols LL = icols input_ /\
  forall n, (n < icols input_)%nat ->
    coeff LL 0 n
    = Spec.condLogLik (mNumComponents storeA) (mDimIn storeA) (mNumFeatures storeA)
                      (theta_store storeA)
                      (fun d => coeff (cast_double input_) d n)
                      (IZR (icoeff output_ 0 n)).
Proof.
  apply (logLikelihood_entries storeA (mkMatI 2 2 [1; 0; 0; 1]%Z) (mkMatI 1 2 [1; 0]%Z)).
  - repeat split; reflexivity.
  - simpl. lia.
  - reflexivity.
  - reflexivity.
  - reflexivity.
Defined.

(** Over the reals the signs are strict: for output bits that are 0 or 1
    every entry of [logLikelihood] is negative and [evaluate] is positive
    on a non-empty batch.  (In double precision a saturated entry can
    round to zero.) *)
Lemma logLikelihood_signs_strict (m : MCBM) (input_ output_ : MatrixXi) :
  irows output_ = 1%nat -> icols output_ = icols input_ -> binaryRow output_ ->
  (forall n, (n < icols input_)%nat -> coeff (logLikelihood m input_ output_) 0 n < 0) /\
  ((1 <= icols input_)%nat -> 0 < evaluate m input_ output_).
Proof.
  intros Hro Hc Hbin.
  assert (Hneg : forall n, (n < icols input_)%nat ->
                           coeff (logLikelihood m input_ output_) 0 n < 0).
  { intros n Hn. rewrite logLikelihood_coeff by lia.
    destruct (coeff_normalized m (cast_double input_) n) as [E0 E1]; [exact Hn|].
    cbv zeta in E0, E1. rewrite E0, E1.
    destruct (normalized_negative
                (coeff (fst (forward m (cast_double input_))) 0 n)
                (coeff (snd (forward m (cast_double input_))) 0 n)) as [N0 N1].
    destruct (Hbin n ltac:(lia)) as [-> | ->]; lra. }
  split; [exact Hneg|].
  intros HN. unfold evaluate, mean, msum, size, dimOut.
  assert (Hr : rows (logLikelihood m input_ output_) = 1%nat).
  { unfold logLikelihood.
    destruct (normalizedLogProbs m (cast_double input_)) as [lp0 lp1].
    cbn [rows madd cmul cwise2 tabulate cast_double]. exact Hro. }
  assert (Hcl : cols (logLikelihood m input_ output_) = icols input_).
  { unfold logLikelihood.
    destruct (normalizedLogProbs m (cast_double input_)) as [lp0 lp1].
    cbn [cols madd cmul cwise2 tabulate cast_double]. exact Hc. }
  rewrite Hr, Hcl.
  rewrite (rsum_ext (icols input_) _ (fun j => coeff (logLikelihood m input_ output_) 0 j))
    by (intros; apply rsum_one).
  assert (Hs : rsum (icols input_) (fun j => coeff (logLikelihood m input_ output_) 0 j) < 0)
    by (apply rsum_neg; [lia | exact Hneg]).
  assert (HN' : 0 < INR (1 * icols input_)) by (apply lt_0_INR; lia).
  pose proof ln2_pos as Hln.
  simpl (INR 1).
  set (S0 := rsum _ _) in *. set (c := INR (1 * icols input_)) in *.
  pose proof (Rinv_0_lt_compat c HN') as Hic.
  pose proof (Rinv_0_lt_compat (ln 2) Hln) as Hil.
  assert (Hq : 0 < - (S0 * / c)) by nra.
  unfold Rdiv. rewrite Rinv_1, Rmult_1_r.
  apply Rmult_lt_0_compat; assumption.
Qed.

(** X4. For output bits that are 0 or 1 no entry of [logLikelihood] is
    positive, and on a non-empty batch [evaluate], the mean negative
    log-likelihood in bits, is not negative. *)
Theorem logLikelihood_nonpositive_evaluate_nonnegative
        (m : MCBM) (input_ output_ : MatrixXi) :
  irows output_ = 1%nat -> icols output_ = icols input_ -> binaryRow output_ ->
  (forall n, (n < icols input_)%nat -> coeff (logLikelihood m input_ output_) 0 n <= 0) /\
  ((1 <= icols input_)%nat -> 0 <= evaluate m input_ output_).
Proof.
  intros Hro Hc Hbin.
  destruct (logLikelihood_signs_strict m input_ output_ Hro Hc Hbin) as [H1 H2].
  split.
  - intros n Hn. apply Rlt_le. apply H1. exact Hn.
  - intros HN. apply Rlt_le. apply H2. exact HN.
Qed.

(** Two columns on [storeA]. *)
Lemma logLikelihood_nonpositive_evaluate_nonnegative_witness :
  let input_ := mkMatI 2 2 [1; 0; 0; 1]%Z in
  let output_ := mkMatI 1 2 [1; 0]%Z in
  (forall n, (n < icols input_)%nat -> coeff (logLikelihood storeA input_ output_) 0 n <= 0) /\
  ((1 <= icols input_)%nat -> 0 <= evaluate storeA input_ output_).
Proof.
  apply (logLikelihood_nonpositive_evaluate_nonnegative
           storeA (mkMatI 2 2 [1; 0; 0; 1]%Z) (mkMatI 1 2 [1; 0]%Z)).
  - reflexivity.
  - reflexivity.
  - intros [|[|n]] Hn; [right; reflexivity | left; reflexivity | simpl in Hn; lia].
Defined.

Lemma nth_repeat_lt {A : Type} (a d : A) n k : (k < n)%nat -> nth k (repeat a n) d = a.
Proof.
  revert k. induction n as [|n IH]; intros k Hk; [lia|].
  destruct k as [|k]; [reflexivity|]. simpl. apply IH. lia.
Qed.

Lemma icoeff_onesI N n : (n < N)%nat -> icoeff (onesI N) 0 n = 1%Z.
Proof. intros H. unfold icoeff, onesI; simpl. apply nth_repeat_lt. lia. Qed.

(** The bit that [sample] writes for column [n], from the code. *)
Lemma sample_coeff m input_ rnd n :
  (n < icols input_)%nat ->
  icoeff (sample m input_ rnd) 0 n
  = if Rlt_dec (Rabs (rnd n))
               (exp (coeff (snd (normalizedLogProbs m (cast_double input_))) 0 n))
    then 1%Z else 0%Z.
Proof.
  intros Hn.
  assert (Hc : cols (cast_double input_) = icols input_) by reflexivity.
  unfold sample, normalizedLogProbs, forward. cbn [snd].
  rewrite icoeff_lt_cast_int by (dims; rewrite ?Hc; lia).
  unfold mabs. rewrite (coeff_cwise Rabs) by (dims; rewrite ?Hc; lia).
  rewrite coeff_mexp by (dims; rewrite ?Hc; lia).
  rewrite coeff_tabulate by (rewrite ?Hc; lia).
  reflexivity.
Qed.

(** X5. [sample] draws from the distribution that [logLikelihood]
    evaluates: bit [n] is 1 exactly when the [n]-th draw is below the
    exponential of the log-likelihood that [logLikelihood] gives to output
    1 on column [n], and 0 otherwise. *)
Theorem sample_agrees_with_logLikelihood
        (m : MCBM) (input_ : MatrixXi) (rnd : nat -> R) (n : nat) :
  (n < icols input_)%nat ->
  let N := icols input_ in
  let ll1 := coeff (logLikelihood m input_ (onesI N)) 0 n in
  (icoeff (sample m input_ rnd) 0 n = 1%Z <-> Rabs (rnd n) < exp ll1) /\
  (icoeff (sample m input_ rnd) 0 n = 0%Z <-> exp ll1 <= Rabs (rnd n)).
Proof.
  intros Hn N ll1.
  assert (E1 : ll1 = coeff (snd (normalizedLogProbs m (cast_double input_))) 0 n).
  { unfold ll1. rewrite logLikelihood_coeff by (simpl; lia).
    rewrite icoeff_onesI by exact Hn. simpl IZR. ring. }
  rewrite sample_coeff by exact Hn. rewrite <- E1.
  split.
  - destruct (Rlt_dec (Rabs (rnd n)) (exp ll1)); split; intros; try assumption;
      try reflexivity; try discriminate; contradiction.
  - destruct (Rlt_dec (Rabs (rnd n)) (exp ll1)); split; intros; try discriminate;
      try reflexivity; lra.
Qed.

(** The first column of a batch on [storeA]. *)
Lemma sample_agrees_with_logLikelihood_witness :
  let input_ := mkMatI 2 2 [1; 0; 0; 1]%Z in
  let rnd := fun _ : nat => 1 / 2 in
  let ll1 := coeff (logLikelihood storeA input_ (onesI 2)) 0 0 in
  (icoeff (sample storeA input_ rnd) 0 0 = 1%Z <-> Rabs (rnd 0%nat) < exp ll1) /\
  (icoeff (sample storeA input_ rnd) 0 0 = 0%Z <-> exp ll1 <= Rabs (rnd 0%nat)).
Proof.
  apply (sample_agrees_with_logLikelihood storeA (mkMatI 2 2 [1; 0; 0; 1]%Z)
                                          (fun _ : nat => 1 / 2) 0).
  simpl. lia.
Defined.

(** X6. In exact arithmetic, with a single component the model is a
    logistic regression: the probability of output 1 is the logistic
    function of the predictor energy plus the output bias; features,
    weights, input bias and prior cancel.  (In double precision the
    cancellation is lost when the common part of the two scores is so
    large that it absorbs the rest.) *)
Theorem single_component_is_logistic (m : MCBM) (input : Matrix) (n : nat) :
  wfMCBM m -> mNumComponents m = 1%nat -> rows input = mDimIn m ->
  (n < cols input)%nat ->
  let a := rsum (mDimIn m) (fun d => coeff (mPredictors m) 0 d * coeff input d n)
           + coeff (mOutputBias m) 0 0 in
  exp (coeff (snd (normalizedLogProbs m input)) 0 n) = / (1 + exp (- a)) /\
  exp (coeff (fst (normalizedLogProbs m input)) 0 n) = / (1 + exp a).
Proof.
  intros Hwf HC1 Hr Hn a.
  destruct (coeff_normalized_spec m input n Hwf ltac:(lia) Hn) as [E0 E1].
  cbv zeta in E0, E1. rewrite E0, E1. clear E0 E1. rewrite HC1.
  set (u := fun d => coeff input d n).
  set (s0 := Spec.logScore0 (mDimIn m) (mNumFeatures m) (theta_store m) u 0).
  assert (L0 : Spec.logProb0 1 (mDimIn m) (mNumFeatures m) (theta_store m) u = s0).
  { unfold Spec.logProb0, Spec.lse. cbn [rsum]. rewrite Rplus_0_l. apply ln_exp. }
  assert (L1 : Spec.logProb1 1 (mDimIn m) (mNumFeatures m) (theta_store m) u = s0 + a).
  { unfold Spec.logProb1, Spec.lse. cbn [rsum]. rewrite Rplus_0_l, ln_exp.
    unfold Spec.logScore1. fold s0. unfold a, Spec.predictorEnergy, theta_store, theta_mats.
    cbn [thPredictors thOutputBias]. unfold u. ring. }
  unfold Spec.logNorm. rewrite L0, L1.
  assert (H0 := exp_pos s0). assert (Ha := exp_pos a). assert (Hna := exp_pos (- a)).
  assert (Einv : exp a * exp (- a) = 1) by (rewrite <- exp_plus, Rplus_opp_r; apply exp_0).
  assert (Es : exp (s0 + a) = exp s0 * exp a) by apply exp_plus.
  assert (HT : 0 < exp s0 + exp (s0 + a)) by (rewrite Es; nra).
  assert (X1 : forall t, exp (t - ln (exp s0 + exp (s0 + a)))
                         = exp t / (exp s0 + exp (s0 + a))).
  { intros t. unfold Rminus, Rdiv. rewrite exp_plus, exp_Ropp, exp_ln by exact HT.
    reflexivity. }
  rewrite !X1, Es.
  split; field_simplify_eq; try nra; repeat split; nra.
Qed.

(** A one-component store in which no parameter is zero, second column. *)
Lemma single_component_is_logistic_witness :
  let a := rsum (mDimIn storeOne)
                (fun d => coeff (mPredictors storeOne) 0 d * coeff inputOne d 1)
           + coeff (mOutputBias storeOne) 0 0 in
  exp (coeff (snd (normalizedLogProbs storeOne inputOne)) 0 1) = / (1 + exp (- a)) /\
  exp (coeff (fst (normalizedLogProbs storeOne inputOne)) 0 1) = / (1 + exp a).
Proof.
  apply (single_component_is_logistic storeOne inputOne 1).
  - repeat split; reflexivity.
  - reflexivity.
  - reflexivity.
  - simpl. lia.
Defined.

Lemma lse_add n s a :
  (0 < n)%nat -> Spec.lse n (fun c => s c + a) = Spec.lse n s + a.
Proof.
  intros Hn. unfold Spec.lse.
  assert (Hpos : 0 < rsum n (fun i => exp (s i)))
    by (apply rsum_pos; [exact Hn | intros; apply exp_pos]).
  rewrite (rsum_ext n (fun i => exp (s i + a)) (fun i => exp (s i) * exp a))
    by (intros; apply exp_plus).
  rewrite rsum_scal_r, ln_mult by (try exact Hpos; apply exp_pos).
  rewrite ln_exp. reflexivity.
Qed.

Lemma lse_ext n s t :
  (forall c, (c < n)%nat -> s c = t c) -> Spec.lse n s = Spec.lse n t.
Proof.
  intros H. unfold Spec.lse. f_equal. apply rsum_ext. intros c Hc. rewrite (H c Hc).
  reflexivity.
Qed.

Lemma wfMCBM_shiftPriors m a : wfMCBM m -> wfMCBM (shiftPriors m a).
Proof.
  intros (HP & HW & HF & HPr & HI & HO).
  repeat split; try apply HW; try apply HF; try apply HPr; try apply HI; try apply HO;
    destruct HP as (Hr & Hc & Hl); unfold shiftPriors, set_mPriors, shift, cwise, tabulate;
    cbn [mPriors mNumComponents rows cols data]; try assumption.
  rewrite length_map, length_seq, Hr, Hc. reflexivity.
Qed.

Lemma normalizedLogProbs_shiftPriors m a input n :
  wfMCBM m -> (0 < mNumComponents m)%nat -> (n < cols input)%nat ->
  coeff (fst (normalizedLogProbs (shiftPriors m a) input)) 0 n
  = coeff (fst (normalizedLogProbs m input)) 0 n /\
  coeff (snd (normalizedLogProbs (shiftPriors m a) input)) 0 n
  = coeff (snd (normalizedLogProbs m input)) 0 n.
Proof.
  intros Hwf HC Hn.
  destruct (coeff_normalized_spec m input n Hwf HC Hn) as [E0 E1].
  destruct (coeff_normalized_spec (shiftPriors m a) input n
              (wfMCBM_shiftPriors m a Hwf) HC Hn) as [E0' E1'].
  cbv zeta in E0, E1, E0', E1'. rewrite E0, E1, E0', E1'. clear E0 E1 E0' E1'.
  change (mNumComponents (shiftPriors m a)) with (mNumComponents m).
  change (mDimIn (shiftPriors m a)) with (mDimIn m).
  change (mNumFeatures (shiftPriors m a)) with (mNumFeatures m).
  set (C := mNumComponents m). set (D := mDimIn m). set (F := mNumFeatures m).
  set (u := fun d => coeff input d n).
  set (th := theta_store m). set (th' := theta_store (shiftPriors m a)).
  assert (HP : forall c, (c < C)%nat -> thPriors th' c = thPriors th c + a).
  { intros c Hc. unfold th', th, theta_store, theta_mats, shiftPriors, set_mPriors, shift.
    cbn [thPriors mPriors].
    destruct Hwf as ((Hr & Hcl & _) & _).
    apply coeff_cwise; fold C in Hr; lia. }
  assert (S0 : forall c, (c < C)%nat ->
             Spec.logScore0 D F th' u c = Spec.logScore0 D F th u c + a).
  { intros c Hc. unfold Spec.logScore0. rewrite (HP c Hc).
    change (Spec.featureEnergy D F th' u c) with (Spec.featureEnergy D F th u c).
    change (Spec.biasEnergy D th' u c) with (Spec.biasEnergy D th u c). ring. }
  assert (S1 : forall c, (c < C)%nat ->
             Spec.logScore1 D F th' u c = Spec.logScore1 D F th u c + a).
  { intros c Hc. unfold Spec.logScore1. rewrite (S0 c Hc).
    change (Spec.predictorEnergy D th' u c) with (Spec.predictorEnergy D th u c).
    change (thOutputBias th' c) with (thOutputBias th c). ring. }
  assert (L0 : Spec.logProb0 C D F th' u = Spec.logProb0 C D F th u + a).
  { unfold Spec.logProb0. rewrite (lse_ext C _ _ S0). apply lse_add. exact HC. }
  assert (L1 : Spec.logProb1 C D F th' u = Spec.logProb1 C D F th u + a).
  { unfold Spec.logProb1. rewrite (lse_ext C _ _ S1). apply lse_add. exact HC. }
  assert (LN : Spec.logNorm C D F th' u = Spec.logNorm C D F th u + a).
  { unfold Spec.logNorm. rewrite L0, L1, !exp_plus, <- Rmult_plus_distr_r.
    rewrite ln_mult, ln_exp; [reflexivity | | apply exp_pos].
    apply Rplus_lt_0_compat; apply exp_pos. }
  rewrite L0, L1, LN. split; ring.
Qed.

(** X7. In exact arithmetic the model only depends on the priors up to
    a common additive constant: adding the same number to every prior
    changes neither the log-likelihoods nor the samples.  (In double
    precision a shift large enough to absorb the scores does change
    them.) *)
Theorem priors_shift_invariance
        (m : MCBM) (a : R) (input_ output_ : MatrixXi) (rnd : nat -> R) (n : nat) :
  wfMCBM m -> (0 < mNumComponents m)%nat ->
  irows output_ = 1%nat -> icols output_ = icols input_ -> (n < icols input_)%nat ->
  coeff (logLikelihood (shiftPriors m a) input_ output_) 0 n
  = coeff (logLikelihood m input_ output_) 0 n /\
  icoeff (sample (shiftPriors m a) input_ rnd) 0 n = icoeff (sample m input_ rnd) 0 n.
Proof.
  intros Hwf HC Hro Hco Hn.
  destruct (normalizedLogProbs_shiftPriors m a (cast_double input_) n Hwf HC Hn)
    as [E0 E1].
  split.
  - rewrite !logLikelihood_coeff by lia. rewrite E0, E1. reflexivity.
  - rewrite !sample_coeff by exact Hn. rewrite E1. reflexivity.
Qed.

(** The priors of [storeA] moved by 3. *)
Lemma priors_shift_invariance_witness :
  let input_ := mkMatI 2 2 [1; 0; 0; 1]%Z in
  let output_ := mkMatI 1 2 [1; 0]%Z in
  let rnd := fun _ : nat => 1 / 2 in
  coeff (logLikelihood (shiftPriors storeA 3) input_ output_) 0 1
  = coeff (logLikelihood storeA input_ output_) 0 1 /\
  icoeff (sample (shiftPriors storeA 3) input_ rnd) 0 1
  = icoeff (sample storeA input_ rnd) 0 1.
Proof.
  apply (priors_shift_invariance storeA 3 (mkMatI 2 2 [1; 0; 0; 1]%Z)
                                 (mkMatI 1 2 [1; 0]%Z) (fun _ : nat => 1 / 2) 1).
  - repeat split; reflexivity.
  - simpl. lia.
  - reflexivity.
  - reflexivity.
  - simpl. lia.
Defined.

(** ** The objective and its gradient buffer *)

(** X8. [computeGradient] overwrites the first [numParameters] cells of
    the gradient buffer and leaves the rest alone: the value it returns is
    the same with and without a buffer, the cells it writes do not depend
    on what the buffer held before, and the cells from [numParameters] on
    keep their contents. *)
Theorem computeGradient_overwrites_gradient
        (m : MCBM) (X Y : Matrix) (x : buffer) (params : Parameters) (g1 g2 : buffer) :
  wfMCBM m -> rows X = mDimIn m -> rows Y = 1%nat -> (0 < mNumComponents m)%nat ->
  (1 <= batchSize params)%Z ->
  (numParameters m params <= length g1)%nat ->
  (numParameters m params <= length g2)%nat ->
  exists v g1' g2',
    computeGradient m X Y x None params = Returns (v, None) /\
    computeGradient m X Y x (Some g1) params = Returns (v, Some g1') /\
    computeGradient m X Y x (Some g2) params = Returns (v, Some g2') /\
    length g1' = length g1 /\
    (forall k, (k < numParameters m params)%nat -> nth k g1' 0 = nth k g2' 0) /\
    (forall k, (numParameters m params <= k)%nat -> nth k g1' 0 = nth k g1 0).
Proof.
  intros Hwf HX HY HC Hb H1 H2.
  pose proof (offset_numParameters m x params Hwf) as Hoff.
  destruct (computeGradient_closed m X Y x params HX HY HC (or_introl Hb) None)
    as (g0' & E0 & P0); [discriminate|].
  destruct g0' as [?|]; [contradiction|].
  destruct (computeGradient_closed m X Y x params HX HY HC (or_introl Hb) (Some g1))
    as (g1' & E1 & P1); [intros gb Egb; injection Egb as <-; lia|].
  destruct g1' as [g1'|]; [|contradiction].
  destruct (computeGradient_closed m X Y x params HX HY HC (or_introl Hb) (Some g2))
    as (g2' & E2 & P2); [intros gb Egb; injection Egb as <-; lia|].
  destruct g2' as [g2'|]; [|contradiction].
  destruct P1 as [L1 N1], P2 as [L2 N2]. rewrite Hoff in N1, N2.
  eexists _, g1', g2'. repeat split; try eassumption.
  - intros k Hk. rewrite N1, N2.
    replace (k <? numParameters m params)%nat with true
      by (symmetry; apply Nat.ltb_lt; exact Hk).
    reflexivity.
  - intros k Hk. rewrite N1.
    replace (k <? numParameters m params)%nat with false
      by (symmetry; apply Nat.ltb_ge; exact Hk).
    reflexivity.
Qed.

(** Two buffers of different contents and lengths on [storeA]. *)
Lemma computeGradient_overwrites_gradient_witness :
  exists v g1' g2',
    computeGradient storeA inputA outputA (parameters storeA paramsWO) None paramsWO
    = Returns (v, None) /\
    computeGradient storeA inputA outputA (parameters storeA paramsWO)
                    (Some [1; 2; 3; 4; 5]) paramsWO = Returns (v, Some g1') /\
    computeGradient storeA inputA outputA (parameters storeA paramsWO)
                    (Some [0; 0; 0; 0]) paramsWO = Returns (v, Some g2') /\
    length g1' = length [1; 2; 3; 4; 5] /\
    (forall k, (k < numParameters storeA paramsWO)%nat -> nth k g1' 0 = nth k g2' 0) /\
    (forall k, (numParameters storeA paramsWO <= k)%nat ->
               nth k g1' 0 = nth k [1; 2; 3; 4; 5] 0).
Proof.
  apply (computeGradient_overwrites_gradient storeA inputA outputA
           (parameters storeA paramsWO) paramsWO [1; 2; 3; 4; 5] [0; 0; 0; 0]).
  - repeat split; reflexivity.
  - reflexivity.
  - reflexivity.
  - simpl. lia.
  - simpl. lia.
  - vm_compute. lia.
  - vm_compute. lia.
Defined.

Lemma theta_of_parameters m params :
  wfMCBM m -> theta_of (bindViews m (parameters m params) params) = theta_store m.
Proof.
  intros Hwf.
  destruct (bindViews_parameters m params Hwf) as (E1 & E2 & E3 & E4 & E5 & E6).
  cbv zeta in E1, E2, E3, E4, E5, E6.
  unfold theta_of, theta_store. rewrite E1, E2, E3, E4, E5, E6. reflexivity.
Qed.

(** The objective at the coefficients of the store is the mean of the
    entries of [logLikelihood] times [ln 2]. *)
Lemma objective_mean_logLikelihood m input_ output_ :
  wfMCBM m -> (0 < mNumComponents m)%nat ->
  irows output_ = 1%nat -> icols output_ = icols input_ -> (1 <= icols input_)%nat ->
  Spec.objective (mNumComponents m) (mDimIn m) (mNumFeatures m) (theta_store m)
                 (cast_double input_) (cast_double output_)
  = mean (logLikelihood m input_ output_) * ln 2.
Proof.
  intros Hwf HC Hro Hc HN.
  pose proof ln2_pos as Hln.
  assert (HNr : 0 < INR (icols input_)) by (apply lt_0_INR; lia).
  set (LL := logLikelihood m input_ output_).
  unfold Spec.objective, mean, msum, size.
  assert (Hr : rows LL = 1%nat).
  { unfold LL, logLikelihood.
    destruct (normalizedLogProbs m (cast_double input_)) as [lp0 lp1].
    cbn [rows madd cmul cwise2 tabulate cast_double]. exact Hro. }
  assert (Hcl : cols LL = icols input_).
  { unfold LL, logLikelihood.
    destruct (normalizedLogProbs m (cast_double input_)) as [lp0 lp1].
    cbn [cols madd cmul cwise2 tabulate cast_double]. exact Hc. }
  rewrite Hr, Hcl. change (cols (cast_double input_)) with (icols input_).
  rewrite (rsum_ext (icols input_) (fun j => rsum 1 (fun i => coeff LL i j))
             (fun n => Spec.condLogLik (mNumComponents m) (mDimIn m) (mNumFeatures m)
                         (theta_store m) (fun d => coeff (cast_double input_) d n)
                         (coeff (cast_double output_) 0 n))).
  - rewrite Nat.mul_1_l. field. lra.
  - intros n Hn. rewrite rsum_one. unfold LL.
    rewrite logLikelihood_coeff by lia.
    destruct (coeff_normalized_spec m (cast_double input_) n Hwf HC) as [E0 E1];
      [exact Hn|].
    rewrite E0, E1, coeff_cast_double. reflexivity.
Qed.

(** X9. At the parameters of the store itself, the value of
    [computeGradient] on integer data is the sum of the entries of
    [logLikelihood] divided by [N / ln 2]: the mean log-likelihood times
    [ln 2], which is [evaluate] times [- (ln 2)^2].  The value is a
    log-likelihood, not its negative, and is not in bits. *)
Theorem computeGradient_value_is_scaled_logLikelihood
        (m : MCBM) (input_ output_ : MatrixXi) (params : Parameters) :
  wfMCBM m -> (0 < mNumComponents m)%nat ->
  irows input_ = mDimIn m -> irows output_ = 1%nat -> icols output_ = icols input_ ->
  (1 <= icols input_)%nat -> (1 <= batchSize params)%Z ->
  let LL := logLikelihood m input_ output_ in
  computeGradient m (cast_double input_) (cast_double output_)
                  (parameters m params) None params
  = Returns (mean LL * ln 2, None) /\
  mean LL * ln 2 = - evaluate m input_ output_ * (ln 2 * ln 2).
Proof.
  intros Hwf HC Hri Hro Hc HN Hb LL.
  pose proof ln2_pos as Hln.
  split.
  - destruct (computeGradient_closed m (cast_double input_) (cast_double output_)
                (parameters m params) params Hri Hro HC (or_introl Hb) None)
      as (g' & E & P); [discriminate|].
    destruct g' as [?|]; [contradiction|].
    rewrite E. f_equal. f_equal.
    rewrite (theta_of_parameters m params Hwf).
    apply objective_mean_logLikelihood; assumption.
  - unfold evaluate, dimOut. fold LL. simpl (INR 1). field. lra.
Qed.

(** Two columns on [storeA]. *)
Lemma computeGradient_value_is_scaled_logLikelihood_witness :
  let input_ := mkMatI 2 2 [1; 0; 0; 1]%Z in
  let output_ := mkMatI 1 2 [1; 0]%Z in
  let LL := logLikelihood storeA input_ output_ in
  computeGradient storeA (cast_double input_) (cast_double output_)
                  (parameters storeA paramsWO) None paramsWO
  = Returns (mean LL * ln 2, None) /\
  mean LL * ln 2 = - evaluate storeA input_ output_ * (ln 2 * ln 2).
Proof.
  apply (computeGradient_value_is_scaled_logLikelihood
           storeA (mkMatI 2 2 [1; 0; 0; 1]%Z) (mkMatI 1 2 [1; 0]%Z) paramsWO).
  - repeat split; reflexivity.
  - simpl. lia.
  - reflexivity.
  - reflexivity.
  - reflexivity.
  - simpl. lia.
  - simpl. lia.
Defined.

(** The softmax weights of a non-empty family of scores add up to one. *)
Lemma softmax_sum n s :
  (0 < n)%nat -> rsum n (fun c => exp (s c - Spec.lse n s)) = 1.
Proof.
  intros Hn. unfold Spec.lse.
  assert (Hpos : 0 < rsum n (fun i => exp (s i)))
    by (apply rsum_pos; [exact Hn | intros; apply exp_pos]).
  rewrite (rsum_ext n _ (fun c => exp (s c) * / rsum n (fun i => exp (s i)))).
  - rewrite rsum_scal_r. field. lra.
  - intros c Hc. unfold Rminus. rewrite exp_plus, exp_Ropp, exp_ln by exact Hpos.
    reflexivity.
Qed.

Lemma postDiff_sum C D F th u y :
  (0 < C)%nat -> rsum C (fun c => Spec.postDiff C D F th u y c) = 0.
Proof.
  intros HC. unfold Spec.postDiff, Spec.post1Tmp, Spec.post0Tmp.
  rewrite rsum_minus, !rsum_scal_r.
  unfold Spec.logProb0, Spec.logProb1.
  rewrite !softmax_sum by exact HC. ring.
Qed.

Lemma inSpan_below off r c k : (k < off)%nat -> inSpan off r c k = false.
Proof.
  intros H. unfold inSpan.
  replace (off <=? k)%nat with false by (symmetry; apply Nat.leb_gt; exact H).
  reflexivity.
Qed.

(** A cell of the priors block receives the priors entry only. *)
Lemma gradColumn_priors m x params X Y n c :
  trainPriors params = true -> (c < mNumComponents m)%nat ->
  gradColumn m (bindViews m x params) params X Y n c
  = Spec.postDiff (mNumComponents m) (mDimIn m) (mNumFeatures m)
                  (theta_of (bindViews m x params))
                  (fun d => coeff X d n) (coeff Y 0 n) c.
Proof.
  intros Ht Hc.
  destruct (bindViews_offsets m x params) as (H1 & H2 & H3 & H4 & H5 & H6 & H7).
  cbv zeta in H1, H2, H3, H4, H5, H6, H7. rewrite Ht in H2.
  assert (L2 : (c < weightsGrad (bindViews m x params))%nat) by lia.
  assert (L3 : (c < featuresGrad (bindViews m x params))%nat)
    by (rewrite H3; lia).
  assert (L4 : (c < predictorsGrad (bindViews m x params))%nat)
    by (rewrite H4; lia).
  assert (L5 : (c < inputBiasGrad (bindViews m x params))%nat)
    by (rewrite H5; lia).
  assert (L6 : (c < outputBiasGrad (bindViews m x params))%nat)
    by (rewrite H6; lia).
  unfold gradColumn.
  rewrite (inSpan_below _ _ _ _ L2), (inSpan_below _ _ _ _ L3),
    (inSpan_below _ _ _ _ L4), (inSpan_below _ _ _ _ L5), (inSpan_below _ _ _ _ L6).
  rewrite !andb_false_r, H1, Ht.
  replace (inSpan 0 (mNumComponents m) 1 c) with true
    by (symmetry; unfold inSpan; apply andb_true_intro; split;
        [apply Nat.leb_le | apply Nat.ltb_lt]; lia).
  cbn [andb]. rewrite Nat.sub_0_r. unfold Spec.gradPriors. ring.
Qed.

(** X10. When the priors are trained, on a data set with at least one
    column the priors block of the gradient that [computeGradient] writes
    sums to zero: the objective does not change when all priors move
    together. *)
Theorem computeGradient_priors_gradient_sums_to_zero
        (m : MCBM) (X Y : Matrix) (x g : buffer) (params : Parameters) :
  wfMCBM m -> rows X = mDimIn m -> rows Y = 1%nat -> (1 <= cols X)%nat ->
  (0 < mNumComponents m)%nat ->
  (1 <= batchSize params)%Z -> trainPriors params = true ->
  (numParameters m params <= length g)%nat ->
  exists v g',
    computeGradient m X Y x (Some g) params = Returns (v, Some g') /\
    rsum (mNumComponents m) (fun c => nth c g' 0) = 0.
Proof.
  intros Hwf HX HY HN HC Hb Ht Hg.
  pose proof (offset_numParameters m x params Hwf) as Hoff.
  destruct (computeGradient_closed m X Y x params HX HY HC (or_introl Hb) (Some g))
    as (g' & E & P); [intros gb Egb; injection Egb as <-; lia|].
  destruct g' as [g'|]; [|contradiction].
  destruct P as [L Nn].
  eexists _, g'. split; [exact E|].
  assert (HCo : (mNumComponents m <= offset (bindViews m x params))%nat).
  { destruct (bindViews_offsets m x params) as (H1 & H2 & H3 & H4 & H5 & H6 & H7).
    cbv zeta in H1, H2, H3, H4, H5, H6, H7. rewrite Ht in H2. lia. }
  rewrite (rsum_ext _ _
             (fun c => rsum (cols X)
                         (fun n => Spec.postDiff (mNumComponents m) (mDimIn m)
                                     (mNumFeatures m) (theta_of (bindViews m x params))
                                     (fun d => coeff X d n) (coeff Y 0 n) c)
                       * / normConst X)).
  - rewrite rsum_scal_r, rsum_swap.
    rewrite (rsum_ext _ _ (fun _ => 0)) by (intros n Hn; apply postDiff_sum; exact HC).
    rewrite rsum_zero. ring.
  - intros c Hc. rewrite Nn.
    replace (c <? offset (bindViews m x params))%nat with true
      by (symmetry; apply Nat.ltb_lt; lia).
    unfold Rdiv. f_equal. apply rsum_ext. intros n Hn.
    apply gradColumn_priors; assumption.
Qed.

(** All groups trained on [storeA]. *)
Lemma computeGradient_priors_gradient_sums_to_zero_witness :
  exists v g',
    computeGradient storeA inputA outputA (parameters storeB defaultParameters)
                    (Some (repeat 0 16)) defaultParameters = Returns (v, Some g') /\
    rsum (mNumComponents storeA) (fun c => nth c g' 0) = 0.
Proof.
  apply (computeGradient_priors_gradient_sums_to_zero
           storeA inputA outputA (parameters storeB defaultParameters) (repeat 0 16)
           defaultParameters).
  - repeat split; reflexivity.
  - reflexivity.
  - reflexivity.
  - simpl. lia.
  - simpl. lia.
  - simpl. lia.
  - reflexivity.
  - vm_compute. lia.
Defined.

(** Over the reals the objective of a non-empty batch of output bits is
    negative.  (In double precision a saturated batch can round to
    zero.) *)
Lemma objective_negative C D F th (X Y : Matrix) :
  (1 <= cols X)%nat ->
  (forall n, (n < cols X)%nat -> coeff Y 0 n = 0 \/ coeff Y 0 n = 1) ->
  Spec.objective C D F th X Y < 0.
Proof.
  intros HN Hbin. unfold Spec.objective.
  pose proof ln2_pos as Hln.
  assert (HNr : 0 < INR (cols X)) by (apply lt_0_INR; lia).
  set (S0 := rsum _ _).
  assert (HS : S0 < 0).
  { apply rsum_neg; [lia|]. intros n Hn. apply condLogLik_negative. apply Hbin. exact Hn. }
  pose proof (Rinv_0_lt_compat _ HNr) as Hi.
  replace (S0 / (INR (cols X) / ln 2)) with (S0 * (ln 2 * / INR (cols X)))
    by (field; lra).
  assert (0 < ln 2 * / INR (cols X)) by (apply Rmult_lt_0_compat; assumption).
  nra.
Qed.

(** X11. On a non-empty batch of output bits the value [computeGradient]
    returns is never positive, whatever the parameter vector: it is a
    log-likelihood, not a negative log-likelihood. *)
Theorem computeGradient_value_nonpositive
        (m : MCBM) (X Y : Matrix) (x : buffer) (params : Parameters) :
  rows X = mDimIn m -> rows Y = 1%nat -> (0 < mNumComponents m)%nat ->
  (1 <= batchSize params)%Z -> (1 <= cols X)%nat ->
  (forall n, (n < cols X)%nat -> coeff Y 0 n = 0 \/ coeff Y 0 n = 1) ->
  exists v, computeGradient m X Y x None params = Returns (v, None) /\ v <= 0.
Proof.
  intros HX HY HC Hb HN Hbin.
  destruct (computeGradient_closed m X Y x params HX HY HC (or_introl Hb) None)
    as (g' & E & P); [discriminate|].
  destruct g' as [?|]; [contradiction|].
  eexists. split; [exact E|].
  apply Rlt_le. apply objective_negative; assumption.
Qed.

(** Three columns on [storeA]. *)
Lemma computeGradient_value_nonpositive_witness :
  exists v, computeGradient storeA inputA outputA (parameters storeB paramsWO) None paramsWO
            = Returns (v, None) /\ v <= 0.
Proof.
  apply (computeGradient_value_nonpositive storeA inputA outputA
           (parameters storeB paramsWO) paramsWO).
  - reflexivity.
  - reflexivity.
  - simpl. lia.
  - simpl. lia.
  - simpl. lia.
  - intros n Hn. change (cols inputA) with 3%nat in Hn.
    destruct n as [|[|[|n]]]; [right | left | right | lia]; reflexivity.
Defined.

(** ** The gradient checker, continued *)

Lemma batchLoop_no_throw {St : Type} (body : nat -> nat -> St -> St) N bs fuel b st msg :
  batchLoop body N bs fuel b st <> Throws msg.
Proof.
  revert b st. induction fuel as [|fuel IH]; intros b st; cbn [batchLoop];
    destruct (N <=? b)%nat; try discriminate.
  apply IH.
Qed.

(** [computeGradient] raises no exception of its own. *)
Lemma computeGradient_no_throw m X Y x g params msg :
  computeGradient m X Y x g params <> Throws msg.
Proof.
  unfold computeGradient. cbv zeta.
  match goal with |- context [batchLoop ?body ?N ?bs ?fuel ?b ?st] =>
    pose proof (batchLoop_no_throw body N bs fuel b st msg) as H;
    destruct (batchLoop body N bs fuel b st) end;
    cbn [bind]; congruence.
Qed.

Lemma fdLoop_no_throw instance x epsilon idxs st msg :
  fdLoop instance x epsilon idxs st <> Throws msg.
Proof.
  revert st. induction idxs as [|i rest IH]; intros st; cbn [fdLoop]; [discriminate|].
  unfold evaluateLBFGS.
  match goal with |- context [bind (computeGradient ?a ?b ?c ?d ?e ?f) _] =>
    destruct (computeGradient a b c d e f) eqn:E1 end; cbn [bind];
    [ | intros E'; injection E' as ->; exact (computeGradient_no_throw _ _ _ _ _ _ _ E1)
      | discriminate ].
  match goal with |- context [bind (computeGradient ?a ?b ?c ?d ?e ?f) _] =>
    destruct (computeGradient a b c d e f) eqn:E2 end; cbn [bind];
    [ | intros E'; injection E' as ->; exact (computeGradient_no_throw _ _ _ _ _ _ _ E2)
      | discriminate ].
  apply IH.
Qed.

(** X12. [checkGradient] throws exactly on badly shaped data, and the
    dimension check comes first: the dimensionality message when the
    input does not have [dimIn] rows or the output does not have one row,
    the count message when the rows are right and the numbers of columns
    differ; in no other case does it throw, whatever the step, the
    configuration and the contents of its scratch arrays. *)
Theorem checkGradient_throws_iff
        (m : MCBM) (input output : Matrix) (epsilon : R) (params : Parameters)
        (y0 g0 n0 : buffer) (msg : string) :
  checkGradient m input output epsilon params y0 g0 n0 = Throws msg <->
  (msg = "Data has wrong dimensionality."%string /\
   (rows input <> mDimIn m \/ rows output <> 1%nat)) \/
  (msg = "The number of inputs and outputs should be the same."%string /\
   rows input = mDimIn m /\ rows output = 1%nat /\ cols input <> cols output).
Proof.
  unfold checkGradient.
  destruct (Nat.eqb_spec (rows input) (mDimIn m)) as [Hi|Hi];
    destruct (Nat.eqb_spec (rows output) 1) as [Ho|Ho]; cbn [negb orb];
    try (split; [intros E; injection E as <-; left; split; [reflexivity | tauto]
                |intros [[-> _] | [_ (? & ? & _)]]; [reflexivity | tauto]]).
  destruct (Nat.eqb_spec (cols input) (cols output)) as [Hc|Hc]; cbn [negb].
  - split; [|intros [[_ [?|?]] | [_ (_ & _ & ?)]]; tauto].
    cbv zeta. intros E. exfalso.
    match type of E with bind ?c _ = _ =>
      destruct c as [st| |] eqn:Efd; cbn [bind] in E; try discriminate end.
    + unfold evaluateLBFGS in E.
      match type of E with bind ?c _ = _ =>
        destruct c as [r| |] eqn:Eg; cbn [bind] in E; try discriminate end.
      injection E as ->. exact (computeGradient_no_throw _ _ _ _ _ _ _ Eg).
    + injection E as ->. exact (fdLoop_no_throw _ _ _ _ _ _ Efd).
  - split; [intros E; injection E as <-; right; tauto|].
    intros [[_ [?|?]] | [-> _]]; [tauto | tauto | reflexivity].
Qed.

(** X13. A batch size that is not positive on a non-empty data set makes
    [computeGradient] produce no result, with or without gradient buffer,
    and with it [checkGradient] on well-shaped data: the batch loop does
    not advance, or asks for a slice of negative width. *)
Theorem nonpositive_batchSize_no_result
        (m : MCBM) (X Y : Matrix) (x : buffer) (g : option buffer) (epsilon : R)
        (params : Parameters) (y0 g0 n0 : buffer) :
  (batchSize params <= 0)%Z -> (0 < cols X)%nat ->
  computeGradient m X Y x g params = NoResult /\
  (rows X = mDimIn m -> rows Y = 1%nat -> cols X = cols Y ->
   checkGradient m X Y epsilon params y0 g0 n0 = NoResult).
Proof.
  intros Hb HN. split; [apply computeGradient_nonpositive_batch; assumption|].
  intros HX HY Hc. unfold checkGradient.
  rewrite HX, HY, Hc, !Nat.eqb_refl. cbn [negb orb]. cbv zeta.
  destruct (seq 0 (numParameters m params)) as [|i rest].
  - cbn [fdLoop bind]. unfold evaluateLBFGS. cbn [mcbm input_ output_ params_].
    rewrite computeGradient_nonpositive_batch by assumption. reflexivity.
  - cbn [fdLoop]. unfold evaluateLBFGS at 1. cbn [mcbm input_ output_ params_].
    rewrite computeGradient_nonpositive_batch by assumption. reflexivity.
Qed.

(** A batch size of zero on the three columns of [inputA]. *)
Lemma nonpositive_batchSize_no_result_witness :
  computeGradient storeA inputA outputA [30; 40; 50; 60] None (withBatchSize paramsWO 0)
  = NoResult /\
  (rows inputA = mDimIn storeA -> rows outputA = 1%nat -> cols inputA = cols outputA ->
   checkGradient storeA inputA outputA (1 / 100000) (withBatchSize paramsWO 0)
                 [0; 0; 0; 0] [0; 0; 0; 0] [0; 0; 0; 0] = NoResult).
Proof.
  apply (nonpositive_batchSize_no_result storeA inputA outputA [30; 40; 50; 60] None
           (1 / 100000) (withBatchSize paramsWO 0) [0; 0; 0; 0] [0; 0; 0; 0] [0; 0; 0; 0]).
  - simpl. lia.
  - simpl. lia.
Defined.

Section CheckerClosed.
Variables (m : MCBM) (X Y : Matrix) (params : Parameters).
Hypotheses (Hwf : wfMCBM m)
           (HX : rows X = mDimIn m) (HY : rows Y = 1%nat) (HXY : cols X = cols Y)
           (HC : (0 < mNumComponents m)%nat)
           (Hb : (1 <= batchSize params)%Z).

Let x := parameters m params.
Let numParams := numParameters m params.

(** The objective as a function of the flat parameter vector, its
    analytic gradient at the base point, and its central differences. *)
Let obj (z : buffer) : R :=
  Spec.objective (mNumComponents m) (mDimIn m) (mNumFeatures m)
                 (theta_of (bindViews m z params)) X Y.
Let G (i : nat) : R :=
  rsum (cols X) (fun n => gradColumn m (bindViews m x params) params X Y n i)
  / normConst X.
Let FD (epsilon : R) (i : nat) : R :=
  (obj (perturb x i epsilon) - obj (perturb x i (- epsilon))) / (2 * epsilon).

Lemma evaluateLBFGS_objective z :
  returned (evaluateLBFGS (mkParamsLBFGS m params X Y) z None) = obj z.
Proof.
  unfold evaluateLBFGS. cbn [mcbm input_ output_ params_].
  destruct (computeGradient_closed m X Y z params HX HY HC (or_introl Hb) None)
    as (g' & E & P); [discriminate|].
  rewrite E. reflexivity.
Qed.

(** The result of [checkGradient] in closed form: it depends on the
    scratch arrays through their lengths only. *)
Lemma checkGradient_closed epsilon (y0 g0 n0 : buffer) :
  length y0 = numParams -> length g0 = numParams -> length n0 = numParams ->
  checkGradient m X Y epsilon params y0 g0 n0
  = Returns (sqrt (rsum numParams
                        (fun i => (G i - FD epsilon i) * (G i - FD epsilon i)))).
Proof.
  intros Hy0 Hg0 Hn0.
  pose proof (length_parameters m params Hwf) as Hlx. fold x numParams in Hlx.
  set (instance := mkParamsLBFGS m params X Y).
  set (fd := fun i => (returned (evaluateLBFGS instance (perturb x i epsilon) None)
                       - returned (evaluateLBFGS instance (perturb x i (- epsilon)) None))
                      / (2 * epsilon)).
  assert (Hfd : forall i, fd i = FD epsilon i).
  { intros i. unfold fd, FD, instance. rewrite !evaluateLBFGS_objective. reflexivity. }
  destruct (fold_store_nth fd numParams n0 ltac:(lia)) as [Ln Nn].
  cbv zeta in Ln, Nn.
  set (n := fold_left (fun a i => store a i (fd i)) (seq 0 numParams) n0) in *.
  assert (Hloop : fdLoop instance x epsilon (seq 0 numParams) (x, n0) = Returns (x, n))
    by (apply (fdLoop_all m X Y epsilon params HX HY HC Hb)).
  destruct (computeGradient_closed m X Y x params HX HY HC (or_introl Hb) (Some g0))
    as (g' & Eg & Pg).
  { intros gb Egb. injection Egb as <-.
    rewrite (offset_numParameters m x params Hwf). fold numParams. lia. }
  destruct g' as [g|]; [|contradiction].
  destruct Pg as [Lg Ng]. rewrite (offset_numParameters m x params Hwf) in Ng.
  fold numParams in Ng.
  unfold checkGradient.
  rewrite HX, HY, HXY, !Nat.eqb_refl. cbn [negb orb].
  fold x numParams instance.
  replace (fold_left (fun y i => store y i (nth i x 0)) (seq 0 numParams) y0) with x
    by (symmetry; rewrite <- Hlx; apply copy_loop; lia).
  rewrite Hloop. cbn [bind snd].
  unfold evaluateLBFGS, instance. cbn [mcbm input_ output_ params_].
  rewrite Eg. cbn [bind snd].
  rewrite squaredError_rsum. f_equal. f_equal.
  apply rsum_ext. intros i Hi. rewrite Nn, Ng.
  replace (i <? numParams)%nat with true by (symmetry; apply Nat.ltb_lt; exact Hi).
  rewrite Hfd. reflexivity.
Qed.

(** The central difference of the objective at coordinate [i] tends to
    the analytic gradient entry as the step tends to 0. *)
Lemma central_difference_limit i e :
  (i < numParams)%nat -> 0 < e ->
  exists delta, 0 < delta /\
    forall epsilon, epsilon <> 0 -> Rabs epsilon < delta -> Rabs (G i - FD epsilon i) < e.
Proof.
  clear HX HY HXY Hb. intros Hi He.
  pose proof (length_parameters m params Hwf) as Hlx. fold x numParams in Hlx.
  pose proof (d_objective m X Y x params i HC ltac:(lia)) as Hd.
  fold (G i) in Hd.
  destruct (Hd e He) as [delta Hdelta].
  exists delta. split; [apply cond_pos|].
  intros epsilon Hne Hlt.
  pose proof (Hdelta epsilon Hne Hlt) as H1.
  assert (Hne' : - epsilon <> 0) by lra.
  assert (Hlt' : Rabs (- epsilon) < delta) by (rewrite Rabs_Ropp; exact Hlt).
  pose proof (Hdelta (- epsilon) Hne' Hlt') as H2.
  cbv beta in H1, H2. rewrite store_same in H1, H2.
  fold (obj (store x i (nth i x 0 + epsilon))) in H1.
  fold (obj (store x i (nth i x 0 + - epsilon))) in H2.
  fold (obj x) in H1, H2.
  unfold FD, perturb.
  set (a := obj (store x i (nth i x 0 + epsilon))) in *.
  set (b := obj (store x i (nth i x 0 + - epsilon))) in *.
  set (c := obj x) in *.
  replace (G i - (a - b) / (2 * epsilon))
    with (- (((a - c) / epsilon - G i) + ((b - c) / - epsilon - G i)) / 2)
    by (field; lra).
  unfold Rdiv at 1. rewrite Rabs_mult, Rabs_Ropp.
  rewrite (Rabs_pos_eq (/ 2)) by lra.
  pose proof (Rabs_triang ((a - c) / epsilon - G i) ((b - c) / - epsilon - G i)).
  lra.
Qed.

Lemma central_difference_limit_uniform e :
  0 < e ->
  exists delta, 0 < delta /\
    forall epsilon, epsilon <> 0 -> Rabs epsilon < delta ->
      forall i, (i < numParams)%nat -> Rabs (G i - FD epsilon i) < e.
Proof.
  clear HX HY HXY Hb. intros He.
  assert (H : forall n, (n <= numParams)%nat ->
            exists delta, 0 < delta /\
              forall epsilon, epsilon <> 0 -> Rabs epsilon < delta ->
                forall i, (i < n)%nat -> Rabs (G i - FD epsilon i) < e).
  { induction n as [|n IH]; intros Hn.
    - exists 1. split; [lra|]. intros; lia.
    - destruct (IH ltac:(lia)) as (d1 & Hd1 & P1).
      destruct (central_difference_limit n e ltac:(lia) He) as (d2 & Hd2 & P2).
      exists (Rmin d1 d2). split; [apply Rmin_pos; assumption|].
      intros epsilon Hne Hlt i Hi.
      pose proof (Rmin_l d1 d2). pose proof (Rmin_r d1 d2).
      destruct (Nat.eq_dec i n) as [->|Hin].
      + apply P2; [exact Hne | lra].
      + apply P1; [exact Hne | lra | lia]. }
  apply (H numParams). lia.
Qed.

End CheckerClosed.

Lemma rsum_lt_const n f c :
  (forall k, (k < n)%nat -> f k <= c) -> rsum n f <= INR n * c.
Proof.
  intros H. induction n as [|n IH].
  - simpl. lra.
  - rewrite S_INR. cbn [rsum].
    pose proof (H n ltac:(lia)). specialize (IH ltac:(intros; apply H; lia)). lra.
Qed.

Lemma rsum_nonneg n f :
  (forall k, (k < n)%nat -> 0 <= f k) -> 0 <= rsum n f.
Proof.
  intros H. induction n as [|n IH].
  - simpl. lra.
  - cbn [rsum].
    pose proof (H n ltac:(lia)). specialize (IH ltac:(intros; apply H; lia)). lra.
Qed.

(** X14. The scratch arrays of [checkGradient] are declared without
    initializer; on well-shaped data with at least one column and for a
    step other than zero the result does not depend on what they hold at
    entry, and it is a non-negative number. *)
Theorem checkGradient_ignores_scratch_contents
        (m : MCBM) (X Y : Matrix) (epsilon : R) (params : Parameters)
        (y0 g0 n0 y0' g0' n0' : buffer) :
  wfMCBM m -> rows X = mDimIn m -> rows Y = 1%nat -> cols X = cols Y ->
  (1 <= cols X)%nat -> epsilon <> 0 ->
  (0 < mNumComponents m)%nat -> (1 <= batchSize params)%Z ->
  length y0 = numParameters m params -> length g0 = numParameters m params ->
  length n0 = numParameters m params ->
  length y0' = numParameters m params -> length g0' = numParameters m params ->
  length n0' = numParameters m params ->
  exists r, 0 <= r /\
    checkGradient m X Y epsilon params y0 g0 n0 = Returns r /\
    checkGradient m X Y epsilon params y0' g0' n0' = Returns r.
Proof.
  intros Hwf HX HY HXY HN Heps HC Hb H1 H2 H3 H1' H2' H3'.
  eexists. split; [|split].
  2: apply (checkGradient_closed m X Y params Hwf HX HY HXY HC Hb epsilon y0 g0 n0);
       assumption.
  2: apply (checkGradient_closed m X Y params Hwf HX HY HXY HC Hb epsilon y0' g0' n0');
       assumption.
  apply sqrt_pos.
Qed.

(** Two different fillings of the arrays on the smallest store. *)
Lemma checkGradient_ignores_scratch_contents_witness :
  exists r, 0 <= r /\
    checkGradient storeTiny inputTiny outputTiny (1 / 100000) paramsOB [0] [0] [0]
    = Returns r /\
    checkGradient storeTiny inputTiny outputTiny (1 / 100000) paramsOB [7] [8] [9]
    = Returns r.
Proof.
  apply (checkGradient_ignores_scratch_contents storeTiny inputTiny outputTiny
           (1 / 100000) paramsOB [0] [0] [0] [7] [8] [9]).
  - repeat split; reflexivity.
  - reflexivity.
  - reflexivity.
  - reflexivity.
  - simpl. lia.
  - lra.
  - simpl. lia.
  - simpl. lia.
  - reflexivity.
  - reflexivity.
  - reflexivity.
  - reflexivity.
  - reflexivity.
  - reflexivity.
Defined.

(** X15. In exact arithmetic, on a data set with at least one column,
    the gradient check passes in the limit: for every tolerance there is
    a step size below which [checkGradient] returns an error smaller than
    the tolerance.  The gradient that [computeGradient] writes is the
    derivative of the value it returns, as measured by the checker of the
    code itself.  (In double precision the differences cancel for very
    small steps, and the error grows again.) *)
Theorem checkGradient_error_vanishes
        (m : MCBM) (X Y : Matrix) (params : Parameters) (y0 g0 n0 : buffer) (eta : R) :
  wfMCBM m -> rows X = mDimIn m -> rows Y = 1%nat -> cols X = cols Y ->
  (1 <= cols X)%nat ->
  (0 < mNumComponents m)%nat -> (1 <= batchSize params)%Z ->
  length y0 = numParameters m params -> length g0 = numParameters m params ->
  length n0 = numParameters m params ->
  0 < eta ->
  exists delta, 0 < delta /\
    forall epsilon, epsilon <> 0 -> Rabs epsilon < delta ->
      exists r, checkGradient m X Y epsilon params y0 g0 n0 = Returns r /\
                0 <= r < eta.
Proof.
  intros Hwf HX HY HXY HN HC Hb H1 H2 H3 Heta.
  set (np := numParameters m params).
  assert (Hnp : 0 <= INR np) by apply pos_INR.
  set (e := eta / (INR np + 1)).
  assert (He : 0 < e) by (unfold e; apply Rdiv_lt_0_compat; lra).
  destruct (central_difference_limit_uniform m X Y params Hwf HC e He)
    as (delta & Hdelta & P).
  exists delta. split; [exact Hdelta|].
  intros epsilon Hne Hlt.
  eexists. split.
  - apply (checkGradient_closed m X Y params Hwf HX HY HXY HC Hb epsilon y0 g0 n0);
      assumption.
  - split; [apply sqrt_pos|].
    fold np.
    match goal with |- sqrt (rsum _ ?f) < _ => set (sq := f) end.
    assert (Hsq : forall i, (i < np)%nat -> 0 <= sq i <= e * e).
    { intros i Hi. pose proof (P epsilon Hne Hlt i Hi) as Hd. unfold sq.
      match type of Hd with Rabs ?t < _ => set (d := t) in * end.
      apply Rabs_def2 in Hd. destruct Hd as [Hu Hl]. split; nra. }
    assert (Hsum : rsum np sq <= INR np * (e * e))
      by (apply rsum_lt_const; intros k Hk; apply Hsq; exact Hk).
    assert (Hpos : 0 <= rsum np sq)
      by (apply rsum_nonneg; intros k Hk; apply Hsq; exact Hk).
    assert (Hlt2 : INR np * (e * e) < eta * eta).
    { assert (Ee : eta = e * (INR np + 1)) by (unfold e; field; lra).
      rewrite Ee. nra. }
    rewrite <- (sqrt_square eta) by lra.
    apply sqrt_lt_1; nra.
Qed.

(** A tolerance of one thousandth on the smallest store. *)
Lemma checkGradient_error_vanishes_witness :
  exists delta, 0 < delta /\
    forall epsilon, epsilon <> 0 -> Rabs epsilon < delta ->
      exists r, checkGradient storeTiny inputTiny outputTiny epsilon paramsOB [0] [0] [0]
                = Returns r /\
                0 <= r < 1 / 1000.
Proof.
  apply (checkGradient_error_vanishes storeTiny inputTiny outputTiny paramsOB
           [0] [0] [0] (1 / 1000)).
  - repeat split; reflexivity.
  - reflexivity.
  - reflexivity.
  - reflexivity.
  - simpl. lia.
  - simpl. lia.
  - simpl. lia.
  - reflexivity.
  - reflexivity.
  - reflexivity.
  - lra.
Defined.

(** ** Installing a parameter vector *)

(** The coefficients that [computeGradient] reads through its views at
    [x] are those of the store after [setParameters] at [x]. *)
Lemma theta_of_setParameters m x params :
  wfMCBM m ->
  theta_of (bindViews m x params) = theta_store (setParameters m x params).
Proof.
  intros Hwf. rewrite setParameters_views. cbv zeta.
  destruct (bindViews_views m x params) as (W0 & W1 & W2 & W3 & W4 & W5).
  cbv zeta in W0, W1, W2, W3, W4, W5.
  destruct Hwf as (HP & HW & HF & HPr & HIB & HOB).
  unfold theta_of, theta_store.
  cbn [mPriors mWeights mFeatures mPredictors mInputBias mOutputBias].
  f_equal.
  - destruct (trainPriors params); [reflexivity|]. rewrite W0. apply MapMat_data; exact HP.
  - destruct (trainWeights params); [reflexivity|]. rewrite W1. apply MapMat_data; exact HW.
  - destruct (trainFeatures params); [reflexivity|]. rewrite W2. apply MapMat_data; exact HF.
  - destruct (trainPredictors params); [reflexivity|]. rewrite W3.
    apply MapMat_data; exact HPr.
  - destruct (trainInputBias params); [reflexivity|]. rewrite W4.
    apply MapMat_data; exact HIB.
  - destruct (trainOutputBias params); [reflexivity|]. rewrite W5.
    apply MapMat_data; exact HOB.
Qed.

(** X16. The value of [computeGradient] at a parameter vector [x] is the
    mean log-likelihood, times [ln 2], that [logLikelihood] reports once
    [setParameters] has installed [x]: the objective evaluates the model
    at [x] without modifying the store. *)
Theorem computeGradient_value_after_setParameters
        (m : MCBM) (input_ output_ : MatrixXi) (x : buffer) (params : Parameters) :
  wfMCBM m -> (0 < mNumComponents m)%nat ->
  irows input_ = mDimIn m -> irows output_ = 1%nat -> icols output_ = icols input_ ->
  (1 <= icols input_)%nat -> (1 <= batchSize params)%Z ->
  length x = numParameters m params ->
  computeGradient m (cast_double input_) (cast_double output_) x None params
  = Returns (mean (logLikelihood (setParameters m x params) input_ output_) * ln 2,
             None).
Proof.
  intros Hwf HC Hri Hro Hc HN Hb Hx.
  destruct (computeGradient_closed m (cast_double input_) (cast_double output_)
              x params Hri Hro HC (or_introl Hb) None)
    as (g' & E & P); [discriminate|].
  destruct g' as [?|]; [contradiction|].
  rewrite E. f_equal. f_equal.
  rewrite (theta_of_setParameters m x params Hwf).
  pose proof (wfMCBM_setParameters m x params Hwf Hx) as Hwf'.
  rewrite <- (objective_mean_logLikelihood (setParameters m x params) input_ output_
                Hwf') by (try assumption; rewrite setParameters_views; exact HC).
  rewrite setParameters_views. reflexivity.
Qed.

(** The vector of [storeB] evaluated through [storeA]. *)
Lemma computeGradient_value_after_setParameters_witness :
  let input_ := mkMatI 2 2 [1; 0; 0; 1]%Z in
  let output_ := mkMatI 1 2 [1; 0]%Z in
  let x := parameters storeB paramsWO in
  computeGradient storeA (cast_double input_) (cast_double output_) x None paramsWO
  = Returns (mean (logLikelihood (setParameters storeA x paramsWO) input_ output_) * ln 2,
             None).
Proof.
  apply (computeGradient_value_after_setParameters
           storeA (mkMatI 2 2 [1; 0; 0; 1]%Z) (mkMatI 1 2 [1; 0]%Z)
           (parameters storeB paramsWO) paramsWO).
  - repeat split; reflexivity.
  - simpl. lia.
  - reflexivity.
  - reflexivity.
  - reflexivity.
  - simpl. lia.
  - simpl. lia.
  - reflexivity.
Defined.

(** ** Construction, continued *)

Lemma MCBM_new_returns dimIn numComponents numFeatures rnd :
  (1 <= numComponents)%Z -> (1 <= effectiveNumFeatures dimIn numFeatures)%Z ->
  (0 <= dimIn)%Z ->
  let d := Z.to_nat dimIn in
  let c := Z.to_nat numComponents in
  let f := Z.to_nat (effectiveNumFeatures dimIn numFeatures) in
  let m := {| mDimIn := d; mNumComponents := c; mNumFeatures := f;
              mPriors := Zero c 1;
              mWeights := shift (scale (mabs (tabulate c f (drawWeights rnd))) (/ 100))
                                (1 / 100);
              mFeatures := scale (tabulate d f (drawFeatures rnd)) (/ 100);
              mPredictors := scale (tabulate c d (drawPredictors rnd)) (/ 100);
              mInputBias := Zero d c;
              mOutputBias := Zero c 1 |} in
  MCBM_new dimIn numComponents numFeatures rnd = Returns m /\ wfMCBM m.
Proof.
  intros Hc Hf Hd d c f m. split.
  - unfold MCBM_new. fold (effectiveNumFeatures dimIn numFeatures).
    destruct (Z.ltb_spec numComponents 1); [lia|].
    destruct (Z.ltb_spec (effectiveNumFeatures dimIn numFeatures) 1); [lia|].
    destruct (Z.ltb_spec dimIn 0); [lia|]. reflexivity.
  - repeat split; unfold m, Zero, shift, scale, mabs, cwise, tabulate; simpl;
      rewrite length_map, length_seq; reflexivity.
Qed.

Lemma rsum_const n c : rsum n (fun _ => c) = INR n * c.
Proof.
  induction n as [|n IH]; [simpl; ring|].
  rewrite S_INR. cbn [rsum]. rewrite IH. ring.
Qed.

(** Without output bias and on an input column that is zero the two
    outputs are equally likely. *)
Lemma uninformed_column m input n :
  wfMCBM m -> (0 < mNumComponents m)%nat -> (n < cols input)%nat ->
  (forall c, coeff (mOutputBias m) c 0 = 0) -> (forall d, coeff input d n = 0) ->
  coeff (fst (normalizedLogProbs m input)) 0 n = - ln 2 /\
  coeff (snd (normalizedLogProbs m input)) 0 n = - ln 2.
Proof.
  intros Hwf HC Hn HOB Hu.
  destruct (coeff_normalized_spec m input n Hwf HC Hn) as [E0 E1].
  cbv zeta in E0, E1. rewrite E0, E1. clear E0 E1.
  set (C := mNumComponents m). set (D := mDimIn m). set (F := mNumFeatures m).
  set (u := fun d => coeff input d n). set (th := theta_store m).
  assert (S1 : forall c, (c < C)%nat ->
             Spec.logScore1 D F th u c = Spec.logScore0 D F th u c).
  { intros c Hc. unfold Spec.logScore1, Spec.predictorEnergy.
    rewrite (rsum_ext D _ (fun _ => 0)) by (intros d Hd; unfold u; rewrite Hu; ring).
    rewrite rsum_zero.
    change (thOutputBias th c) with (coeff (mOutputBias m) c 0). rewrite HOB. ring. }
  assert (L1 : Spec.logProb1 C D F th u = Spec.logProb0 C D F th u)
    by (unfold Spec.logProb1, Spec.logProb0; apply lse_ext; exact S1).
  unfold Spec.logNorm. rewrite L1.
  set (p := Spec.logProb0 C D F th u).
  assert (Hp := exp_pos p).
  replace (exp p + exp p) with (2 * exp p) by ring.
  rewrite ln_mult, ln_exp by lra. split; ring.
Qed.

(** X17. A freshly constructed model is undecided on an input that is
    zero: every entry of [logLikelihood] is [- ln 2], whatever the output
    bits, and [evaluate] reports exactly one bit. *)
Theorem MCBM_new_one_bit_on_zero_input
        (dimIn numComponents numFeatures : Z) (rnd : InitDraws)
        (input_ output_ : MatrixXi) :
  (1 <= numComponents)%Z -> (1 <= effectiveNumFeatures dimIn numFeatures)%Z ->
  (0 <= dimIn)%Z ->
  irows input_ = Z.to_nat dimIn -> (forall d n, icoeff input_ d n = 0%Z) ->
  irows output_ = 1%nat -> icols output_ = icols input_ -> (1 <= icols input_)%nat ->
  exists m, MCBM_new dimIn numComponents numFeatures rnd = Returns m /\
    (forall n, (n < icols input_)%nat ->
               coeff (logLikelihood m input_ output_) 0 n = - ln 2) /\
    evaluate m input_ output_ = 1.
Proof.
  intros Hc Hf Hd Hri Hzero Hro Hco HN.
  destruct (MCBM_new_returns dimIn numComponents numFeatures rnd Hc Hf Hd) as [E Hwf].
  cbv zeta in E, Hwf.
  eexists. split; [exact E|].
  set (m := {| mDimIn := Z.to_nat dimIn |}) in *.
  assert (HC : (0 < mNumComponents m)%nat) by (unfold m; cbn [mNumComponents]; lia).
  assert (HLL : forall n, (n < icols input_)%nat ->
                          coeff (logLikelihood m input_ output_) 0 n = - ln 2).
  { intros n Hn. rewrite logLikelihood_coeff by lia.
    destruct (uninformed_column m (cast_double input_) n Hwf HC Hn) as [-> ->].
    - intros c. unfold m. cbn [mOutputBias]. apply coeff_Zero.
    - intros d. rewrite coeff_cast_double, Hzero. reflexivity.
    - ring. }
  split; [exact HLL|].
  pose proof ln2_pos as Hln.
  assert (HNr : 0 < INR (icols input_)) by (apply lt_0_INR; lia).
  unfold evaluate, mean, msum, size, dimOut.
  assert (Hr : rows (logLikelihood m input_ output_) = 1%nat).
  { unfold logLikelihood.
    destruct (normalizedLogProbs m (cast_double input_)) as [lp0 lp1].
    cbn [rows madd cmul cwise2 tabulate cast_double]. exact Hro. }
  assert (Hcl : cols (logLikelihood m input_ output_) = icols input_).
  { unfold logLikelihood.
    destruct (normalizedLogProbs m (cast_double input_)) as [lp0 lp1].
    cbn [cols madd cmul cwise2 tabulate cast_double]. exact Hco. }
  rewrite Hr, Hcl.
  rewrite (rsum_ext (icols input_) _ (fun _ => - ln 2))
    by (intros n Hn; rewrite rsum_one; apply HLL; exact Hn).
  rewrite rsum_const, Nat.mul_1_l. simpl (INR 1). field. lra.
Qed.

(** Three inputs, two components, the number of features left to default. *)
Lemma MCBM_new_one_bit_on_zero_input_witness :
  let input_ := mkMatI 3 2 (repeat 0%Z 6) in
  let output_ := mkMatI 1 2 [1; 0]%Z in
  exists m, MCBM_new 3 2 (-1) zeroDraws = Returns m /\
    (forall n, (n < icols input_)%nat ->
               coeff (logLikelihood m input_ output_) 0 n = - ln 2) /\
    evaluate m input_ output_ = 1.
Proof.
  apply (MCBM_new_one_bit_on_zero_input 3 2 (-1) zeroDraws
           (mkMatI 3 2 (repeat 0%Z 6)) (mkMatI 1 2 [1; 0]%Z)).
  - lia.
  - unfold effectiveNumFeatures; simpl; lia.
  - lia.
  - reflexivity.
  - intros d n. unfold icoeff. cbn [idata]. apply nth_repeat.
  - reflexivity.
  - reflexivity.
  - simpl. lia.
Defined.

(** X18. The weights of a freshly constructed model lie between 0.01 and
    0.02, the draws of [Random] being between -1 and 1. *)
Theorem MCBM_new_weights_range
        (dimIn numComponents numFeatures : Z) (rnd : InitDraws) (m : MCBM) (c f : nat) :
  unitDraws rnd ->
  MCBM_new dimIn numComponents numFeatures rnd = Returns m ->
  (c < mNumComponents m)%nat -> (f < mNumFeatures m)%nat ->
  1 / 100 <= coeff (mWeights m) c f <= 2 / 100.
Proof.
  intros Hu E Hc Hf. unfold MCBM_new in E.
  destruct (numComponents <? 1)%Z; [discriminate|].
  destruct (_ <? 1)%Z; [discriminate|].
  destruct (dimIn <? 0)%Z; [discriminate|].
  injection E as <-. cbn [mWeights mNumComponents mNumFeatures] in *.
  unfold shift, scale, mabs.
  rewrite !coeff_cwise, coeff_tabulate by assumption.
  pose proof (Rabs_pos (drawWeights rnd c f)). pose proof (Hu c f). lra.
Qed.

(** Draws that are all zero give the weight 0.01. *)
Lemma MCBM_new_weights_range_witness :
  1 / 100
  <= coeff (mWeights
              {| mDimIn := 3; mNumComponents := 2; mNumFeatures := 3;
                 mPriors := Zero 2 1;
                 mWeights := shift (scale (mabs (tabulate 2 3 (drawWeights zeroDraws)))
                                          (/ 100)) (1 / 100);
                 mFeatures := scale (tabulate 3 3 (drawFeatures zeroDraws)) (/ 100);
                 mPredictors := scale (tabulate 2 3 (drawPredictors zeroDraws)) (/ 100);
                 mInputBias := Zero 3 2;
                 mOutputBias := Zero 2 1 |}) 1 2
  <= 2 / 100.
Proof.
  apply (MCBM_new_weights_range 3 2 (-1) zeroDraws _ 1 2).
  - intros i j. simpl. rewrite Rabs_R0. lra.
  - reflexivity.
  - simpl. lia.
  - simpl. lia.
Defined.

(** X19. The checks of the constructor in their order: a number of
    components below 1 is reported first, then an effective number of
    features below 1; with both at least 1, a negative [dimIn] is not
    reported by any message of the constructor and yields no model. *)
Theorem MCBM_new_error_order
        (dimIn numComponents numFeatures : Z) (rnd : InitDraws) :
  ((numComponents < 1)%Z ->
   MCBM_new dimIn numComponents numFeatures rnd
   = Throws "The number of components has to be positive.") /\
  ((1 <= numComponents)%Z -> (effectiveNumFeatures dimIn numFeatures < 1)%Z ->
   MCBM_new dimIn numComponents numFeatures rnd
   = Throws "The number of features has to be positive.") /\
  ((1 <= numComponents)%Z -> (1 <= effectiveNumFeatures dimIn numFeatures)%Z ->
   (dimIn < 0)%Z ->
   MCBM_new dimIn numComponents numFeatures rnd = NoResult) /\
  (forall msg, MCBM_new dimIn numComponents numFeatures rnd = Throws msg ->
               (numComponents < 1 \/ effectiveNumFeatures dimIn numFeatures < 1)%Z).
Proof.
  unfold MCBM_new. fold (effectiveNumFeatures dimIn numFeatures).
  destruct (Z.ltb_spec numComponents 1);
    destruct (Z.ltb_spec (effectiveNumFeatures dimIn numFeatures) 1);
    destruct (Z.ltb_spec dimIn 0);
    repeat split; intros; try lia; try reflexivity; try discriminate.
Qed.

(** ** The mixture base class *)

(** X20. [Mixture::operator[]] returns the stored component exactly for
    an index from 0 up to, and not including, the number of components,
    and throws for every other index; [setPriors] and [setInitialized]
    change neither the components nor their number. *)
Theorem Mixture_index_bounds (m : Mixture.Mixture) (i : Z) :
  (Mixture.index m i = Throws "Invalid component index."
   <-> (i < 0 \/ Mixture.numComponents m <= i)%Z) /\
  (forall c, Mixture.index m i = Returns c
             <-> ((0 <= i < Mixture.numComponents m)%Z /\
                  nth_error (Mixture.mComponents m) (Z.to_nat i) = Some c)) /\
  (forall b p,
      Mixture.index (Mixture.setPriors (Mixture.setInitialized m b) p) i
      = Mixture.index m i /\
      Mixture.numComponents (Mixture.setPriors (Mixture.setInitialized m b) p)
      = Mixture.numComponents m).
Proof.
  unfold Mixture.index, Mixture.numComponents.
  split; [|split].
  - destruct (Z.ltb_spec i 0); cbn [orb]; [split; [lia | reflexivity]|].
    destruct (Z.geb_spec i (Z.of_nat (length (Mixture.mComponents m))));
      (split; [intros E; try discriminate; lia | intros; try reflexivity; lia]).
  - intros c.
    destruct (Z.ltb_spec i 0); cbn [orb]; [split; [discriminate | lia]|].
    destruct (Z.geb_spec i (Z.of_nat (length (Mixture.mComponents m))));
      [split; [discriminate | lia]|].
    assert (Hlt : (Z.to_nat i < length (Mixture.mComponents m))%nat) by lia.
    split.
    + intros E. injection E as <-. split; [lia|]. apply nth_error_nth'. exact Hlt.
    + intros [_ E]. f_equal. apply nth_error_nth. exact E.
  - intros b p. split; reflexivity.
Qed.

(** ** Ownership of the progress callback *)

Lemma live_heap_delete h a b :
  In b (live (heap_delete h a)) <-> In b (live h) /\ b <> a.
Proof.
  unfold heap_delete. cbn [live]. split.
  - intros H. apply in_remove in H. exact H.
  - intros [H1 H2]. apply in_in_remove; assumption.
Qed.

(** X21. Copying a configuration duplicates its callback: the copy agrees
    with the original in every other member, holds a newly allocated
    callback that is not the original's, and destroying the copy leaves
    the original's callback allocated.  A configuration without callback
    is copied without touching the heap. *)
Theorem Parameters_copy_does_not_alias (params : Parameters) (h : Heap) :
  wfHeap h ->
  (forall cb, callback params = Some cb -> In cb (live h)) ->
  let '(this, h') := Parameters_copy params h in
  withCallback this (callback params) = params /\
  wfHeap h' /\
  (callback params = None -> callback this = None /\ h' = h) /\
  (forall cb, callback params = Some cb ->
     exists cb', callback this = Some cb' /\ cb' <> cb /\
                 ~ In cb' (live h) /\ In cb' (live h') /\
                 In cb (live (Parameters_destroy this h'))).
Proof.
  intros Hwf Hown. unfold Parameters_copy.
  destruct params as [v mi th ng bs cb ci t1 t2 t3 t4 t5 t6 r1 r2].
  cbn [callback verbosity maxIter threshold numGrad batchSize cbIter trainPriors
       trainWeights trainFeatures trainPredictors trainInputBias trainOutputBias
       regularizeFeatures regularizePredictors] in *.
  destruct cb as [cb|].
  - unfold Callback_copy, heap_new, withCallback. cbn -[In remove heap_delete].
    pose proof (Hwf cb (Hown cb eq_refl)) as Hlt.
    split; [reflexivity|]. split.
    { intros a [<-|Ha]; cbn [next]; [lia|]. specialize (Hwf a Ha). lia. }
    split; [discriminate|].
    intros cb0 E. injection E as <-.
    exists (next h). split; [reflexivity|]. split; [lia|]. split.
    { intros Hin. specialize (Hwf _ Hin). lia. }
    split; [left; reflexivity|].
    unfold Parameters_destroy. cbn [callback].
    apply live_heap_delete. split; [right; apply Hown; reflexivity | lia].
  - cbn -[In remove heap_delete]. split; [reflexivity|]. split; [exact Hwf|].
    split; [intros _; split; reflexivity|]. intros cb0 E. discriminate.
Qed.

(** The default configuration with a callback at handle 0. *)
Lemma Parameters_copy_does_not_alias_witness :
  let params := withCallback defaultParameters (Some 0%nat) in
  let h := mkHeap [0%nat] 1 in
  let '(this, h') := Parameters_copy params h in
  withCallback this (callback params) = params /\
  wfHeap h' /\
  (callback params = None -> callback this = None /\ h' = h) /\
  (forall cb, callback params = Some cb ->
     exists cb', callback this = Some cb' /\ cb' <> cb /\
                 ~ In cb' (live h) /\ In cb' (live h') /\
                 In cb (live (Parameters_destroy this h'))).
Proof.
  apply (Parameters_copy_does_not_alias (withCallback defaultParameters (Some 0%nat))
                                        (mkHeap [0%nat] 1)).
  - intros a [<-|[]]. simpl. lia.
  - intros cb E. injection E as <-. left. reflexivity.
Defined.

(** X22. Assignment leaks: [operator=] overwrites the callback pointer of
    the target without deleting the object it pointed to.  When the target
    held a callback, that object is referred to by neither configuration
    after the assignment and is still allocated once both have been
    destroyed. *)
Theorem Parameters_assign_leaks_callback (this params : Parameters) (h : Heap) (a : nat) :
  wfHeap h -> callback this = Some a -> In a (live h) ->
  callback params <> Some a ->
  let '(this', h') := Parameters_assign this params h in
  withCallback this' (callback params) = withCallback params (callback params) /\
  callback this' <> Some a /\
  In a (live (Parameters_destroy params (Parameters_destroy this' h'))).
Proof.
  intros Hwf Ha Hin Hne. unfold Parameters_assign.
  pose proof (Hwf a Hin) as Hlt.
  destruct (callback params) as [cb|] eqn:Ecb.
  - unfold Callback_copy, heap_new. cbn -[In remove heap_delete].
    split; [reflexivity|]. split; [intros E; injection E as E; lia|].
    unfold Parameters_destroy. cbn [callback]. rewrite Ecb.
    apply live_heap_delete. split; [|congruence].
    apply live_heap_delete. split; [right; exact Hin | lia].
  - cbn -[In remove heap_delete]. split; [reflexivity|]. split; [discriminate|].
    unfold Parameters_destroy. cbn [callback]. rewrite Ecb. exact Hin.
Qed.

(** Two configurations, each with a callback of its own. *)
Lemma Parameters_assign_leaks_callback_witness :
  let this := withCallback defaultParameters (Some 0%nat) in
  let params := withCallback paramsWO (Some 1%nat) in
  let h := mkHeap [1%nat; 0%nat] 2 in
  let '(this', h') := Parameters_assign this params h in
  withCallback this' (callback params) = withCallback params (callback params) /\
  callback this' <> Some 0%nat /\
  In 0%nat (live (Parameters_destroy params (Parameters_destroy this' h'))).
Proof.
  apply (Parameters_assign_leaks_callback
           (withCallback defaultParameters (Some 0%nat))
           (withCallback paramsWO (Some 1%nat)) (mkHeap [1%nat; 0%nat] 2) 0%nat).
  - intros a [<-|[<-|[]]]; simpl; lia.
  - reflexivity.
  - right. left. reflexivity.
  - discriminate.
Defined.

(** ** What the configuration is read for *)

Ltac flag_projections :=
  cbn [batchSize trainPriors trainWeights trainFeatures trainPredictors
       trainInputBias trainOutputBias].

Lemma bindViews_flags m x v mi th ng bs cb ci t1 t2 t3 t4 t5 t6 r1 r2
      v' mi' th' ng' bs' cb' ci' r1' r2' :
  bindViews m x (mkParameters v mi th ng bs cb ci t1 t2 t3 t4 t5 t6 r1 r2)
  = bindViews m x (mkParameters v' mi' th' ng' bs' cb' ci' t1 t2 t3 t4 t5 t6 r1' r2').
Proof. unfold bindViews. flag_projections. reflexivity. Qed.

Lemma initGradients_flags m V g v mi th ng bs cb ci t1 t2 t3 t4 t5 t6 r1 r2
      v' mi' th' ng' bs' cb' ci' r1' r2' :
  initGradients m V (mkParameters v mi th ng bs cb ci t1 t2 t3 t4 t5 t6 r1 r2) g
  = initGradients m V (mkParameters v' mi' th' ng' bs' cb' ci' t1 t2 t3 t4 t5 t6 r1' r2') g.
Proof. unfold initGradients. flag_projections. reflexivity. Qed.

Lemma batchBody_flags m V X Y v mi th ng bs cb ci t1 t2 t3 t4 t5 t6 r1 r2
      v' mi' th' ng' bs' cb' ci' r1' r2' :
  batchBody m V (mkParameters v mi th ng bs cb ci t1 t2 t3 t4 t5 t6 r1 r2) X Y
  = batchBody m V (mkParameters v' mi' th' ng' bs' cb' ci' t1 t2 t3 t4 t5 t6 r1' r2') X Y.
Proof. unfold batchBody. flag_projections. reflexivity. Qed.

Lemma computeGradient_flags m X Y x g v mi th ng bs cb ci t1 t2 t3 t4 t5 t6 r1 r2
      v' mi' th' ng' cb' ci' r1' r2' :
  computeGradient m X Y x g (mkParameters v mi th ng bs cb ci t1 t2 t3 t4 t5 t6 r1 r2)
  = computeGradient m X Y x g
      (mkParameters v' mi' th' ng' bs cb' ci' t1 t2 t3 t4 t5 t6 r1' r2').
Proof.
  unfold computeGradient. cbv zeta.
  rewrite (bindViews_flags m x v mi th ng bs cb ci t1 t2 t3 t4 t5 t6 r1 r2
                           v' mi' th' ng' bs cb' ci' r1' r2').
  rewrite (initGradients_flags m _ g v mi th ng bs cb ci t1 t2 t3 t4 t5 t6 r1 r2
                               v' mi' th' ng' bs cb' ci' r1' r2').
  rewrite (batchBody_flags m _ X Y v mi th ng bs cb ci t1 t2 t3 t4 t5 t6 r1 r2
                           v' mi' th' ng' bs cb' ci' r1' r2').
  reflexivity.
Qed.

(** X23. Of a configuration, the vectorization layer, the objective and
    the gradient checker read the six training flags and the batch size
    only: the regularization strengths, the iteration cap, the threshold,
    the verbosity and the callback have no effect on [parameters],
    [setParameters], [computeGradient] and [checkGradient]. *)
Theorem only_flags_and_batchSize_matter (p q : Parameters) :
  sameFlags p q -> batchSize p = batchSize q ->
  (forall m, parameters m p = parameters m q) /\
  (forall m x, setParameters m x p = setParameters m x q) /\
  (forall m X Y x g, computeGradient m X Y x g p = computeGradient m X Y x g q) /\
  (forall m X Y epsilon y0 g0 n0,
      checkGradient m X Y epsilon p y0 g0 n0 = checkGradient m X Y epsilon q y0 g0 n0).
Proof.
  intros (H1 & H2 & H3 & H4 & H5 & H6) Hb.
  destruct p as [v mi th ng bs cb ci t1 t2 t3 t4 t5 t6 r1 r2].
  destruct q as [v' mi' th' ng' bs' cb' ci' t1' t2' t3' t4' t5' t6' r1' r2'].
  cbn [batchSize trainPriors trainWeights trainFeatures trainPredictors
       trainInputBias trainOutputBias] in *.
  subst.
  set (p := mkParameters v mi th ng bs' cb ci t1' t2' t3' t4' t5' t6' r1 r2).
  set (q := mkParameters v' mi' th' ng' bs' cb' ci' t1' t2' t3' t4' t5' t6' r1' r2').
  assert (HP : forall m, parameters m p = parameters m q) by (intros; reflexivity).
  assert (HN : forall m, numParameters m p = numParameters m q) by (intros; reflexivity).
  assert (HG : forall m X Y x g,
             computeGradient m X Y x g p = computeGradient m X Y x g q)
    by (intros; apply computeGradient_flags).
  split; [exact HP|].
  split.
  { intros m x. rewrite (setParameters_views m x p), (setParameters_views m x q).
    cbv zeta. unfold p, q.
    rewrite (bindViews_flags m x v mi th ng bs' cb ci t1' t2' t3' t4' t5' t6' r1 r2
                             v' mi' th' ng' bs' cb' ci' r1' r2').
    flag_projections. reflexivity. }
  split; [exact HG|].
  intros m X Y epsilon y0 g0 n0. unfold checkGradient. rewrite HP, HN.
  destruct (_ || _); [reflexivity|]. destruct (negb _); [reflexivity|].
  cbv zeta.
  assert (HF : forall idxs x st,
             fdLoop (mkParamsLBFGS m p X Y) x epsilon idxs st
             = fdLoop (mkParamsLBFGS m q X Y) x epsilon idxs st).
  { induction idxs as [|i rest IH]; intros x st; [reflexivity|].
    cbn [fdLoop]. unfold evaluateLBFGS. cbn [mcbm input_ output_ params_].
    rewrite HG.
    destruct (computeGradient _ _ _ _ _ _); cbn [bind]; [|reflexivity ..].
    rewrite HG.
    destruct (computeGradient _ _ _ _ _ _); cbn [bind]; [|reflexivity ..].
    apply IH. }
  rewrite HF. unfold evaluateLBFGS. cbn [mcbm input_ output_ params_].
  destruct (fdLoop _ _ _ _ _); cbn [bind]; [rewrite HG; reflexivity | reflexivity ..].
Qed.

(** A configuration with regularization, another threshold and a callback. *)
Lemma only_flags_and_batchSize_matter_witness :
  let q := {| verbosity := 1; maxIter := 10; threshold := 1; numGrad := 5;
              batchSize := 2000; callback := Some 0%nat; cbIter := 1;
              trainPriors := false; trainWeights := true; trainFeatures := false;
              trainPredictors := false; trainInputBias := false;
              trainOutputBias := true;
              regularizeFeatures := 3; regularizePredictors := 4 |} in
  (forall m, parameters m paramsWO = parameters m q) /\
  (forall m x, setParameters m x paramsWO = setParameters m x q) /\
  (forall m X Y x g, computeGradient m X Y x g paramsWO = computeGradient m X Y x g q) /\
  (forall m X Y epsilon y0 g0 n0,
      checkGradient m X Y epsilon paramsWO y0 g0 n0
      = checkGradient m X Y epsilon q y0 g0 n0).
Proof.
  apply (only_flags_and_batchSize_matter paramsWO
           {| verbosity := 1; maxIter := 10; threshold := 1; numGrad := 5;
              batchSize := 2000; callback := Some 0%nat; cbIter := 1;
              trainPriors := false; trainWeights := true; trainFeatures := false;
              trainPredictors := false; trainInputBias := false;
              trainOutputBias := true;
              regularizeFeatures := 3; regularizePredictors := 4 |}).
  - repeat split.
  - reflexivity.
Defined.
